(** * AST-obfuscator: a shallow embedding of the deobfuscation passes

    The passes of [packages/tool/src/utils/ast.ts] (class [Deob]) and of
    [packages/tool/src/transforms/sequence.ts] are embedded as functions over
    an estree-shaped syntax tree.  The parser, the printer, the traversal
    driver, the scope analysis and the evaluator are Babel's; they are either
    taken as section variables or modelled on the fragment of syntax embedded
    here, and each such model says so. *)

From Stdlib Require Import List String Ascii ZArith Bool Lia DecimalString.
From Stdlib Require Decimal DecimalPos DecimalZ.
From stdpp Require Import gmap strings.
Import ListNotations.

Open Scope string_scope.
Open Scope list_scope.

(** ** JavaScript primitives used by the passes *)

Module JS.

(** [Number.prototype.toString()] (radix 10) on the integers a double holds
    exactly and prints in full, those of magnitude below 2^53 (array
    indices, case labels and the small constants of the examples): the
    decimal numeral.  Beyond them JavaScript rounds the value and, from
    1e21 on, writes an exponent; the embedding has no such numbers. *)
Definition Number_toString (n : Z) : string :=
  NilZero.string_of_int (Z.to_int n).

(** [String.prototype.split(sep)] for a one-character separator: the pieces
    between the occurrences of [sep]; the empty string gives one empty piece. *)
Fixpoint split_go (sep : ascii) (s : string) (cur : string) : list string :=
  match s with
  | EmptyString => [cur]
  | String c rest =>
      if Ascii.eqb c sep then cur :: split_go sep rest EmptyString
      else split_go sep rest (cur ++ String c EmptyString)
  end.

Definition split (sep : ascii) (s : string) : list string :=
  split_go sep s EmptyString.

(** A decimal numeral read as an integer. *)
Definition parse_decimal (s : string) : option Z :=
  option_map Z.of_int (NilZero.int_of_string s).

(** The array index a property key denotes: a key is an array index when it
    is the canonical decimal rendering of a natural number ("1" is, "01",
    "-0" and "x" are not).  [arr[key]] is [undefined] for every other key. *)
Definition array_index (key : string) : option nat :=
  match parse_decimal key with
  | Some n =>
      if (0 <=? n)%Z && String.eqb (Number_toString n) key
      then Some (Z.to_nat n) else None
  | None => None
  end.

(** [arr[key]] for a string key. *)
Definition array_get {A : Type} (arr : list A) (key : string) : option A :=
  match array_index key with
  | Some i => nth_error arr i
  | None => None
  end.

End JS.

(** ** The syntax tree

    Node kinds and field names are Babel's.  Operators are kept as the
    strings Babel stores.  A function's [body] is the statement list of its
    [BlockStatement].  Numeric literals are integer valued. *)

Scheme All for list.
Scheme All for option.

Inductive expr : Type :=
| Identifier (name : string)
| StringLiteral (value : string)
| NumericLiteral (value : Z)
| BooleanLiteral (value : bool)
| NullLiteral
| RegExpLiteral (pattern flags : string)
| ArrayExpression (elements : list expr)
| UnaryExpression (operator : string) (argument : expr)
| UpdateExpression (operator : string) (prefix : bool) (argument : expr)
| BinaryExpression (operator : string) (left right : expr)
| LogicalExpression (operator : string) (left right : expr)
| AssignmentExpression (operator : string) (left right : expr)
| ConditionalExpression (test consequent alternate : expr)
| MemberExpression (object property : expr) (computed : bool)
| CallExpression (callee : expr) (arguments : list expr)
| SequenceExpression (expressions : list expr)
| FunctionExpression (id : option string) (params : list string) (body : list stmt)
with stmt : Type :=
| ExpressionStatement (expression : expr)
| BlockStatement (body : list stmt)
| EmptyStatement
| ReturnStatement (argument : option expr)
| ThrowStatement (argument : expr)
| BreakStatement
| ContinueStatement
| IfStatement (test : expr) (consequent : stmt) (alternate : option stmt)
| SwitchStatement (discriminant : expr) (cases : list switchCase)
| WhileStatement (test : expr) (body : stmt)
| ForStatement (init : option forInit) (test update : option expr) (body : stmt)
| ForInStatement (left : forInit) (right : expr) (body : stmt)
| VariableDeclaration (kind : string) (declarations : list declarator)
| FunctionDeclaration (id : string) (params : list string) (body : list stmt)
with switchCase : Type :=
| SwitchCase (test : option expr) (consequent : list stmt)
with declarator : Type :=
| VariableDeclarator (id : expr) (init : option expr)
with forInit : Type :=
| ForInitDeclaration (kind : string) (declarations : list declarator)
| ForInitExpression (expression : expr).

Scheme expr_mind := Induction for expr Sort Prop
with stmt_mind := Induction for stmt Sort Prop
with switchCase_mind := Induction for switchCase Sort Prop
with declarator_mind := Induction for declarator Sort Prop
with forInit_mind := Induction for forInit Sort Prop.

Combined Scheme ast_mutind from
  expr_mind, stmt_mind, switchCase_mind, declarator_mind, forInit_mind.

(** [t.isLiteral]: the literal node kinds of the fragment. *)
Definition isLiteral (e : expr) : bool :=
  match e with
  | StringLiteral _ | NumericLiteral _ | BooleanLiteral _ | NullLiteral
  | RegExpLiteral _ _ => true
  | _ => false
  end.

Definition isIdentifier (e : expr) : bool :=
  match e with Identifier _ => true | _ => false end.

Definition isStringLiteral (e : expr) : bool :=
  match e with StringLiteral _ => true | _ => false end.

Definition isNumericLiteral (e : expr) : bool :=
  match e with NumericLiteral _ => true | _ => false end.

Definition isSequenceExpression (e : expr) : bool :=
  match e with SequenceExpression _ => true | _ => false end.

(** ** [getPropName] (utils/ast.ts) *)

(** A node as [getPropName] reads it: [t.isIdentifier], [t.isStringLiteral]
    and [t.isNumericLiteral] look at the kind of the node, and the function
    reads its [name] or its [value].  The [value] of a numeric literal is a
    JavaScript number, any double; the type of numbers and Babel's kinds
    other than the three are left open. *)
Inductive Node (number : Type) : Type :=
| IdentifierNode (name : string)
| StringLiteralNode (value : string)
| NumericLiteralNode (value : number)
| OtherNode.

Arguments IdentifierNode {number} name.
Arguments StringLiteralNode {number} value.
Arguments NumericLiteralNode {number} value.
Arguments OtherNode {number}.

(** [getPropName(node)]; [toString] is [Number.prototype.toString], the
    builtin that [node.value.toString()] calls. *)
Definition getPropName {number : Type} (toString : number -> string)
  (node : Node number) : string :=
  match node with
  | IdentifierNode name => name
  | StringLiteralNode value => value
  | NumericLiteralNode value => toString value
  | OtherNode => ""
  end.

(** The node of an expression of the tree, whose numeric literals are
    integers. *)
Definition node_of (e : expr) : Node Z :=
  match e with
  | Identifier name => IdentifierNode name
  | StringLiteral value => StringLiteralNode value
  | NumericLiteral value => NumericLiteralNode value
  | _ => OtherNode
  end.

(** ** Values, [t.valueToNode] and the evaluator

    [path.evaluate()] is Babel's.  The passes are defined over any evaluator
    [evaluate : expr -> option value] ([None]: the result is not confident).
    [evaluate_model] is an evaluator for the examples only.  It answers on
    literals, on [undefined], on [void] and [!], and on sums, differences
    and products of integers and sums with a string; there its answer is
    Babel's as long as the numbers stay among the integers a double holds
    exactly.  On every other expression it is not confident, also where
    Babel is (an array, a bound constant).  A regular expression literal
    and a free identifier are not confident for Babel either. *)

Inductive value : Type :=
| VUndefined
| VNull
| VBoolean (b : bool)
| VNumber (n : Z)
| VString (s : string).

(** [!!v] *)
Definition truthy (v : value) : bool :=
  match v with
  | VUndefined | VNull => false
  | VBoolean b => b
  | VNumber n => negb (n =? 0)%Z
  | VString s => negb (String.eqb s "")
  end.

Definition valueToNode (v : value) : expr :=
  match v with
  | VUndefined => Identifier "undefined"
  | VNull => NullLiteral
  | VBoolean b => BooleanLiteral b
  | VString s => StringLiteral s
  | VNumber n =>
      if (n <? 0)%Z then UnaryExpression "-" (NumericLiteral (Z.abs n))
      else NumericLiteral n
  end.

(** [String(v)] for the primitive values above. *)
Definition toStr (v : value) : string :=
  match v with
  | VUndefined => "undefined"
  | VNull => "null"
  | VBoolean true => "true"
  | VBoolean false => "false"
  | VNumber n => JS.Number_toString n
  | VString s => s
  end.

Definition evaluate_binary (operator : string) (l r : value) : option value :=
  if String.eqb operator "+" then
    match l, r with
    | VNumber a, VNumber b => Some (VNumber (a + b))
    | VString a, _ => Some (VString (a ++ toStr r))
    | _, VString b => Some (VString (toStr l ++ b))
    | _, _ => None
    end
  else if String.eqb operator "-" then
    match l, r with
    | VNumber a, VNumber b => Some (VNumber (a - b))
    | _, _ => None
    end
  else if String.eqb operator "*" then
    match l, r with
    | VNumber a, VNumber b => Some (VNumber (a * b))
    | _, _ => None
    end
  else None.

Fixpoint evaluate_model (e : expr) : option value :=
  match e with
  | StringLiteral s => Some (VString s)
  | NumericLiteral n => Some (VNumber n)
  | BooleanLiteral b => Some (VBoolean b)
  | NullLiteral => Some VNull
  | Identifier name =>
      if String.eqb name "undefined" then Some VUndefined else None
  | UnaryExpression operator argument =>
      if String.eqb operator "void" then Some VUndefined
      else if String.eqb operator "!" then
        match evaluate_model argument with
        | Some v => Some (VBoolean (negb (truthy v)))
        | None => None
        end
      else None
  | BinaryExpression operator l r =>
      match evaluate_model l, evaluate_model r with
      | Some a, Some b => evaluate_binary operator a b
      | _, _ => None
      end
  | _ => None
  end.

(** [path.evaluateTruthy()]: [undefined] (here [None]) when the evaluation
    is not confident. *)
Definition evaluateTruthy (evaluate : expr -> option value) (e : expr)
  : option bool :=
  match evaluate e with
  | Some v => Some (truthy v)
  | None => None
  end.

(** ** The traversal driver

    Modelled from the spec: the traversal driver ([traverse] is Babel's, not
    under src/).  A depth-first walk that calls [enter] on a node, walks its
    children and calls [exit]; [skip] suppresses the descent; a node put in
    place by an [exit] visitor, or inserted beside it, is not visited again
    in the pass.  Every visitor reports how often it bumped [changes]. *)

(** What a visitor leaves in the slot of the statement it visited. *)
Inductive outcome : Type :=
| Same (s : stmt)
| Splice (l : list stmt).

(** The slot is an element of a statement list ([body] of a block, of a
    program, [consequent] of a case). *)
Definition in_list (o : outcome) : list stmt :=
  match o with
  | Same s => [s]
  | Splice l => l
  end.

(** The slot holds one statement ([consequent], [body] of a loop): several
    statements, or none, are wrapped in a block. *)
Definition in_slot (o : outcome) : stmt :=
  match o with
  | Same s => s
  | Splice l => BlockStatement l
  end.

(** The [alternate] slot: a removed alternate leaves [null]. *)
Definition in_alternate (o : outcome) : option stmt :=
  match o with
  | Same s => Some s
  | Splice [] => None
  | Splice l => Some (BlockStatement l)
  end.

(** [path.insertBefore(hoisted)] called by a child on its parent. *)
Definition insertBefore (hoisted : list stmt) (o : outcome) : outcome :=
  match hoisted with
  | [] => o
  | _ => Splice (hoisted ++ in_list o)
  end.

Definition counted (A : Type) : Type := (A * nat)%type.

Definition ret {A : Type} (a : A) : counted A := (a, 0).

Definition bind {A B : Type} (m : counted A) (k : A -> counted B) : counted B :=
  let '(a, n) := m in let '(b, n') := k a in (b, n + n').

Fixpoint mapM {A B : Type} (f : A -> counted B) (l : list A) : counted (list B) :=
  match l with
  | [] => ret []
  | x :: rest =>
      bind (f x) (fun x' => bind (mapM f rest) (fun rest' => ret (x' :: rest')))
  end.

Definition optM {A B : Type} (f : A -> counted B) (o : option A)
  : counted (option B) :=
  match o with
  | Some x => bind (f x) (fun x' => ret (Some x'))
  | None => ret None
  end.

Record Visitor : Type := {
  (** [enter] on an expression: [Some e'] replaces the node and skips it. *)
  enter_expr : expr -> option expr;
  (** [exit] on an expression. *)
  exit_expr : expr -> counted expr;
  (** [enter] on a statement: [Some s'] replaces the node and skips it. *)
  enter_stmt : stmt -> option stmt;
  (** [exit] on a statement. *)
  exit_stmt : stmt -> counted outcome;
  (** [exit] on the declaration in the [init] of a [for]: the statements it
      inserts before the [for], and the declaration it leaves. *)
  exit_init : forInit -> counted (list stmt * forInit)
}.

(** The walk below a statement, given the walk [fe] of an expression. *)
Section Walk.

Variable v : Visitor.
Variable fe : expr -> counted expr.

Definition walk_declarator (d : declarator) : counted declarator :=
  match d with
  | VariableDeclarator id init =>
      bind (fe id) (fun id' =>
      bind (optM fe init) (fun i' =>
      ret (VariableDeclarator id' i')))
  end.

(** The [init] of a [for]: a declaration is visited as one (its [exit]
    inserts before the [for]); an expression is an expression. *)
Definition walk_init (i : forInit) : counted (list stmt * forInit) :=
  match i with
  | ForInitDeclaration kind declarations =>
      bind (mapM walk_declarator declarations) (fun ds =>
      exit_init v (ForInitDeclaration kind ds))
  | ForInitExpression e =>
      bind (fe e) (fun e' => ret ([], ForInitExpression e'))
  end.

(** The [left] of a [for-in]: a declaration without initializers or an
    assignment target. *)
Definition walk_left (i : forInit) : counted forInit :=
  match i with
  | ForInitDeclaration kind declarations =>
      bind (mapM walk_declarator declarations) (fun ds =>
      ret (ForInitDeclaration kind ds))
  | ForInitExpression e =>
      bind (fe e) (fun e' => ret (ForInitExpression e'))
  end.

Fixpoint walk_stmt (s : stmt) : counted outcome :=
  match enter_stmt v s with
  | Some s' => ret (Same s')
  | None =>
      match s with
      | ExpressionStatement e =>
          bind (fe e) (fun e' =>
          exit_stmt v (ExpressionStatement e'))
      | BlockStatement body =>
          bind (mapM walk_stmt body) (fun os =>
          exit_stmt v (BlockStatement (concat (map in_list os))))
      | ReturnStatement argument =>
          bind (optM fe argument) (fun a =>
          exit_stmt v (ReturnStatement a))
      | ThrowStatement argument =>
          bind (fe argument) (fun a =>
          exit_stmt v (ThrowStatement a))
      | IfStatement t c a =>
          bind (fe t) (fun t' =>
          bind (walk_stmt c) (fun c' =>
          bind (optM walk_stmt a) (fun a' =>
          exit_stmt v
            (IfStatement t' (in_slot c')
               (match a' with Some o => in_alternate o | None => None end)))))
      | SwitchStatement d cases =>
          bind (fe d) (fun d' =>
          bind (mapM
                  (fun c =>
                     match c with
                     | SwitchCase t consequent =>
                         bind (optM fe t) (fun t' =>
                         bind (mapM walk_stmt consequent) (fun os =>
                         ret (SwitchCase t' (concat (map in_list os)))))
                     end) cases) (fun cs =>
          exit_stmt v (SwitchStatement d' cs)))
      | WhileStatement t body =>
          bind (fe t) (fun t' =>
          bind (walk_stmt body) (fun b =>
          exit_stmt v (WhileStatement t' (in_slot b))))
      | ForStatement init t u body =>
          bind
            match init with
            | Some i =>
                bind (walk_init i) (fun '(hoisted, i') =>
                ret (hoisted, Some i'))
            | None => ret ([], None)
            end
            (fun '(hoisted, init') =>
            bind (optM fe t) (fun t' =>
            bind (optM fe u) (fun u' =>
            bind (walk_stmt body) (fun b =>
            bind (exit_stmt v (ForStatement init' t' u' (in_slot b))) (fun o =>
            ret (insertBefore hoisted o))))))
      | ForInStatement lhs rhs body =>
          bind (walk_left lhs) (fun l' =>
          bind (fe rhs) (fun r' =>
          bind (walk_stmt body) (fun b =>
          exit_stmt v (ForInStatement l' r' (in_slot b)))))
      | VariableDeclaration kind declarations =>
          bind (mapM walk_declarator declarations) (fun ds =>
          exit_stmt v (VariableDeclaration kind ds))
      | FunctionDeclaration id params body =>
          bind (mapM walk_stmt body) (fun os =>
          exit_stmt v (FunctionDeclaration id params (concat (map in_list os))))
      | EmptyStatement | BreakStatement | ContinueStatement => exit_stmt v s
      end
  end.

(** A statement list: each statement leaves what its visitors put in its
    place. *)
Definition walk_body (body : list stmt) : counted (list stmt) :=
  bind (mapM walk_stmt body) (fun os => ret (concat (map in_list os))).

End Walk.

Section Traverse.

Variable v : Visitor.

Fixpoint traverse_expr (e : expr) : counted expr :=
  match enter_expr v e with
  | Some e' => ret e'
  | None =>
      bind
        match e with
        | ArrayExpression elements =>
            bind (mapM traverse_expr elements) (fun l => ret (ArrayExpression l))
        | UnaryExpression operator argument =>
            bind (traverse_expr argument) (fun a =>
            ret (UnaryExpression operator a))
        | UpdateExpression operator prefix argument =>
            bind (traverse_expr argument) (fun a =>
            ret (UpdateExpression operator prefix a))
        | BinaryExpression operator l r =>
            bind (traverse_expr l) (fun l' =>
            bind (traverse_expr r) (fun r' =>
            ret (BinaryExpression operator l' r')))
        | LogicalExpression operator l r =>
            bind (traverse_expr l) (fun l' =>
            bind (traverse_expr r) (fun r' =>
            ret (LogicalExpression operator l' r')))
        | AssignmentExpression operator l r =>
            bind (traverse_expr l) (fun l' =>
            bind (traverse_expr r) (fun r' =>
            ret (AssignmentExpression operator l' r')))
        | ConditionalExpression t c a =>
            bind (traverse_expr t) (fun t' =>
            bind (traverse_expr c) (fun c' =>
            bind (traverse_expr a) (fun a' =>
            ret (ConditionalExpression t' c' a'))))
        | MemberExpression object property computed =>
            bind (traverse_expr object) (fun o' =>
            bind (traverse_expr property) (fun p' =>
            ret (MemberExpression o' p' computed)))
        | CallExpression callee arguments =>
            bind (traverse_expr callee) (fun c' =>
            bind (mapM traverse_expr arguments) (fun l =>
            ret (CallExpression c' l)))
        | SequenceExpression expressions =>
            bind (mapM traverse_expr expressions) (fun l =>
            ret (SequenceExpression l))
        | FunctionExpression id params body =>
            bind (walk_body v traverse_expr body) (fun b =>
            ret (FunctionExpression id params b))
        | _ => ret e
        end
        (exit_expr v)
  end.

Definition traverse_stmt : stmt -> counted outcome := walk_stmt v traverse_expr.

(** [traverse(ast, visitor)] on a program body. *)
Definition traverse (body : list stmt) : counted (list stmt) :=
  walk_body v traverse_expr body.

End Traverse.

(** A visitor with no handler. *)
Definition no_visitor : Visitor :=
  {| enter_expr := fun _ => None;
     exit_expr := ret;
     enter_stmt := fun _ => None;
     exit_stmt := fun s => ret (Same s);
     exit_init := fun i => ret ([], i) |}.

(** [this.reParse()]: print the tree and parse the text again.  The printer
    and the parser are Babel's.  [reParse] is the method on a tree whose
    text parses and reads back as the tree: there it leaves the tree as it
    is.  [removeUnusedBlock] and [restoreSequence] are modelled with it, and
    what is proved of them is proved for that case. *)
Definition reParse (ast : list stmt) : list stmt := ast.

(** [this.reParse()] with the printer and the parser left open:
    [reparse ast] is what [parser.parse] reads off the text that [generator]
    prints for [ast], and [None] when the parser throws, as it does on a
    [return] outside a function; the method then throws.  The tree read can
    differ from the tree printed: a string used as the first statement reads
    back as a directive.  The methods whose result can be such a tree take
    [reparse] as a parameter. *)
Definition Reparse : Type := list stmt -> option (list stmt).

(** ** The [sequence] transform (transforms/sequence.ts) *)

(** [Array.prototype.pop]: the last element ([undefined] on an empty
    array) and the array it leaves. *)
Definition pop {A : Type} (l : list A) : option A * list A :=
  (List.last (map Some l) None, List.removelast l).

(** [x!]: the source asserts the popped expression is there (the parser
    gives a sequence two expressions or more); on an empty sequence the
    slot would hold [undefined]. *)
Definition defined (o : option expr) : expr :=
  match o with
  | Some e => e
  | None => Identifier "undefined"
  end.

Definition expressionStatements (expressions : list expr) : list stmt :=
  map ExpressionStatement expressions.

Definition sequence_ForStatement
  (init : option forInit) (test update : option expr) (body : stmt)
  : counted outcome :=
  let '(before, init1, n1) :=
    match init with
    | Some (ForInitExpression (SequenceExpression expressions)) =>
        (Some (expressionStatements expressions), None, 1)
    | _ => (None, init, 0)
    end in
  let '(update1, body1, n2) :=
    match update, body with
    | Some (SequenceExpression expressions), EmptyStatement =>
        let '(u, leading) := pop expressions in
        (Some (defined u), BlockStatement (expressionStatements leading), 1)
    | _, _ => (update, body, 0)
    end in
  let node := ForStatement init1 test update1 body1 in
  (match before with
   | Some statements => Splice (statements ++ [node])
   | None => Same node
   end, n1 + n2).

Definition sequence_exit_stmt (s : stmt) : counted outcome :=
  match s with
  | ExpressionStatement (SequenceExpression expressions) =>
      (Splice (expressionStatements expressions), 1)
  | ReturnStatement (Some (SequenceExpression expressions)) =>
      let '(argument, leading) := pop expressions in
      (Splice (expressionStatements leading ++ [ReturnStatement argument]), 1)
  | ReturnStatement (Some (UnaryExpression operator (SequenceExpression expressions))) =>
      if String.eqb operator "void" then
        (Splice (expressionStatements expressions ++ [ReturnStatement None]), 1)
      else (Same s, 0)
  | IfStatement (SequenceExpression expressions) consequent alternate =>
      let '(test, leading) := pop expressions in
      (Splice (expressionStatements leading
               ++ [IfStatement (defined test) consequent alternate]), 1)
  | SwitchStatement (SequenceExpression expressions) cases =>
      let '(discriminant, leading) := pop expressions in
      (Splice (expressionStatements leading
               ++ [SwitchStatement (defined discriminant) cases]), 1)
  | ThrowStatement (SequenceExpression expressions) =>
      let '(argument, leading) := pop expressions in
      (Splice (expressionStatements leading
               ++ [ThrowStatement (defined argument)]), 1)
  | ForInStatement lhs (SequenceExpression expressions) body =>
      let '(rhs, leading) := pop expressions in
      (Splice (expressionStatements leading
               ++ [ForInStatement lhs (defined rhs) body]), 1)
  | ForStatement init test update body =>
      sequence_ForStatement init test update body
  | VariableDeclaration kind
      [VariableDeclarator id (Some (SequenceExpression expressions))] =>
      let '(init, leading) := pop expressions in
      (Splice (expressionStatements leading
               ++ [VariableDeclaration kind [VariableDeclarator id init]]), 1)
  | _ => (Same s, 0)
  end.

(** The [VariableDeclaration] visitor when [path.key === 'init'] of a
    [ForStatement]: the statements go before the [for]. *)
Definition sequence_exit_init (i : forInit) : counted (list stmt * forInit) :=
  match i with
  | ForInitDeclaration kind
      [VariableDeclarator id (Some (SequenceExpression expressions))] =>
      let '(init, leading) := pop expressions in
      ((expressionStatements leading,
        ForInitDeclaration kind [VariableDeclarator id init]), 1)
  | _ => (([], i), 0)
  end.

Definition sequence_visitor : Visitor :=
  {| enter_expr := fun _ => None;
     exit_expr := ret;
     enter_stmt := fun _ => None;
     exit_stmt := sequence_exit_stmt;
     exit_init := sequence_exit_init |}.

(** ** The transform runner

    Modelled from the spec: [applyTransform] and [applyTransforms] (section
    4.3; ast-utils is not under src/).  A transform is run on a tree and
    reports its count of edits; [applyTransforms] runs the list in order and
    repeats the whole list while a pass made a change, up to the iteration
    cap ([None]: did not converge). *)

Record Transform : Type := {
  name : string;
  tags : list string;
  run : list stmt -> counted (list stmt)
}.

Definition sequence : Transform :=
  {| name := "sequence"; tags := []; run := traverse sequence_visitor |}.

Definition applyTransform (ast : list stmt) (t : Transform)
  : counted (list stmt) :=
  run t ast.

(** One pass over the list, in order. *)
Fixpoint applyPass (ast : list stmt) (ts : list Transform)
  : counted (list stmt) :=
  match ts with
  | [] => ret ast
  | t :: rest => bind (applyTransform ast t) (fun ast' => applyPass ast' rest)
  end.

Fixpoint applyTransforms (iterationCap : nat) (ast : list stmt)
  (ts : list Transform) : option (counted (list stmt)) :=
  match iterationCap with
  | 0 => None
  | S cap =>
      let '(ast', changes) := applyPass ast ts in
      if Nat.eqb changes 0 then Some (ast', 0)
      else
        match applyTransforms cap ast' ts with
        | Some (ast'', more) => Some (ast'', changes + more)
        | None => None
        end
  end.

(** [unminify.run]: [state.changes += applyTransforms(ast, transforms)]. *)
Definition unminify (transforms : list Transform) (iterationCap : nat)
  (ast : list stmt) : option (counted (list stmt)) :=
  applyTransforms iterationCap ast transforms.

(** ** [removeSelfCallFn] *)

Definition removeSelfCallFn_ExpressionStatement (s : stmt) : option stmt :=
  match s with
  | ExpressionStatement
      (UnaryExpression _ (CallExpression (FunctionExpression _ _ body) [])) =>
      Some (BlockStatement body)
  | _ => None
  end.

Definition removeSelfCallFn_visitor : Visitor :=
  {| enter_expr := fun _ => None;
     exit_expr := ret;
     enter_stmt := removeSelfCallFn_ExpressionStatement;
     exit_stmt := fun s => ret (Same s);
     exit_init := fun i => ret ([], i) |}.

(** [removeSelfCallFn()]: the traversal, then [this.reParse()]. *)
Definition removeSelfCallFn (reparse : Reparse) (ast : list stmt)
  : option (list stmt) :=
  reparse (fst (traverse removeSelfCallFn_visitor ast)).

(** ** [calcBinary] *)

(** What [transformConcatenated] did at a node. *)
Inductive attempt : Type :=
| Untouched
| Deopt
| Folded (e : expr).

Section CalcBinary.

Variable evaluate : expr -> option value.
Variable reparse : Reparse.

(** The body of [transformConcatenated] at one node, without the call on
    the parent: [Untouched] when the node has an identifier operand or an
    operand that is no literal; otherwise the node is skipped, and replaced
    when the evaluation is confident. *)
Definition transformConcatenated (e : expr) : attempt :=
  match e with
  | BinaryExpression operator l r =>
      if existsb isIdentifier [l; r] then Untouched
      else if isLiteral l && isLiteral r then
        match evaluate e with
        | Some val => Folded (valueToNode val)
        | None => Deopt
        end
      else Untouched
  | _ => Untouched
  end.

(** The first traversal, below an expression.  The [BinaryExpression]
    visitor runs on entering a node; when its literal branch ran it calls
    itself on the parent path if that is a [BinaryExpression]: the flag
    returned tells the parent so. *)
Fixpoint calcBinary_expr (e : expr) : expr * bool :=
  match e with
  | BinaryExpression operator l r =>
      match transformConcatenated e with
      | Folded e' => (e', true)
      | Deopt => (e, true)
      | Untouched =>
          let '(l', again_l) := calcBinary_expr l in
          let e1 := BinaryExpression operator l' r in
          match (if again_l then transformConcatenated e1 else Untouched) with
          | Folded e' => (e', true)
          | after_left =>
              let '(r', again_r) := calcBinary_expr r in
              let e2 := BinaryExpression operator l' r' in
              match (if again_r then transformConcatenated e2 else Untouched) with
              | Folded e' => (e', true)
              | Deopt => (e2, true)
              | Untouched =>
                  (e2, match after_left with Deopt => true | _ => false end)
              end
          end
      end
  | ArrayExpression elements =>
      (ArrayExpression (map (fun x => fst (calcBinary_expr x)) elements), false)
  | UnaryExpression operator argument =>
      (UnaryExpression operator (fst (calcBinary_expr argument)), false)
  | UpdateExpression operator prefix argument =>
      (UpdateExpression operator prefix (fst (calcBinary_expr argument)), false)
  | LogicalExpression operator l r =>
      (LogicalExpression operator (fst (calcBinary_expr l))
         (fst (calcBinary_expr r)), false)
  | AssignmentExpression operator l r =>
      (AssignmentExpression operator (fst (calcBinary_expr l))
         (fst (calcBinary_expr r)), false)
  | ConditionalExpression t c a =>
      (ConditionalExpression (fst (calcBinary_expr t)) (fst (calcBinary_expr c))
         (fst (calcBinary_expr a)), false)
  | MemberExpression object property computed =>
      (MemberExpression (fst (calcBinary_expr object))
         (fst (calcBinary_expr property)) computed, false)
  | CallExpression callee arguments =>
      (CallExpression (fst (calcBinary_expr callee))
         (map (fun x => fst (calcBinary_expr x)) arguments), false)
  | SequenceExpression expressions =>
      (SequenceExpression (map (fun x => fst (calcBinary_expr x)) expressions),
       false)
  | FunctionExpression id params body =>
      (FunctionExpression id params
         (fst (walk_body no_visitor (fun x => ret (fst (calcBinary_expr x))) body)),
       false)
  | _ => (e, false)
  end.

(** The second traversal: the [UnaryExpression] visitor. *)
Definition calcBinary_UnaryExpression (e : expr) : option expr :=
  match e with
  | UnaryExpression operator argument =>
      if String.eqb operator "!" then
        match argument with
        | UnaryExpression _ (ArrayExpression []) => Some (BooleanLiteral true)
        | UnaryExpression _ _ => None
        | ArrayExpression [] => Some (BooleanLiteral false)
        | NumericLiteral 0 => Some (BooleanLiteral true)
        | NumericLiteral 1 => Some (BooleanLiteral false)
        | _ => None
        end
      else None
  | _ => None
  end.

Definition calcBinary_unary_visitor : Visitor :=
  {| enter_expr := calcBinary_UnaryExpression;
     exit_expr := ret;
     enter_stmt := fun _ => None;
     exit_stmt := fun s => ret (Same s);
     exit_init := fun i => ret ([], i) |}.

(** [calcBinary()]: the first traversal, [this.reParse()], the second
    traversal on the tree read, [this.reParse()]. *)
Definition calcBinary (ast : list stmt) : option (list stmt) :=
  match
    reparse
      (fst (walk_body no_visitor (fun x => ret (fst (calcBinary_expr x))) ast))
  with
  | Some ast1 => reparse (fst (traverse calcBinary_unary_visitor ast1))
  | None => None
  end.

End CalcBinary.

(** ** [removeUnusedBlock] *)

Section RemoveUnusedBlock.

Variable evaluate : expr -> option value.
(** [scope.hasBinding(name)] and [scope.generateUid(name)] at the scope of
    the statement: Babel's scope analysis. *)
Variable hasBinding : string -> bool.
Variable generateUid : string -> string.

Definition blockScoped (kind : string) : bool :=
  String.eqb kind "let" || String.eqb kind "const".

Definition declared_name (d : declarator) : list string :=
  match d with
  | VariableDeclarator (Identifier n) _ => [n]
  | _ => []
  end.

(** [localScope.bindings] of a block: what its statements declare with
    [let], [const] or as a function ([var] belongs to the function). *)
Definition block_bindings (body : list stmt) : list string :=
  flat_map
    (fun s =>
       match s with
       | VariableDeclaration kind declarations =>
           if blockScoped kind then flat_map declared_name declarations else []
       | FunctionDeclaration id _ _ => [id]
       | _ => []
       end) body.

(** [localScope.bindings[name].identifier.name = newName]: the declaring
    identifier only; [ref.node.name] is not written to. *)
Definition rename_identifier (old newName : string) (body : list stmt)
  : list stmt :=
  map
    (fun s =>
       match s with
       | VariableDeclaration kind declarations =>
           if blockScoped kind then
             VariableDeclaration kind
               (map
                  (fun d =>
                     match d with
                     | VariableDeclarator (Identifier n) init =>
                         if String.eqb n old
                         then VariableDeclarator (Identifier newName) init
                         else d
                     | _ => d
                     end) declarations)
           else s
       | FunctionDeclaration id params b =>
           if String.eqb id old then FunctionDeclaration newName params b else s
       | _ => s
       end) body.

(** [rename(localScope)] for the scope of a block.  ([ref.scope.rename] is
    called with a name [generateUid] has just made: it has no binding, and
    the call does nothing.) *)
Definition rename (body : list stmt) : list stmt :=
  fold_left
    (fun b n => if hasBinding n then rename_identifier n (generateUid n) b else b)
    (block_bindings body) body.

(** [rename(path.get(key).scope); replace(path, node)] for a branch that is
    a statement: a block has a scope of its own and is replaced by its
    statements; another statement is taken to declare no name. *)
Definition replace (branch : stmt) : outcome :=
  match branch with
  | BlockStatement body => Splice (rename body)
  | _ => Same branch
  end.

Definition removeUnusedBlock_IfStatement (s : stmt) : outcome :=
  match s with
  | IfStatement test consequent alternate =>
      match evaluateTruthy evaluate test with
      | Some true => replace consequent
      | _ =>
          match alternate with
          | Some a => replace a
          | None => Splice []
          end
      end
  | _ => Same s
  end.

Definition removeUnusedBlock_ConditionalExpression (e : expr) : expr :=
  match e with
  | ConditionalExpression test consequent alternate =>
      match evaluateTruthy evaluate test with
      | Some true => consequent
      | _ => alternate
      end
  | _ => e
  end.

Definition removeUnusedBlock_visitor : Visitor :=
  {| enter_expr := fun _ => None;
     exit_expr := fun e => ret (removeUnusedBlock_ConditionalExpression e);
     enter_stmt := fun _ => None;
     exit_stmt := fun s => ret (removeUnusedBlock_IfStatement s);
     exit_init := fun i => ret ([], i) |}.

Definition removeUnusedBlock (ast : list stmt) : list stmt :=
  reParse (fst (traverse removeUnusedBlock_visitor ast)).

End RemoveUnusedBlock.

(** ** [controlFlowFlat] *)

(** The inner traversal of the function's block: the first
    [MemberExpression] (depth first, on entering) whose property is the
    string or identifier [split] and whose object is a string literal gives
    the order string; the nearest [VariableDeclarator] around it is removed
    and the traversal stops. *)
Inductive found : Type :=
| Missing
| Hit (shufferString : string) (declarator_pending : bool).

(** Go on with [k] while nothing is found; once found, the rest of the node
    stays as it is ([stop]). *)
Definition andThen {A B : Type} (m : A * found) (k : A -> B * found)
  (stop : A -> B) : B * found :=
  match m with
  | (a, Missing) => k a
  | (a, h) => (stop a, h)
  end.

(** Over a list, in order; the elements after the one that was found are
    kept as they are ([keep]). *)
Fixpoint findM {A B : Type} (f : A -> B * found) (keep : A -> B) (l : list A)
  : list B * found :=
  match l with
  | [] => ([], Missing)
  | x :: rest =>
      andThen (f x)
        (fun x' => let '(rest', h) := findM f keep rest in (x' :: rest', h))
        (fun x' => x' :: map keep rest)
  end.

Definition findO {A : Type} (f : A -> A * found) (o : option A)
  : option A * found :=
  match o with
  | Some x => let '(x', h) := f x in (Some x', h)
  | None => (None, Missing)
  end.

Definition split_MemberExpression (e : expr) : found :=
  match e with
  | MemberExpression (StringLiteral shufferString) (StringLiteral p) _
  | MemberExpression (StringLiteral shufferString) (Identifier p) _ =>
      if String.eqb p "split" then Hit shufferString true else Missing
  | _ => Missing
  end.

(** [VariableDeclarator.remove()] at the nearest declarator. *)
Fixpoint find_declarators (f : declarator -> declarator * found)
  (l : list declarator) : list declarator * found :=
  match l with
  | [] => ([], Missing)
  | d :: rest =>
      match f d with
      | (d', Missing) =>
          let '(rest', h) := find_declarators f rest in (d' :: rest', h)
      | (_, Hit s true) => (rest, Hit s false)
      | (d', h) => (d' :: rest, h)
      end
  end.

Section FindSplit.

Variable fe : expr -> expr * found.

Definition find_declarator (d : declarator) : declarator * found :=
  match d with
  | VariableDeclarator id init =>
      andThen (fe id)
        (fun id' => let '(i', h) := findO fe init in (VariableDeclarator id' i', h))
        (fun id' => VariableDeclarator id' init)
  end.

(** A declaration in the [init] of a [for] or the [left] of a [for-in]; one
    left without declarators is removed. *)
Definition find_init (i : forInit) : option forInit * found :=
  match i with
  | ForInitDeclaration kind declarations =>
      let '(ds, h) := find_declarators find_declarator declarations in
      (match ds, h with
       | [], Hit _ _ => None
       | _, _ => Some (ForInitDeclaration kind ds)
       end, h)
  | ForInitExpression e => let '(e', h) := fe e in (Some (ForInitExpression e'), h)
  end.

Fixpoint find_stmt (s : stmt) : outcome * found :=
  match s with
  | ExpressionStatement e =>
      let '(e', h) := fe e in (Same (ExpressionStatement e'), h)
  | BlockStatement body =>
      let '(os, h) := findM (fun x => let '(o, h) := find_stmt x in (in_list o, h)) (fun x => [x]) body in
      (Same (BlockStatement (concat os)), h)
  | ReturnStatement argument =>
      let '(a, h) := findO fe argument in (Same (ReturnStatement a), h)
  | ThrowStatement argument =>
      let '(a, h) := fe argument in (Same (ThrowStatement a), h)
  | IfStatement t c a =>
      andThen (fe t)
        (fun t' =>
           andThen (find_stmt c)
             (fun c' =>
                match a with
                | Some alt =>
                    let '(a', h) := find_stmt alt in
                    (Same (IfStatement t' (in_slot c') (in_alternate a')), h)
                | None => (Same (IfStatement t' (in_slot c') None), Missing)
                end)
             (fun c' => Same (IfStatement t' (in_slot c') a)))
        (fun t' => Same (IfStatement t' c a))
  | SwitchStatement d cases =>
      andThen (fe d)
        (fun d' =>
           let '(cs, h) :=
             findM
               (fun c =>
                  match c with
                  | SwitchCase t consequent =>
                      andThen (findO fe t)
                        (fun t' =>
                           let '(os, h) := findM (fun x => let '(o, h) := find_stmt x in (in_list o, h))
                               (fun x => [x]) consequent in
                           (SwitchCase t' (concat os), h))
                        (fun t' => SwitchCase t' consequent)
                  end) (fun c => c) cases in
           (Same (SwitchStatement d' cs), h))
        (fun d' => Same (SwitchStatement d' cases))
  | WhileStatement t body =>
      andThen (fe t)
        (fun t' =>
           let '(b, h) := find_stmt body in
           (Same (WhileStatement t' (in_slot b)), h))
        (fun t' => Same (WhileStatement t' body))
  | ForStatement init t u body =>
      andThen
        match init with
        | Some i => find_init i
        | None => (None, Missing)
        end
        (fun init' =>
           andThen (findO fe t)
             (fun t' =>
                andThen (findO fe u)
                  (fun u' =>
                     let '(b, h) := find_stmt body in
                     (Same (ForStatement init' t' u' (in_slot b)), h))
                  (fun u' => Same (ForStatement init' t' u' body)))
             (fun t' => Same (ForStatement init' t' u body)))
        (fun init' => Same (ForStatement init' t u body))
  | ForInStatement lhs rhs body =>
      andThen (find_init lhs)
        (fun l' =>
           andThen (fe rhs)
             (fun r' =>
                let '(b, h) := find_stmt body in
                (Same (ForInStatement (default lhs l') r' (in_slot b)), h))
             (fun r' => Same (ForInStatement (default lhs l') r' body)))
        (fun l' => Same (ForInStatement (default lhs l') rhs body))
  | VariableDeclaration kind declarations =>
      let '(ds, h) := find_declarators find_declarator declarations in
      (match ds, h with
       | [], Hit _ _ => Splice []
       | _, _ => Same (VariableDeclaration kind ds)
       end, h)
  | FunctionDeclaration id params body =>
      let '(os, h) := findM (fun x => let '(o, h) := find_stmt x in (in_list o, h)) (fun x => [x]) body in
      (Same (FunctionDeclaration id params (concat os)), h)
  | EmptyStatement | BreakStatement | ContinueStatement => (Same s, Missing)
  end.

End FindSplit.

Fixpoint find_expr (e : expr) : expr * found :=
  match split_MemberExpression e with
  | Hit s pending => (e, Hit s pending)
  | Missing =>
      match e with
      | ArrayExpression elements =>
          let '(l, h) := findM find_expr (fun x => x) elements in
          (ArrayExpression l, h)
      | UnaryExpression operator argument =>
          let '(a, h) := find_expr argument in (UnaryExpression operator a, h)
      | UpdateExpression operator prefix argument =>
          let '(a, h) := find_expr argument in
          (UpdateExpression operator prefix a, h)
      | BinaryExpression operator l r =>
          andThen (find_expr l)
            (fun l' =>
               let '(r', h) := find_expr r in (BinaryExpression operator l' r', h))
            (fun l' => BinaryExpression operator l' r)
      | LogicalExpression operator l r =>
          andThen (find_expr l)
            (fun l' =>
               let '(r', h) := find_expr r in (LogicalExpression operator l' r', h))
            (fun l' => LogicalExpression operator l' r)
      | AssignmentExpression operator l r =>
          andThen (find_expr l)
            (fun l' =>
               let '(r', h) := find_expr r in
               (AssignmentExpression operator l' r', h))
            (fun l' => AssignmentExpression operator l' r)
      | ConditionalExpression t c a =>
          andThen (find_expr t)
            (fun t' =>
               andThen (find_expr c)
                 (fun c' =>
                    let '(a', h) := find_expr a in
                    (ConditionalExpression t' c' a', h))
                 (fun c' => ConditionalExpression t' c' a))
            (fun t' => ConditionalExpression t' c a)
      | MemberExpression object property computed =>
          andThen (find_expr object)
            (fun o' =>
               let '(p', h) := find_expr property in
               (MemberExpression o' p' computed, h))
            (fun o' => MemberExpression o' property computed)
      | CallExpression callee arguments =>
          andThen (find_expr callee)
            (fun c' =>
               let '(l, h) := findM find_expr (fun x => x) arguments in
               (CallExpression c' l, h))
            (fun c' => CallExpression c' arguments)
      | SequenceExpression expressions =>
          let '(l, h) := findM find_expr (fun x => x) expressions in
          (SequenceExpression l, h)
      | FunctionExpression id params body =>
          let '(os, h) :=
            findM (fun x => let '(o, h) := find_stmt find_expr x in (in_list o, h))
              (fun x => [x]) body in
          (FunctionExpression id params (concat os), h)
      | _ => (e, Missing)
      end
  end.

Definition find_body (body : list stmt) : list stmt * found :=
  let '(os, h) :=
    findM (fun x => let '(o, h) := find_stmt find_expr x in (in_list o, h))
      (fun x => [x]) body in
  (concat os, h).

Definition find_case (c : switchCase) : switchCase * found :=
  match c with
  | SwitchCase t consequent =>
      andThen (findO find_expr t)
        (fun t' => let '(b, h) := find_body consequent in (SwitchCase t' b, h))
        (fun t' => SwitchCase t' consequent)
  end.

(** The loop around the switch. *)
Inductive loopHead : Type :=
| WhileHead (test : expr)
| ForHead (init : option forInit) (test update : option expr).

Definition find_head (l : loopHead) : loopHead * found :=
  match l with
  | WhileHead t => let '(t', h) := find_expr t in (WhileHead t', h)
  | ForHead init t u =>
      andThen
        match init with
        | Some i => find_init find_expr i
        | None => (None, Missing)
        end
        (fun init' =>
           andThen (findO find_expr t)
             (fun t' => let '(u', h) := findO find_expr u in (ForHead init' t' u', h))
             (fun t' => ForHead init' t' u))
        (fun init' => ForHead init' t u)
  end.

(** A [SwitchStatement] path as the visitor meets it in the idiom: the
    switch is a statement of the block that is the body of a loop, and the
    loop is a statement of a block (the function's), which
    [forOrWhileStatementPath.findParent(p => p.isBlockStatement())] finds. *)
Record SwitchSite : Type := {
  block_before : list stmt;
  loop : loopHead;
  body_before : list stmt;
  discriminant : expr;
  cases : list switchCase;
  body_after : list stmt;
  block_after : list stmt
}.

Definition loop_statement (l : loopHead) (body : stmt) : stmt :=
  match l with
  | WhileHead t => WhileStatement t body
  | ForHead init t u => ForStatement init t u body
  end.

(** The block the site stands for. *)
Definition site_block (site : SwitchSite) : list stmt :=
  block_before site
  ++ [loop_statement (loop site)
        (BlockStatement
           (body_before site
            ++ [SwitchStatement (discriminant site) (cases site)]
            ++ body_after site))]
  ++ block_after site.

Definition unless_found {A : Type} (f : A -> A * found) (x : A) (h : found)
  : A * found :=
  match h with
  | Missing => f x
  | _ => (x, h)
  end.

(** [fnBlockStatementPath.traverse({ MemberExpression ... })]: the block is
    walked in order. *)
Definition find_site (site : SwitchSite) : SwitchSite * found :=
  let '(bb, h1) := find_body (block_before site) in
  let '(hd, h2) := unless_found find_head (loop site) h1 in
  let '(lb, h3) := unless_found find_body (body_before site) h2 in
  let '(d, h4) := unless_found find_expr (discriminant site) h3 in
  let '(cs, h5) := unless_found (findM find_case (fun c => c)) (cases site) h4 in
  let '(la, h6) := unless_found find_body (body_after site) h5 in
  let '(ba, h7) := unless_found find_body (block_after site) h6 in
  ({| block_before := bb; loop := hd; body_before := lb; discriminant := d;
      cases := cs; body_after := la; block_after := ba |}, h7).

Definition isStringCase (c : switchCase) : bool :=
  match c with
  | SwitchCase (Some (StringLiteral _)) _ => true
  | _ => false
  end.

(** [p.consequent[0]] *)
Definition first_statement (c : switchCase) : option stmt :=
  match c with
  | SwitchCase _ consequent => head consequent
  end.

(** [s?.type !== 'ContinueStatement'] ([undefined] passes). *)
Definition notContinue (s : option stmt) : bool :=
  match s with
  | Some ContinueStatement => false
  | _ => true
  end.

(** [shufferArr.map(s => myArr[s]).filter(...)] *)
Definition sequences (shufferArr : list string) (myArr : list (option stmt))
  : list (option stmt) :=
  List.filter notContinue
    (map (fun s => match JS.array_get myArr s with Some x => x | None => None end)
       shufferArr).

Fixpoint all_defined {A : Type} (l : list (option A)) : option (list A) :=
  match l with
  | [] => Some []
  | Some x :: rest =>
      match all_defined rest with
      | Some r => Some (x :: r)
      | None => None
      end
  | None :: _ => None
  end.

(** What the visitor leaves of the block. *)
Inductive flattened : Type :=
(** no order string in the block: the visitor returns, nothing changed *)
| NoOrder
(** an entry of the order string is no index of a case: [undefined] is
    pushed into the block's body *)
| Undefined
(** the new body of the block; [outer_declarator]: the order string stood
    in no declarator of the block, and the nearest declarator around the
    block, if there is one, is removed *)
| Flattened (body : list stmt) (outer_declarator : bool).

(** The [SwitchStatement] visitor of [controlFlowFlat] (run on the tree
    [transformForLoop] leaves). *)
Definition controlFlowFlat_SwitchStatement (site : SwitchSite) : flattened :=
  let '(site', h) := find_site site in
  match h with
  | Missing => NoOrder
  | Hit shufferString pending =>
      let shufferArr := JS.split "|" shufferString in
      let myArr := map first_statement (List.filter isStringCase (cases site')) in
      match all_defined (sequences shufferArr myArr) with
      | Some statements =>
          (* body.push(...sequences); the loop is removed *)
          Flattened (block_before site' ++ block_after site' ++ statements) pending
      | None => Undefined
      end
  end.

(** ** Bindings (Babel's scope analysis)

    A path is named by a number.  [declaration]: the statement
    [binding.path.find(p => p.isFunctionDeclaration() ||
    p.isVariableDeclaration())] reaches, as its [start] offset together
    with the [start] offsets of the statement list it stands in
    ([parent.parentPath.scope.block.body]); [None] when there is no such
    statement or it stands in no list. *)

Definition Path : Type := nat.

Record Binding : Type := {
  constant : bool;
  constantViolations : list Path;
  referencePaths : list Path;
  declaration : option (nat * list nat)
}.

(** ** [findDecryptFnByCallCount] *)

(** A statement of the program body with its [start] offset. *)
Record Located : Type := {
  start : nat;
  statement : stmt
}.

Record DecryptFnState : Type := {
  decryptFnList : list string;
  index : nat
}.

Section FindDecryptFnByCallCount.

(** [path.scope.getBinding(fnName)] at the function that is declarator [j]
    of statement [i] of the program ([j = 0] for a function declaration). *)
Variable getBinding : nat -> nat -> string -> option Binding.
(** [generator(ast, { compact: true }).code] *)
Variable generator : list stmt -> string.

Variable count : nat.

(** [for (i ...) if (body[i].start === parent.node.start) index = i + 1] *)
Fixpoint index_loop (starts : list nat) (parentStart : nat) (i : nat)
  (index : nat) : nat :=
  match starts with
  | [] => index
  | s :: rest =>
      index_loop rest parentStart (S i)
        (if Nat.eqb s parentStart then i + 1 else index)
  end.

Definition processFunction (i j : nat) (fnName : option string)
  (st : DecryptFnState) : DecryptFnState :=
  match fnName with
  | None => st
  | Some n =>
      match getBinding i j n with
      | None => st
      | Some binding =>
          if Nat.leb count (length (referencePaths binding)) then
            let fns := decryptFnList st ++ [n] in
            match declaration binding with
            | Some (parentStart, starts) =>
                {| decryptFnList := fns;
                   index := index_loop starts parentStart 0 (index st) |}
            | None => {| decryptFnList := fns; index := index st |}
            end
          else st
      end
  end.

(** [path.node.id?.name || path.parentPath.node.id?.name] *)
Definition fnName_of (id : option string) (declared : expr) : option string :=
  match id with
  | Some n => Some n
  | None =>
      match declared with
      | Identifier n => Some n
      | _ => None
      end
  end.

(** The [FunctionExpression] visitor over the declarators of a program-level
    declaration, from declarator [j] on. *)
Fixpoint visit_declarators (i j : nat) (ds : list declarator)
  (st : DecryptFnState) : DecryptFnState :=
  match ds with
  | [] => st
  | VariableDeclarator declared (Some (FunctionExpression id _ _)) :: rest =>
      visit_declarators i (S j) rest
        (processFunction i j (fnName_of id declared) st)
  | _ :: rest => visit_declarators i (S j) rest st
  end.

(** The two visitors at statement [i] of the program body: a function
    declaration whose parent is the program, and the function expressions
    that initialise the declarators of a declaration whose parent is the
    program.  No other function of the tree passes the visitors' tests. *)
Definition visit_statement (i : nat) (s : stmt) (st : DecryptFnState)
  : DecryptFnState :=
  match s with
  | FunctionDeclaration id _ _ => processFunction i 0 (Some id) st
  | VariableDeclaration _ ds => visit_declarators i 0 ds st
  | _ => st
  end.

Fixpoint visit_program (i : nat) (body : list Located) (st : DecryptFnState)
  : DecryptFnState :=
  match body with
  | [] => st
  | s :: rest => visit_program (S i) rest (visit_statement i (statement s) st)
  end.

(** [findDecryptFnByCallCount(count = 100, isRemove = false)]; [None]: the
    list of decoders is not empty and the method returns at once. *)
Definition findDecryptFnByCallCount (isRemove : bool)
  (globalDecryptFnList : list string) (body : list Located)
  : option (string * DecryptFnState * list Located) :=
  match globalDecryptFnList with
  | _ :: _ => None
  | [] =>
      let st := visit_program 0 body {| decryptFnList := []; index := 0 |} in
      let decryptFnCode := generator (map statement (firstn (index st) body)) in
      Some (decryptFnCode, st, if isRemove then skipn (index st) body else body)
  end.

End FindDecryptFnByCallCount.

(** The default arguments. *)
Definition findDecryptFnByCallCount_default
  (getBinding : nat -> nat -> string -> option Binding)
  (generator : list stmt -> string) (count : option nat)
  (isRemove : option bool) :=
  findDecryptFnByCallCount getBinding generator (default 100 count)
    (default false isRemove).

(** ** [decryptReplace] *)

(** How [eval(code)] completes. *)
Inductive completion : Type :=
| Returns (v : value)
| Throws (message : string).

(** A [CallExpression] path: the node in the slot and the comments on it. *)
Record CallSite : Type := {
  node : expr;
  leadingComments : list string
}.

(** [typeof] as Babel's validator prints it. *)
Definition getType (v : value) : string :=
  match v with
  | VUndefined => "undefined"
  | VNull => "null"
  | VBoolean _ => "boolean"
  | VNumber _ => "number"
  | VString _ => "string"
  end.

(** [t.stringLiteral(value)]: the builder validates its field [value] with
    [assertValueType("string")] and throws a [TypeError] on a value that is
    no string; the right summand is the message of the error. *)
Definition stringLiteral (v : value) : expr + string :=
  match v with
  | VString s => inl (StringLiteral s)
  | _ =>
      inr ("Property value expected type of string but got " ++ getType v)%string
  end.

(** The text of the comment the [catch] adds. *)
Definition decrypt_failed (message : string) : string :=
  ("解密失败: " ++ message)%string.

Section DecryptReplace.

(** [globalState.decryptFnList] *)
Variable fnList : list string.
(** [eval] with the decoders' code loaded, and [path.toString()]. *)
Variable eval : string -> completion.
Variable toString : expr -> string.

Definition includes (l : list string) (x : string) : bool :=
  existsb (String.eqb x) l.

(** [path.addComment('leading', ..., true)]: Babel puts a new leading
    comment before the leading comments the node has. *)
Definition addComment (content : string) (site : CallSite) : CallSite :=
  {| node := node site; leadingComments := content :: leadingComments site |}.

(** [path.replaceWith(replacement)]: the replacement inherits the comments
    of the node it replaces. *)
Definition replaceWith_site (replacement : expr) (site : CallSite) : CallSite :=
  {| node := replacement; leadingComments := leadingComments site |}.

(** The [CallExpression] visitor; [results] is the [Map] of the call codes
    evaluated to their values.  ([this?.throwWithEval] is read off the
    traversal state, which is not given: the visitor never throws.) *)
Definition decryptReplace_CallExpression (site : CallSite)
  (results : gmap string value) : CallSite * gmap string value :=
  match node site with
  | CallExpression (Identifier callee) arguments =>
      if includes fnList callee then
        if existsb isIdentifier arguments then (site, results)
        else
          let callCode := toString (node site) in
          match eval callCode with
          | Returns decStr =>
              let results' := <[callCode := decStr]> results in
              match stringLiteral decStr with
              | inl literal => (replaceWith_site literal site, results')
              | inr message => (addComment (decrypt_failed message) site, results')
              end
          | Throws message => (addComment (decrypt_failed message) site, results)
          end
      else (site, results)
  | _ => (site, results)
  end.

(** The traversal over the call expressions it meets, in order. *)
Fixpoint decryptReplace_traverse (sites : list CallSite)
  (results : gmap string value) : list CallSite * gmap string value :=
  match sites with
  | [] => ([], results)
  | site :: rest =>
      let '(site', results') := decryptReplace_CallExpression site results in
      let '(rest', results'') := decryptReplace_traverse rest results' in
      (site' :: rest', results'')
  end.

(** [decryptReplace(decryptFnCode = null)]; [None]: the decoders' code does
    not evaluate and the method throws. *)
Definition decryptReplace (decryptFnCode : option string)
  (sites : list CallSite) : option (list CallSite * gmap string value) :=
  match fnList with
  | [] => Some (sites, ∅)
  | _ =>
      match decryptFnCode with
      | Some code =>
          match eval code with
          | Returns _ => Some (decryptReplace_traverse sites ∅)
          | Throws _ => None
          end
      | None => Some (decryptReplace_traverse sites ∅)
      end
  end.

End DecryptReplace.

(** ** [replaceConstant]

    The pass writes one node object into many slots, so the tree is kept as
    a store: [slots] gives the node object in the slot of each path of the
    tree ([container[key]]), [objects] the content of each node object.
    [next] is the allocator: the objects made so far are below it. *)

Definition Obj : Type := nat.

Inductive content : Type :=
(** an expression; the pass looks at identifiers and literals *)
| Expression (e : expr)
(** a [VariableDeclarator]: [id.name] ([None] when [id] is a pattern) and
    the path of its [init] *)
| Declarator (name : option string) (init : option Path)
(** an [AssignmentExpression]: [left.name] ([None] when [left] is no
    identifier) and the path of [right] *)
| Assignment (name : option string) (rhs : Path).

Record Ast : Type := {
  objects : gmap Obj content;
  slots : gmap Path Obj;
  next : Obj
}.

Definition node_at (ast : Ast) (p : Path) : option content :=
  match slots ast !! p with
  | Some o => objects ast !! o
  | None => None
  end.

(** [r.replaceWith(value)]: the slot of [r] holds the object [value] itself;
    [None]: the path was removed, and Babel throws. *)
Definition replaceWith (value : Obj) (ast : option Ast) (r : Path) : option Ast :=
  match ast with
  | Some a =>
      match slots a !! r with
      | Some _ =>
          Some {| objects := objects a; slots := <[r := value]> (slots a);
                  next := next a |}
      | None => None
      end
  | None => None
  end.

(** [path.remove()] on a declarator or an assignment: the path and the
    path [below] it that the store keeps leave the tree. *)
Definition remove (p below : Path) (ast : Ast) : Ast :=
  {| objects := objects ast;
     slots := delete below (delete p (slots ast));
     next := next ast |}.

#[global] Instance fresh_inj (n : nat) : Inj (=) (=) (Nat.add n).
Proof. intros x y H. lia. Qed.

Section ReplaceConstant.

(** [path.scope.getBinding(name)] *)
Variable getBinding : Path -> string -> option Binding.

(** [name] is [path.node.id ? path.node.id.name : path.node.left.name]. *)
Definition replaceConstantVariable (p : Path) (name : option string)
  (below : Path) (value : Obj) (ast : Ast) : option Ast :=
  match name with
  | Some n =>
      match getBinding p n with
      | Some binding =>
          if constant binding
             && Nat.eqb (length (constantViolations binding)) 0
          then
            match fold_left (replaceWith value) (referencePaths binding) (Some ast) with
            | Some ast' => Some (remove p below ast')
            | None => None
            end
          else Some ast
      | None => Some ast
      end
  | None => Some ast
  end.

(** [t.isStringLiteral(value) || t.isNumericLiteral(value)] for the node
    object in the slot of [p]. *)
Definition literal_object (ast : Ast) (p : Path) : option Obj :=
  match slots ast !! p with
  | Some o =>
      match objects ast !! o with
      | Some (Expression e) =>
          if isStringLiteral e || isNumericLiteral e then Some o else None
      | _ => None
      end
  | None => None
  end.

(** The [VariableDeclarator] and [AssignmentExpression] visitors at a path
    (a path that left the tree is not visited). *)
Definition replaceConstant_visit (ast : option Ast) (p : Path) : option Ast :=
  match ast with
  | Some a =>
      match node_at a p with
      | Some (Declarator name (Some init)) =>
          match literal_object a init with
          | Some value => replaceConstantVariable p name init value a
          | None => Some a
          end
      | Some (Assignment name rhs) =>
          match literal_object a rhs with
          | Some value => replaceConstantVariable p name rhs value a
          | None => Some a
          end
      | _ => Some a
      end
  | None => None
  end.

(** [this.reParse()] on the store: the text is parsed into new node
    objects, one for each path of the tree, with the content printed. *)
Definition reParse_store (ast : Ast) : Ast :=
  {| objects :=
       kmap (Nat.add (next ast)) (omap (fun o => objects ast !! o) (slots ast));
     slots := map_imap (fun p _ => Some (next ast + p)) (slots ast);
     next :=
       next ast + S (foldr Nat.max 0 (map fst (map_to_list (slots ast)))) |}.

(** [replaceConstant()]: the traversal meets the declarator and assignment
    paths in [order]; then the tree is parsed again. *)
Definition replaceConstant (order : list Path) (ast : Ast) : option Ast :=
  match fold_left replaceConstant_visit order (Some ast) with
  | Some ast' => Some (reParse_store ast')
  | None => None
  end.

End ReplaceConstant.

(** * Properties *)

(** ** The counting monad and the walk *)

Lemma bind_zero {A B : Type} (m : counted A) (k : A -> counted B) (b : B) :
  bind m k = (b, 0) -> exists a, m = (a, 0) /\ k a = (b, 0).
Proof.
  unfold bind. destruct m as [a n]. destruct (k a) as [b' n'] eqn:Hk.
  intros H. inversion H; subst. exists a.
  assert (n = 0) by lia. assert (n' = 0) by lia. subst. auto.
Qed.

Lemma bind_fst {A B : Type} (m : counted A) (k : A -> counted B) :
  fst (bind m k) = fst (k (fst m)).
Proof. unfold bind. destruct m as [a n]. simpl. destruct (k a). reflexivity. Qed.

Lemma mapM_fst {A B : Type} (f : A -> counted B) (l : list A) :
  fst (mapM f l) = map (fun x => fst (f x)) l.
Proof.
  induction l as [|x l IH]; simpl; [reflexivity|].
  rewrite bind_fst, bind_fst. simpl. rewrite IH. reflexivity.
Qed.

Lemma mapM_zero {A : Type} (f : A -> counted A) (l l' : list A) :
  Forall (fun x => forall y, f x = (y, 0) -> y = x) l ->
  mapM f l = (l', 0) -> l' = l.
Proof.
  intros HF. revert l'. induction HF as [|x l Hx HF IH]; simpl; intros l' H.
  - inversion H. reflexivity.
  - apply bind_zero in H as (x' & Hfx & H).
    apply bind_zero in H as (r' & Hr & H).
    inversion H; subst. rewrite (Hx _ Hfx), (IH _ Hr). reflexivity.
Qed.

Lemma optM_zero {A : Type} (f : A -> counted A) (o o' : option A) :
  (forall x, o = Some x -> forall y, f x = (y, 0) -> y = x) ->
  optM f o = (o', 0) -> o' = o.
Proof.
  destruct o as [x|]; simpl; intros Hx H.
  - apply bind_zero in H as (x' & Hfx & H). inversion H; subst.
    rewrite (Hx x eq_refl _ Hfx). reflexivity.
  - inversion H. reflexivity.
Qed.

Lemma list_all_Forall {A : Type} (P : A -> Prop) (l : list A) :
  list_all A P l -> Forall P l.
Proof. induction 1; constructor; assumption. Qed.

Lemma concat_in_list_Same (l : list stmt) :
  concat (map in_list (map Same l)) = l.
Proof. induction l as [|x l IH]; simpl; [|rewrite IH]; reflexivity. Qed.

(** Statement lists: when every statement is left in its slot, the list is
    the same. *)
Lemma mapM_stmt_zero (f : stmt -> counted outcome) (l : list stmt)
  (os : list outcome) :
  Forall (fun x => forall o, f x = (o, 0) -> o = Same x) l ->
  mapM f l = (os, 0) -> concat (map in_list os) = l.
Proof.
  intros HF. revert os. induction HF as [|x l Hx HF IH]; simpl; intros os H.
  - inversion H. reflexivity.
  - apply bind_zero in H as (x' & Hfx & H).
    apply bind_zero in H as (r' & Hr & H).
    inversion H; subst. rewrite (Hx _ Hfx). simpl.
    rewrite (IH _ Hr). reflexivity.
Qed.

(** A visitor that has only [exit] handlers, each of which reports a change
    whenever it touches its node, leaves a tree alone when the pass counts
    no change. *)
Section Honest.

Variable v : Visitor.
Hypothesis enter_expr_none : forall e, enter_expr v e = None.
Hypothesis enter_stmt_none : forall s, enter_stmt v s = None.
Hypothesis exit_expr_zero : forall e e', exit_expr v e = (e', 0) -> e' = e.
Hypothesis exit_stmt_zero : forall s o, exit_stmt v s = (o, 0) -> o = Same s.
Hypothesis exit_init_zero :
  forall i h i', exit_init v i = ((h, i'), 0) -> h = [] /\ i' = i.

Definition walk_case (c : switchCase) : counted switchCase :=
  match c with
  | SwitchCase t consequent =>
      bind (optM (traverse_expr v) t) (fun t' =>
      bind (mapM (traverse_stmt v) consequent) (fun os =>
      ret (SwitchCase t' (concat (map in_list os)))))
  end.

Lemma option_all_Some {A : Type} (P : A -> Prop) (o : option A) :
  option_all A P o -> forall x, o = Some x -> P x.
Proof. destruct 1; intros x Hx; inversion Hx; subst; assumption. Qed.

Lemma optM_zero_map {A B : Type} (f : A -> counted B) (g : A -> B)
  (o : option A) (o' : option B) :
  (forall x, o = Some x -> forall y, f x = (y, 0) -> y = g x) ->
  optM f o = (o', 0) -> o' = option_map g o.
Proof.
  destruct o as [x|]; simpl; intros Hx H.
  - apply bind_zero in H as (x' & Hfx & H). inversion H; subst.
    rewrite (Hx x eq_refl _ Hfx). reflexivity.
  - inversion H. reflexivity.
Qed.

Ltac zero :=
  repeat match goal with
  | H : bind _ _ = (_, 0) |- _ => apply bind_zero in H as (? & ? & H)
  | H : ret _ = (_, 0) |- _ => unfold ret in H; inversion H; clear H; subst
  | H : (_, _) = (_, 0) |- _ => inversion H; clear H; subst
  | IH : forall e', traverse_expr ?v ?e = (e', 0) -> e' = ?e,
    H : traverse_expr ?v ?e = (_, 0) |- _ => apply IH in H; subst
  | IH : forall o, traverse_stmt ?v ?e = (o, 0) -> o = Same ?e,
    H : walk_stmt ?v _ ?e = (_, 0) |- _ => apply IH in H; subst
  | IH : list_all expr _ ?l, H : mapM _ ?l = (_, 0) |- _ =>
      apply mapM_zero in H; [subst | exact (list_all_Forall _ _ IH)]
  | IH : list_all stmt _ ?l, H : mapM _ ?l = (_, 0) |- _ =>
      apply mapM_stmt_zero in H;
      [try rewrite H in * | exact (list_all_Forall _ _ IH)]
  | IH : list_all switchCase _ ?l, H : mapM _ ?l = (_, 0) |- _ =>
      apply mapM_zero in H; [subst | exact (list_all_Forall _ _ IH)]
  | IH : list_all declarator _ ?l, H : mapM _ ?l = (_, 0) |- _ =>
      apply mapM_zero in H; [subst | exact (list_all_Forall _ _ IH)]
  | IH : option_all expr _ ?o, H : optM _ ?o = (_, 0) |- _ =>
      apply optM_zero in H; [subst | exact (option_all_Some _ _ IH)]
  | IH : option_all stmt _ ?o, H : optM _ ?o = (_, 0) |- _ =>
      apply (optM_zero_map _ Same) in H;
      [subst | exact (option_all_Some _ _ IH)]
  | Hv : forall e e', exit_expr ?v e = (e', 0) -> e' = e,
    H : exit_expr ?v _ = (_, 0) |- _ => apply Hv in H; subst
  | Hv : forall s o, exit_stmt ?v s = (o, 0) -> o = Same s,
    H : exit_stmt ?v _ = (_, 0) |- _ => apply Hv in H; subst
  end.

Lemma traverse_zero_all :
  (forall e e', traverse_expr v e = (e', 0) -> e' = e) /\
  (forall s o, traverse_stmt v s = (o, 0) -> o = Same s) /\
  (forall c c', walk_case c = (c', 0) -> c' = c) /\
  (forall d d', walk_declarator (traverse_expr v) d = (d', 0) -> d' = d) /\
  (forall i,
      (forall h i', walk_init v (traverse_expr v) i = ((h, i'), 0) ->
                    h = [] /\ i' = i) /\
      (forall i', walk_left (traverse_expr v) i = (i', 0) -> i' = i)).
Proof using All.
  apply ast_mutind.
  1-17: intros; match goal with H : traverse_expr _ _ = _ |- _ =>
      cbn [traverse_expr] in H; rewrite enter_expr_none in H end;
      try (unfold walk_body in * ); zero; try reflexivity.
  1-14: intros; match goal with H : traverse_stmt _ _ = _ |- _ =>
      unfold traverse_stmt in H;
      cbn [walk_stmt] in H; rewrite enter_stmt_none in H end;
      zero; try reflexivity.
  - destruct alternate; reflexivity.
  - assert (x = ([], init)) as ->.
    { destruct H as [i [Hi _]|].
      - apply bind_zero in H4 as ([h i'] & Hw & H4).
        apply Hi in Hw as [-> ->]. inversion H4. reflexivity.
      - inversion H4. reflexivity. }
    zero. reflexivity.
  - apply (proj2 H) in H3. subst. reflexivity.
  - intros. unfold walk_case in *. fold (traverse_stmt v) in *. zero.
    reflexivity.
  - intros. unfold walk_declarator in *. zero. reflexivity.
  - intros. split; intros; cbn [walk_init walk_left] in *; zero.
    + apply exit_init_zero in H0. exact H0.
    + reflexivity.
  - intros. split; intros; cbn [walk_init walk_left] in *; zero; auto.
Qed.

(** A pass that counts no change returns the tree it was given. *)
Lemma traverse_zero (ast ast' : list stmt) :
  traverse v ast = (ast', 0) -> ast' = ast.
Proof using All.
  unfold traverse, walk_body. intros H.
  apply bind_zero in H as (os & Hos & H). inversion H; subst.
  apply (mapM_stmt_zero (traverse_stmt v) ast os); [|exact Hos].
  apply Forall_forall. intros s _ o Ho.
  exact (proj1 (proj2 traverse_zero_all) s o Ho).
Qed.

End Honest.

(** ** The [sequence] transform *)

Lemma sequence_ForStatement_zero init test update body o :
  sequence_ForStatement init test update body = (o, 0) ->
  o = Same (ForStatement init test update body).
Proof.
  unfold sequence_ForStatement.
  destruct (match init with
            | Some (ForInitExpression (SequenceExpression expressions)) =>
                (Some (expressionStatements expressions), None, 1)
            | _ => (None, init, 0)
            end) as [[before init1] n1] eqn:H1.
  destruct (match update, body with
            | Some (SequenceExpression expressions), EmptyStatement =>
                let '(u, leading) := pop expressions in
                (Some (defined u), BlockStatement (expressionStatements leading), 1)
            | _, _ => (update, body, 0)
            end) as [[update1 body1] n2] eqn:H2.
  intros H. inversion H; subst. assert (n1 = 0) by lia. assert (n2 = 0) by lia.
  subst.
  assert (before = None /\ init1 = init) as [-> ->].
  { destruct init as [[k ds|[]]|]; inversion H1; auto. }
  assert (update1 = update /\ body1 = body) as [-> ->].
  { destruct update as [[]|]; try (inversion H2; auto; fail).
    destruct body; inversion H2; auto. }
  reflexivity.
Qed.

Lemma sequence_exit_stmt_zero (s : stmt) (o : outcome) :
  sequence_exit_stmt s = (o, 0) -> o = Same s.
Proof.
  destruct s as [e|b| |[a|]|a| | |t c a|d cs|t b|i t u b|l r b|k ds|i p b];
  cbn; intros H;
  try (inversion H; reflexivity).
  all: try (destruct e; inversion H; reflexivity).
  all: try (destruct a; try (inversion H; reflexivity)).
  all: try (destruct t; inversion H; reflexivity).
  all: try (destruct d; inversion H; reflexivity).
  all: try (destruct r; inversion H; reflexivity).
  - destruct a; try (inversion H; reflexivity).
    destruct (operator =? "void"); inversion H; reflexivity.
  - apply sequence_ForStatement_zero. exact H.
  - repeat case_match; simplify_eq; reflexivity.
Qed.

Lemma sequence_exit_init_zero (i : forInit) (h : list stmt) (i' : forInit) :
  sequence_exit_init i = ((h, i'), 0) -> h = [] /\ i' = i.
Proof.
  unfold sequence_exit_init, pop.
  intros H. repeat case_match; simplify_eq; auto.
Qed.

(** A pass of [sequence] that reports no change leaves the tree as it was. *)
Lemma sequence_zero (ast ast' : list stmt) :
  applyTransform ast sequence = (ast', 0) -> ast' = ast.
Proof.
  apply traverse_zero; simpl; auto.
  - intros e e' H. inversion H. reflexivity.
  - exact sequence_exit_stmt_zero.
  - exact sequence_exit_init_zero.
Qed.

Lemma pop_snoc {A : Type} (l : list A) (x : A) : pop (l ++ [x]) = (Some x, l).
Proof.
  unfold pop. rewrite map_app. simpl.
  rewrite List.last_last, List.removelast_last. reflexivity.
Qed.

Lemma optM_fst {A B : Type} (f : A -> counted B) (o : option A) :
  fst (optM f o) = option_map (fun x => fst (f x)) o.
Proof. destruct o; simpl; [rewrite bind_fst|]; reflexivity. Qed.

(** What the pass makes of an expression, of a statement, of the cases of a
    switch and of the [left] of a [for-in]. *)
Definition sequence_expr (e : expr) : expr :=
  fst (traverse_expr sequence_visitor e).

Definition sequence_stmt (s : stmt) : outcome :=
  fst (traverse_stmt sequence_visitor s).

Definition sequence_cases (cs : list switchCase) : list switchCase :=
  fst (mapM (walk_case sequence_visitor) cs).

Definition sequence_left (i : forInit) : forInit :=
  fst (walk_left (traverse_expr sequence_visitor) i).

Lemma sequence_expr_SequenceExpression (es : list expr) :
  sequence_expr (SequenceExpression es)
  = SequenceExpression (map sequence_expr es).
Proof.
  unfold sequence_expr. cbn [traverse_expr]. simpl enter_expr. cbv iota.
  rewrite !bind_fst. simpl. rewrite mapM_fst. reflexivity.
Qed.

Ltac seq_open :=
  unfold sequence_stmt, traverse_stmt;
  cbn [walk_stmt walk_init walk_declarator mapM];
  change (enter_stmt sequence_visitor) with (fun _ : stmt => @None stmt);
  cbv beta iota;
  repeat
    (rewrite ?bind_fst, ?optM_fst; cbn [option_map fst ret];
     repeat change (fst (traverse_expr sequence_visitor ?x))
       with (sequence_expr x);
     repeat change
       (fst (walk_stmt sequence_visitor (traverse_expr sequence_visitor) ?x))
       with (sequence_stmt x));
  rewrite ?sequence_expr_SequenceExpression, ?map_app;
  cbn [map exit_stmt sequence_visitor sequence_exit_stmt sequence_ForStatement];
  rewrite ?pop_snoc.

Ltac for_parts :=
  match goal with
  | |- context [match ?X with (_, _) => _ end] =>
      destruct X as [[? ?] ?] eqn:?
  end.

Lemma in_list_insertBefore (hoisted : list stmt) (o : outcome) :
  in_list (insertBefore hoisted o) = hoisted ++ in_list o.
Proof. destruct hoisted; reflexivity. Qed.

(** C5, as amended.  A comma expression [e1, ..., en] used as a statement
    becomes the [n] statements [e1; ...; en;].  In the argument of a
    [return] or a [throw], the test of an [if], the discriminant of a
    [switch], the right of a [for-in] and the initializer of a lone
    declarator, the leading expressions become statements before the node
    and the last one stays in the role.  In the [init] of a [for], all the
    expressions, the last one too, become statements before the [for], and
    the [init] is left empty, whatever the [test], the [update] and the body
    are: what follows the statements is what the pass makes of the [for]
    without its [init].  In the [update] of a [for] with an empty body, the
    leading expressions become the statements of a new block body of the
    [for] and the last one stays as the [update], whatever the [init] and
    the [test] are: the statements before the [for] and its [init] are those
    of the [for] without its [update]. *)
Theorem sequence_splits :
  (forall es,
      sequence_stmt (ExpressionStatement (SequenceExpression es))
      = Splice (expressionStatements (map sequence_expr es))) /\
  (forall leading final,
      sequence_stmt
        (ReturnStatement (Some (SequenceExpression (leading ++ [final]))))
      = Splice (expressionStatements (map sequence_expr leading)
                ++ [ReturnStatement (Some (sequence_expr final))])) /\
  (forall leading final,
      sequence_stmt (ThrowStatement (SequenceExpression (leading ++ [final])))
      = Splice (expressionStatements (map sequence_expr leading)
                ++ [ThrowStatement (sequence_expr final)])) /\
  (forall leading final consequent alternate,
      sequence_stmt
        (IfStatement (SequenceExpression (leading ++ [final]))
           consequent alternate)
      = Splice (expressionStatements (map sequence_expr leading)
                ++ [IfStatement (sequence_expr final)
                      (in_slot (sequence_stmt consequent))
                      (match alternate with
                       | Some s => in_alternate (sequence_stmt s)
                       | None => None
                       end)])) /\
  (forall leading final cases,
      sequence_stmt
        (SwitchStatement (SequenceExpression (leading ++ [final])) cases)
      = Splice (expressionStatements (map sequence_expr leading)
                ++ [SwitchStatement (sequence_expr final)
                      (sequence_cases cases)])) /\
  (forall leading final lhs body,
      sequence_stmt
        (ForInStatement lhs (SequenceExpression (leading ++ [final])) body)
      = Splice (expressionStatements (map sequence_expr leading)
                ++ [ForInStatement (sequence_left lhs) (sequence_expr final)
                      (in_slot (sequence_stmt body))])) /\
  (forall kind id leading final,
      sequence_stmt
        (VariableDeclaration kind
           [VariableDeclarator id
              (Some (SequenceExpression (leading ++ [final])))])
      = Splice (expressionStatements (map sequence_expr leading)
                ++ [VariableDeclaration kind
                      [VariableDeclarator (sequence_expr id)
                         (Some (sequence_expr final))]])) /\
  (forall es test update body,
      sequence_stmt
        (ForStatement (Some (ForInitExpression (SequenceExpression es)))
           test update body)
      = Splice (expressionStatements (map sequence_expr es)
                ++ in_list
                     (sequence_stmt (ForStatement None test update body)))) /\
  (forall es test body,
      sequence_stmt
        (ForStatement (Some (ForInitExpression (SequenceExpression es)))
           test None body)
      = Splice (expressionStatements (map sequence_expr es)
                ++ [ForStatement None (option_map sequence_expr test) None
                      (in_slot (sequence_stmt body))])) /\
  (forall init test leading final,
      exists before init',
        in_list
          (sequence_stmt
             (ForStatement init test
                (Some (SequenceExpression (leading ++ [final])))
                EmptyStatement))
        = before
          ++ [ForStatement init' (option_map sequence_expr test)
                (Some (sequence_expr final))
                (BlockStatement
                   (expressionStatements (map sequence_expr leading)))]
        /\ in_list
             (sequence_stmt (ForStatement init test None EmptyStatement))
           = before
             ++ [ForStatement init' (option_map sequence_expr test) None
                   EmptyStatement]) /\
  (forall leading final test,
      sequence_stmt
        (ForStatement None test
           (Some (SequenceExpression (leading ++ [final]))) EmptyStatement)
      = Same (ForStatement None (option_map sequence_expr test)
                (Some (sequence_expr final))
                (BlockStatement
                   (expressionStatements (map sequence_expr leading))))).
Proof.
  repeat match goal with |- _ /\ _ => split end; intros.
  1-7, 9, 11: seq_open; try reflexivity.
  - destruct alternate; reflexivity.
  - seq_open. cbn [insertBefore]. for_parts. reflexivity.
  - seq_open.
    match goal with
    | |- context [fst ?W] =>
        match W with
        | match init with _ => _ end => destruct W as [[hoisted init0] n]
        end
    end.
    cbn [fst].
    exists (hoisted
            ++ match init0 with
               | Some (ForInitExpression (SequenceExpression es)) =>
                   expressionStatements es
               | _ => []
               end),
      (match init0 with
       | Some (ForInitExpression (SequenceExpression es)) => None
       | _ => init0
       end).
    repeat (rewrite ?bind_fst, ?optM_fst; cbn [option_map fst ret optM bind]).
    rewrite !in_list_insertBefore.
    change (fst (traverse_expr sequence_visitor
                   (SequenceExpression (leading ++ [final]))))
      with (sequence_expr (SequenceExpression (leading ++ [final]))).
    rewrite sequence_expr_SequenceExpression, map_app. cbn [map in_slot].
    unfold sequence_ForStatement. rewrite pop_snoc. cbn [defined].
    destruct init0 as [[kind ds|[]]|]; cbn [fst in_list];
      rewrite <- ?app_assoc; split; reflexivity.
Qed.

Definition assign (x : string) (n : Z) : expr :=
  AssignmentExpression "=" (Identifier x) (NumericLiteral n).

Definition console_log (e : expr) : stmt :=
  ExpressionStatement
    (CallExpression
       (MemberExpression (Identifier "console") (Identifier "log") false) [e]).

(** [a = 1, b = 2; console.log(a);] *)
Example sequence_scenario :
  applyTransform
    [ExpressionStatement (SequenceExpression [assign "a" 1; assign "b" 2]);
     console_log (Identifier "a")] sequence
  = ([ExpressionStatement (assign "a" 1); ExpressionStatement (assign "b" 2);
      console_log (Identifier "a")], 1).
Proof. reflexivity. Qed.

(** C5, counterexample.  [for (a, b;;) {}] becomes [a; b; for (;;) {}]: the
    last expression does not stay in the [init].  [for (;; a, b);] becomes
    [for (;; b) { a; }]: the leading expression is not put before the
    [for]. *)
Lemma sequence_for_counterexample :
  fst (applyTransform
         [ForStatement
            (Some (ForInitExpression
                     (SequenceExpression [Identifier "a"; Identifier "b"])))
            None None (BlockStatement [])] sequence)
  <> [ExpressionStatement (Identifier "a");
      ForStatement (Some (ForInitExpression (Identifier "b"))) None None
        (BlockStatement [])]
  /\
  fst (applyTransform
         [ForStatement None None
            (Some (SequenceExpression [Identifier "a"; Identifier "b"]))
            EmptyStatement] sequence)
  <> [ExpressionStatement (Identifier "a");
      ForStatement None None (Some (Identifier "b")) EmptyStatement].
Proof. split; vm_compute; discriminate. Qed.

Example sequence_for_outputs :
  fst (applyTransform
         [ForStatement
            (Some (ForInitExpression
                     (SequenceExpression [Identifier "a"; Identifier "b"])))
            None None (BlockStatement [])] sequence)
  = [ExpressionStatement (Identifier "a"); ExpressionStatement (Identifier "b");
     ForStatement None None None (BlockStatement [])]
  /\
  fst (applyTransform
         [ForStatement None None
            (Some (SequenceExpression [Identifier "a"; Identifier "b"]))
            EmptyStatement] sequence)
  = [ForStatement None None (Some (Identifier "b"))
       (BlockStatement [ExpressionStatement (Identifier "a")])].
Proof. split; reflexivity. Qed.

(** ** The fixed point of the runner *)

(** A transform that reports a change whenever it edits the tree. *)
Definition honest (t : Transform) : Prop :=
  forall ast ast', run t ast = (ast', 0) -> ast' = ast.

Lemma applyPass_zero (ts : list Transform) (ast ast' : list stmt) :
  Forall honest ts ->
  applyPass ast ts = (ast', 0) ->
  ast' = ast /\ Forall (fun t => applyTransform ast t = (ast, 0)) ts.
Proof.
  intros Hts. revert ast. induction Hts as [|t ts Ht Hts IH]; simpl; intros ast H.
  - inversion H. auto.
  - apply bind_zero in H as (mid & Hrun & H).
    pose proof (Ht _ _ Hrun) as ->.
    apply IH in H as [-> HF]. split; [reflexivity|].
    constructor; assumption.
Qed.

Lemma applyTransforms_fixed (ts : list Transform) (cap : nat)
  (x y : list stmt) (c : nat) :
  Forall honest ts ->
  applyTransforms cap x ts = Some (y, c) ->
  applyPass y ts = (y, 0).
Proof.
  intros Hts. revert x c. induction cap as [|cap IH]; simpl; intros x c H.
  - discriminate.
  - destruct (applyPass x ts) as [x' changes] eqn:Hp.
    destruct (Nat.eqb changes 0) eqn:Hc.
    + apply Nat.eqb_eq in Hc. subst. inversion H; subst.
      destruct (applyPass_zero ts x y Hts Hp) as [-> _]. exact Hp.
    + destruct (applyTransforms cap x' ts) as [[y' more]|] eqn:Hrec;
        [|discriminate].
      inversion H; subst. eapply IH. exact Hrec.
Qed.

(** The [for (;; (a, b), c);] of the counterexample. *)
Definition nested_update : list stmt :=
  [ForStatement None None
     (Some (SequenceExpression
              [SequenceExpression [Identifier "a"; Identifier "b"];
               Identifier "c"]))
     EmptyStatement].

(** C9, counterexample.  One pass of [sequence] over [for (;; (a, b), c);]
    gives [for (;; c) { (a, b); }]; a second pass over that output changes
    it again, to [for (;; c) { a; b; }], and reports a change. *)
Lemma sequence_pass_not_idempotent :
  let once := fst (applyTransform nested_update sequence) in
  applyTransform once sequence <> (once, 0)
  /\ fst (applyTransform once sequence) <> once.
Proof. split; vm_compute; discriminate. Qed.

(** C9, as amended.  A pass of [sequence] that reports no change has left
    the tree as it was; and for transforms of which that is true, the
    pipeline run to its fixed point is idempotent: when it converges on [x]
    to [y], then on [y] it returns [y] and reports no change, and so does
    every transform of the list on its own. *)
Theorem fixpoint_idempotent :
  honest sequence /\
  forall (transforms : list Transform) (iterationCap : nat)
         (x y : list stmt) (changes : nat),
    Forall honest transforms ->
    unminify transforms iterationCap x = Some (y, changes) ->
    unminify transforms iterationCap y = Some (y, 0)
    /\ Forall (fun t => applyTransform y t = (y, 0)) transforms.
Proof.
  split.
  - exact sequence_zero.
  - unfold unminify. intros ts cap x y c Hts H.
    pose proof (applyTransforms_fixed ts cap x y c Hts H) as Hfix.
    split.
    + destruct cap as [|cap]; [discriminate|]. simpl. rewrite Hfix. reflexivity.
    + exact (proj2 (applyPass_zero ts y y Hts Hfix)).
Qed.

Lemma fixpoint_idempotent_witness :
  let y :=
    [ForStatement None None (Some (Identifier "c"))
       (BlockStatement
          [ExpressionStatement (Identifier "a");
           ExpressionStatement (Identifier "b")])] in
  unminify [sequence] 3 nested_update = Some (y, 2)
  /\ unminify [sequence] 3 y = Some (y, 0)
  /\ Forall (fun t => applyTransform y t = (y, 0)) [sequence].
Proof.
  intros y. split; [reflexivity|].
  apply (proj2 fixpoint_idempotent [sequence] 3 nested_update y 2).
  - constructor; [exact (proj1 fixpoint_idempotent)|constructor].
  - reflexivity.
Defined.

(** ** [getPropName] and the decimal rendering *)

Lemma to_int_proper (n : Z) :
  Z.to_int n <> Decimal.Pos Decimal.Nil /\ Z.to_int n <> Decimal.Neg Decimal.Nil.
Proof.
  destruct n as [|p|p]; simpl; split; try discriminate;
    intros H; inversion H as [Hp];
    exact (DecimalPos.Unsigned.to_uint_nonnil p Hp).
Qed.

(** [Number_toString] writes the decimal numeral of the number. *)
Lemma Number_toString_decimal (n : Z) :
  JS.parse_decimal (JS.Number_toString n) = Some n.
Proof.
  unfold JS.parse_decimal, JS.Number_toString.
  destruct (to_int_proper n) as [H1 H2].
  rewrite (NilZero.isi _ H1 H2). simpl. rewrite DecimalZ.of_to. reflexivity.
Qed.

Lemma array_index_toString (i : nat) :
  JS.array_index (JS.Number_toString (Z.of_nat i)) = Some i.
Proof.
  unfold JS.array_index. rewrite Number_toString_decimal.
  rewrite String.eqb_refl.
  destruct (0 <=? Z.of_nat i)%Z eqn:H; [|apply Z.leb_gt in H; lia].
  simpl. rewrite Nat2Z.id. reflexivity.
Qed.

Example array_index_examples :
  JS.array_index "3" = Some 3 /\ JS.array_index "03" = None /\
  JS.array_index "x" = None /\ JS.array_index "" = None /\
  JS.array_index "-0" = None.
Proof. repeat split; reflexivity. Qed.

Example split_examples :
  JS.split "|" "1|3|2|0" = ["1"; "3"; "2"; "0"] /\ JS.split "|" "" = [""].
Proof. split; reflexivity. Qed.

(** C10.  [getPropName] is a total function that does not throw, whatever
    the node and whatever the number in a numeric literal: on an
    [Identifier] it gives the [name], on a [StringLiteral] the [value], on
    a [NumericLiteral] what [Number.prototype.toString] makes of the
    [value], its rendering in base ten, and on every other node the empty
    string.  On the integer literals of the tree that a double holds
    exactly, the rendering is the decimal numeral of the value. *)
Theorem getPropName_total (number : Type) (toString : number -> string)
  (node : Node number) :
  (exists s, getPropName toString node = s)
  /\ match node with
     | IdentifierNode name => getPropName toString node = name
     | StringLiteralNode value => getPropName toString node = value
     | NumericLiteralNode value => getPropName toString node = toString value
     | OtherNode => getPropName toString node = ""
     end
  /\ (forall e : expr,
         match e with
         | Identifier name =>
             getPropName JS.Number_toString (node_of e) = name
         | StringLiteral value =>
             getPropName JS.Number_toString (node_of e) = value
         | NumericLiteral value =>
             (Z.abs value < 2 ^ 53)%Z ->
             JS.parse_decimal (getPropName JS.Number_toString (node_of e))
             = Some value
         | _ => getPropName JS.Number_toString (node_of e) = ""
         end).
Proof.
  split; [eexists; reflexivity|]. split.
  - destruct node; reflexivity.
  - intros e. destruct e; try reflexivity.
    intros _. apply Number_toString_decimal.
Qed.

Lemma getPropName_total_witness :
  (Z.abs 16 < 2 ^ 53)%Z
  /\ JS.parse_decimal
       (getPropName JS.Number_toString (node_of (NumericLiteral 16)))
     = Some 16%Z.
Proof.
  split; [reflexivity|].
  exact (proj2 (proj2 (getPropName_total Z JS.Number_toString OtherNode))
           (NumericLiteral 16) eq_refl).
Defined.

Example getPropName_examples :
  getPropName JS.Number_toString (node_of (Identifier "split")) = "split"
  /\ getPropName JS.Number_toString (node_of (StringLiteral "PzXHf")) = "PzXHf"
  /\ getPropName JS.Number_toString (node_of (NumericLiteral 16)) = "16"
  /\ getPropName JS.Number_toString
       (node_of (CallExpression (Identifier "f") [])) = "".
Proof. repeat split; reflexivity. Qed.

(** ** Helpers for the examples and the folding *)

Definition call (f : string) : expr := CallExpression (Identifier f) [].

Lemma literal_not_identifier (e : expr) :
  isLiteral e = true -> isIdentifier e = false.
Proof. destruct e; try discriminate; reflexivity. Qed.

(** A chain of concatenations of string literals, and the string it
    denotes. *)
Inductive string_sum : expr -> string -> Prop :=
| sum_literal s : string_sum (StringLiteral s) s
| sum_plus l r sl sr :
    string_sum l sl -> string_sum r sr ->
    string_sum (BinaryExpression "+" l r) (sl ++ sr).

Definition isBinaryExpression (e : expr) : bool :=
  match e with BinaryExpression _ _ _ => true | _ => false end.

Lemma string_sum_shape e s :
  string_sum e s ->
  isIdentifier e = false /\ isLiteral e = negb (isBinaryExpression e).
Proof. destruct 1; split; reflexivity. Qed.

(** ** Rewriting everywhere in a tree *)

(** What the specification means by a rewriting of every statement or
    expression of a program: the tree is rebuilt node by node.  A statement
    that [replaced] answers is put in place as a whole and not looked into;
    in every other statement the expressions are rewritten by [fe] and the
    statements below are rewritten in turn. *)
Section Everywhere.

Variable replaced : stmt -> option stmt.
Variable fe : expr -> expr.

Definition everywhere_declarator (d : declarator) : declarator :=
  match d with
  | VariableDeclarator id init => VariableDeclarator (fe id) (option_map fe init)
  end.

Definition everywhere_init (i : forInit) : forInit :=
  match i with
  | ForInitDeclaration kind declarations =>
      ForInitDeclaration kind (map everywhere_declarator declarations)
  | ForInitExpression e => ForInitExpression (fe e)
  end.

Fixpoint everywhere_stmt (s : stmt) : stmt :=
  match replaced s with
  | Some s' => s'
  | None =>
      match s with
      | ExpressionStatement e => ExpressionStatement (fe e)
      | BlockStatement body => BlockStatement (map everywhere_stmt body)
      | ReturnStatement argument => ReturnStatement (option_map fe argument)
      | ThrowStatement argument => ThrowStatement (fe argument)
      | IfStatement t c a =>
          IfStatement (fe t) (everywhere_stmt c) (option_map everywhere_stmt a)
      | SwitchStatement d cases =>
          SwitchStatement (fe d)
            (map (fun c =>
                    match c with
                    | SwitchCase t consequent =>
                        SwitchCase (option_map fe t)
                          (map everywhere_stmt consequent)
                    end) cases)
      | WhileStatement t body => WhileStatement (fe t) (everywhere_stmt body)
      | ForStatement init t u body =>
          ForStatement (option_map everywhere_init init) (option_map fe t)
            (option_map fe u) (everywhere_stmt body)
      | ForInStatement lhs rhs body =>
          ForInStatement (everywhere_init lhs) (fe rhs) (everywhere_stmt body)
      | VariableDeclaration kind declarations =>
          VariableDeclaration kind (map everywhere_declarator declarations)
      | FunctionDeclaration id params body =>
          FunctionDeclaration id params (map everywhere_stmt body)
      | EmptyStatement | BreakStatement | ContinueStatement => s
      end
  end.

Definition everywhere_case (c : switchCase) : switchCase :=
  match c with
  | SwitchCase t consequent =>
      SwitchCase (option_map fe t) (map everywhere_stmt consequent)
  end.

End Everywhere.

(** An expression that [replaced_expr] answers is put in place as a whole;
    in every other expression the operands are rewritten first, the
    statements of a function expression too, and [rebuilt] is applied to
    the expression they make. *)
Section EverywhereExpr.

Variable replaced_expr : expr -> option expr.
Variable rebuilt : expr -> expr.
Variable replaced : stmt -> option stmt.

Fixpoint everywhere_expr (e : expr) : expr :=
  match replaced_expr e with
  | Some e' => e'
  | None =>
      rebuilt
        match e with
        | ArrayExpression elements =>
            ArrayExpression (map everywhere_expr elements)
        | UnaryExpression operator argument =>
            UnaryExpression operator (everywhere_expr argument)
        | UpdateExpression operator prefix argument =>
            UpdateExpression operator prefix (everywhere_expr argument)
        | BinaryExpression operator l r =>
            BinaryExpression operator (everywhere_expr l) (everywhere_expr r)
        | LogicalExpression operator l r =>
            LogicalExpression operator (everywhere_expr l) (everywhere_expr r)
        | AssignmentExpression operator l r =>
            AssignmentExpression operator (everywhere_expr l)
              (everywhere_expr r)
        | ConditionalExpression t c a =>
            ConditionalExpression (everywhere_expr t) (everywhere_expr c)
              (everywhere_expr a)
        | MemberExpression object property computed =>
            MemberExpression (everywhere_expr object)
              (everywhere_expr property) computed
        | CallExpression callee arguments =>
            CallExpression (everywhere_expr callee)
              (map everywhere_expr arguments)
        | SequenceExpression expressions =>
            SequenceExpression (map everywhere_expr expressions)
        | FunctionExpression id params body =>
            FunctionExpression id params
              (map (everywhere_stmt replaced everywhere_expr) body)
        | _ => e
        end
  end.

Definition everywhere (ast : list stmt) : list stmt :=
  map (everywhere_stmt replaced everywhere_expr) ast.

End EverywhereExpr.

(** ** A visitor that replaces nodes in place *)

Lemma plain_list (f : stmt -> counted outcome) (g : stmt -> stmt)
  (l : list stmt) :
  Forall (fun s => fst (f s) = Same (g s)) l ->
  concat (map in_list (fst (mapM f l))) = map g l.
Proof.
  rewrite mapM_fst. induction 1 as [|s l Hs _ IH]; [reflexivity|].
  cbn [map concat]. rewrite Hs, IH. reflexivity.
Qed.

Lemma plain_map {A B : Type} (f : A -> counted B) (g : A -> B) (l : list A) :
  Forall (fun x => fst (f x) = g x) l -> fst (mapM f l) = map g l.
Proof.
  rewrite mapM_fst. induction 1 as [|x l Hx _ IH]; [reflexivity|].
  cbn [map]. rewrite Hx, IH. reflexivity.
Qed.

Lemma plain_option {A B : Type} (f : A -> counted B) (g : A -> B)
  (o : option A) :
  option_all A (fun x => fst (f x) = g x) o ->
  fst (optM f o) = option_map g o.
Proof. rewrite optM_fst. destruct 1 as [x Hx|]; simpl; [rewrite Hx|]; reflexivity. Qed.

Section Plain.

(** The handlers of the visitor: [enter] replaces and skips the nodes that
    [replaced_expr] and [replaced] answer, [exit] puts [rebuilt e] in the
    place of the expression [e], and nothing is inserted or removed. *)
Variable v : Visitor.
Variable replaced_expr : expr -> option expr.
Variable rebuilt : expr -> expr.
Variable replaced : stmt -> option stmt.
Hypothesis enter_expr_spec : forall e, enter_expr v e = replaced_expr e.
Hypothesis exit_expr_spec : forall e, fst (exit_expr v e) = rebuilt e.
Hypothesis enter_stmt_spec : forall s, enter_stmt v s = replaced s.
Hypothesis exit_stmt_plain : forall s, fst (exit_stmt v s) = Same s.
Hypothesis exit_init_plain : forall i, fst (exit_init v i) = ([], i).

Section PlainWalk.

Variable fe : expr -> counted expr.

Lemma walk_plain_all :
  (forall e : expr, True) /\
  (forall s,
      fst (walk_stmt v fe s)
      = Same (everywhere_stmt replaced (fun e => fst (fe e)) s)) /\
  (forall c,
      fst (match c with
           | SwitchCase t consequent =>
               bind (optM fe t) (fun t' =>
               bind (mapM (walk_stmt v fe) consequent) (fun os =>
               ret (SwitchCase t' (concat (map in_list os)))))
           end)
      = everywhere_case replaced (fun e => fst (fe e)) c) /\
  (forall d,
      fst (walk_declarator fe d)
      = everywhere_declarator (fun e => fst (fe e)) d) /\
  (forall i,
      fst (walk_init v fe i) = ([], everywhere_init (fun e => fst (fe e)) i)
      /\ fst (walk_left fe i) = everywhere_init (fun e => fst (fe e)) i).
Proof using enter_stmt_spec exit_stmt_plain exit_init_plain.
  apply ast_mutind.
  1-17: intros; exact I.
  1-14: intros; cbn [walk_stmt everywhere_stmt]; rewrite enter_stmt_spec;
    destruct (replaced _); try reflexivity;
    repeat (rewrite ?bind_fst, ?exit_stmt_plain, ?optM_fst); try reflexivity.
  - (* block *)
    rewrite (plain_list _ _ body (list_all_Forall _ _ H)). reflexivity.
  - (* if *)
    rewrite H0. cbn [in_slot]. destruct H1 as [a Ha|]; cbn [option_map];
      [rewrite Ha|]; reflexivity.
  - (* switch *)
    f_equal. f_equal.
    apply (plain_map _ (everywhere_case replaced (fun e => fst (fe e)))).
    exact (list_all_Forall _ _ H0).
  - (* while *)
    rewrite H0. reflexivity.
  - (* for *)
    match goal with
    | |- context [fst ?W] =>
        match W with
        | match init with _ => _ end =>
            assert (fst W
                    = ([], option_map (everywhere_init (fun e => fst (fe e)))
                             init)) as ->
        end
    end.
    { destruct H as [i [Hi _]|]; [|reflexivity].
      rewrite bind_fst, Hi. reflexivity. }
    repeat (rewrite ?bind_fst, ?exit_stmt_plain, ?optM_fst).
    cbn [fst ret insertBefore]. rewrite H2. reflexivity.
  - (* for-in *)
    rewrite (proj2 H), H1. reflexivity.
  - (* declaration *)
    rewrite (plain_map _ _ declarations (list_all_Forall _ _ H)). reflexivity.
  - (* function *)
    rewrite (plain_list _ _ body (list_all_Forall _ _ H)). reflexivity.
  - (* case *)
    intros test _ consequent H.
    repeat (rewrite ?bind_fst, ?optM_fst). cbn [fst ret everywhere_case].
    rewrite (plain_list _ _ consequent (list_all_Forall _ _ H)). reflexivity.
  - (* declarator *)
    intros id _ init _. cbn [walk_declarator everywhere_declarator].
    repeat (rewrite ?bind_fst, ?optM_fst). reflexivity.
  - intros kind declarations H. cbn [walk_init walk_left everywhere_init].
    repeat (rewrite ?bind_fst, ?exit_init_plain).
    rewrite (plain_map _ _ declarations (list_all_Forall _ _ H)).
    split; reflexivity.
  - intros expression _. cbn [walk_init walk_left everywhere_init].
    repeat (rewrite ?bind_fst). split; reflexivity.
Qed.

Lemma walk_stmt_plain (s : stmt) :
  fst (walk_stmt v fe s)
  = Same (everywhere_stmt replaced (fun e => fst (fe e)) s).
Proof using enter_stmt_spec exit_stmt_plain exit_init_plain.
  apply walk_plain_all.
Qed.

Lemma walk_body_plain (body : list stmt) :
  fst (walk_body v fe body)
  = map (everywhere_stmt replaced (fun e => fst (fe e))) body.
Proof using enter_stmt_spec exit_stmt_plain exit_init_plain.
  unfold walk_body. rewrite bind_fst. cbn [ret fst].
  apply plain_list. apply List.Forall_forall. intros s _.
  apply walk_stmt_plain.
Qed.

End PlainWalk.

Lemma map_all {A B : Type} (f g : A -> B) (l : list A) :
  list_all A (fun x => f x = g x) l -> map f l = map g l.
Proof. induction 1; cbn [map]; congruence. Qed.

Lemma option_map_all {A B : Type} (f g : A -> B) (o : option A) :
  option_all A (fun x => f x = g x) o -> option_map f o = option_map g o.
Proof. destruct 1 as [x Hx|]; cbn [option_map]; congruence. Qed.

Lemma traverse_plain_all :
  let R := replaced in
  let F1 := fun e => fst (traverse_expr v e) in
  let F2 := everywhere_expr replaced_expr rebuilt R in
  (forall e, F1 e = F2 e) /\
  (forall s, everywhere_stmt R F1 s = everywhere_stmt R F2 s) /\
  (forall c, everywhere_case R F1 c = everywhere_case R F2 c) /\
  (forall d, everywhere_declarator F1 d = everywhere_declarator F2 d) /\
  (forall i, everywhere_init F1 i = everywhere_init F2 i).
Proof using All.
  intros R F1 F2. apply ast_mutind.
  1-17: intros; unfold F1, F2 in *; cbn [traverse_expr everywhere_expr];
    rewrite enter_expr_spec; destruct (replaced_expr _); try reflexivity;
    rewrite bind_fst, exit_expr_spec; f_equal;
    repeat (rewrite ?bind_fst; cbn [ret fst]);
    repeat match goal with
      | IH : list_all expr _ ?l |- context [mapM _ ?l] =>
          rewrite mapM_fst, (map_all _ _ l IH)
      | IH : fst (traverse_expr v ?e) = _ |- _ => rewrite IH; clear IH
      end;
    try reflexivity.
  - (* function expression *)
    rewrite walk_body_plain. fold R. rewrite (map_all _ _ body H).
    reflexivity.
  - intros e He. cbn [everywhere_stmt]. rewrite He. reflexivity.
  - intros body H. cbn [everywhere_stmt]. rewrite (map_all _ _ body H).
    reflexivity.
  - reflexivity.
  - intros a H. cbn [everywhere_stmt]. rewrite (option_map_all _ _ a H).
    reflexivity.
  - intros a H. cbn [everywhere_stmt]. rewrite H. reflexivity.
  - reflexivity.
  - reflexivity.
  - intros t Ht c Hc a Ha. cbn [everywhere_stmt].
    rewrite Ht, Hc, (option_map_all _ _ a Ha). reflexivity.
  - intros d Hd cases Hc. cbn [everywhere_stmt]. rewrite Hd.
    destruct (R _); [reflexivity|]. f_equal.
    exact (map_all (everywhere_case R F1) (everywhere_case R F2) cases Hc).
  - intros t Ht b Hb. cbn [everywhere_stmt]. rewrite Ht, Hb. reflexivity.
  - intros i Hi t Ht u Hu b Hb. cbn [everywhere_stmt].
    rewrite Hb, (option_map_all _ _ i Hi), (option_map_all _ _ t Ht),
      (option_map_all _ _ u Hu).
    reflexivity.
  - intros l Hl r Hr b Hb. cbn [everywhere_stmt]. rewrite Hl, Hr, Hb.
    reflexivity.
  - intros kind ds H. cbn [everywhere_stmt]. rewrite (map_all _ _ ds H).
    reflexivity.
  - intros id params body H. cbn [everywhere_stmt].
    rewrite (map_all _ _ body H). reflexivity.
  - intros t Ht c Hc. cbn [everywhere_case].
    rewrite (option_map_all _ _ t Ht), (map_all _ _ c Hc). reflexivity.
  - intros id Hid init Hinit. cbn [everywhere_declarator].
    rewrite Hid, (option_map_all _ _ init Hinit). reflexivity.
  - intros kind ds H. cbn [everywhere_init]. rewrite (map_all _ _ ds H).
    reflexivity.
  - intros e He. cbn [everywhere_init]. rewrite He. reflexivity.
Qed.

(** The traversal with such a visitor rewrites the tree everywhere: a node
    the [enter] handler answers is replaced and skipped, and the [exit]
    handler rebuilds an expression whose operands are done. *)
Lemma traverse_plain (ast : list stmt) :
  fst (traverse v ast) = everywhere replaced_expr rebuilt replaced ast.
Proof using All.
  unfold traverse, everywhere. rewrite walk_body_plain.
  apply List.map_ext. intros s. apply traverse_plain_all.
Qed.

End Plain.

(** ** [removeSelfCallFn] *)

(** The statement that is rewritten: a unary operator applied to the call,
    without arguments, of a function expression, used as a statement.  The
    block holds the statements of the function. *)
Definition self_call_block (s : stmt) : option stmt :=
  match s with
  | ExpressionStatement (UnaryExpression _ (CallExpression callee [])) =>
      match callee with
      | FunctionExpression _ _ body => Some (BlockStatement body)
      | _ => None
      end
  | _ => None
  end.

(** Every such statement of the program made a block, wherever it stands;
    the statements of the block are as they were in the function. *)
Definition self_calls_removed (ast : list stmt) : list stmt :=
  everywhere (fun _ => None) (fun e => e) self_call_block ast.

Lemma removeSelfCallFn_ExpressionStatement_block (s : stmt) :
  removeSelfCallFn_ExpressionStatement s = self_call_block s.
Proof.
  destruct s as [e| | | | | | | | | | | | |]; try reflexivity.
  destruct e as [ | | | | | | | op a | | | | | | | | | ]; try reflexivity.
  destruct a as [ | | | | | | | | | | | | | | callee args | | ];
    try reflexivity.
  destruct callee, args; reflexivity.
Qed.

Lemma removeSelfCallFn_everywhere (ast : list stmt) :
  fst (traverse removeSelfCallFn_visitor ast) = self_calls_removed ast.
Proof.
  apply traverse_plain; try reflexivity.
  exact removeSelfCallFn_ExpressionStatement_block.
Qed.


(** A printer and a parser that read a tree back as it is, as Babel's do on
    the trees of the examples. *)
Definition reads_back : Reparse := fun ast => Some ast.

Lemma everywhere_app replaced_expr rebuilt replaced (l1 l2 : list stmt) :
  everywhere replaced_expr rebuilt replaced (l1 ++ l2)
  = everywhere replaced_expr rebuilt replaced l1
    ++ everywhere replaced_expr rebuilt replaced l2.
Proof. apply map_app. Qed.

(** C6, as amended.  [removeSelfCallFn] leaves what the parser reads off the
    printed text of the program in which every expression statement whose
    expression is a unary operator applied to the call, without arguments,
    of a function expression ([!function(){ body }();]) is replaced by the
    block that holds [body], wherever the statement stands: in the program,
    in a block, in the branch of an [if], in the body of a loop or of a
    function; the statements of the new block are those of the function,
    as they were.  When the parser throws on the text, the
    method throws.  A statement whose expression is the call itself
    ([(function(){ body })();]) is not replaced. *)
Theorem removeSelfCallFn_unary :
  (forall (reparse : Reparse) ast,
      removeSelfCallFn reparse ast = reparse (self_calls_removed ast)) /\
  (forall before after operator id params body,
      self_calls_removed
        (before
         ++ [ExpressionStatement
               (UnaryExpression operator
                  (CallExpression (FunctionExpression id params body) []))]
         ++ after)
      = self_calls_removed before ++ [BlockStatement body]
        ++ self_calls_removed after) /\
  (forall operator id params body x f,
      let site :=
        ExpressionStatement
          (UnaryExpression operator
             (CallExpression (FunctionExpression id params body) [])) in
      self_calls_removed [BlockStatement [site]]
      = [BlockStatement [BlockStatement body]]
      /\ self_calls_removed [IfStatement (Identifier x) site None]
         = [IfStatement (Identifier x) (BlockStatement body) None]
      /\ self_calls_removed [WhileStatement (Identifier x) site]
         = [WhileStatement (Identifier x) (BlockStatement body)]
      /\ self_calls_removed [FunctionDeclaration f [] [site]]
         = [FunctionDeclaration f [] [BlockStatement body]]
      /\ self_calls_removed
           [ExpressionStatement
              (CallExpression (FunctionExpression None [] [site]) [])]
         = [ExpressionStatement
              (CallExpression
                 (FunctionExpression None [] [BlockStatement body]) [])]) /\
  (forall callee arguments,
      self_calls_removed
        [ExpressionStatement (CallExpression callee arguments)]
      = [ExpressionStatement
           (CallExpression
              (everywhere_expr (fun _ => None) (fun e => e) self_call_block
                 callee)
              (map (everywhere_expr (fun _ => None) (fun e => e)
                      self_call_block) arguments))]).
Proof.
  split; [|split; [|split]].
  - intros reparse ast. unfold removeSelfCallFn.
    rewrite removeSelfCallFn_everywhere. reflexivity.
  - intros. unfold self_calls_removed. rewrite !everywhere_app. reflexivity.
  - intros. repeat split; reflexivity.
  - reflexivity.
Qed.

(** [!function(){a()}();] *)
Example removeSelfCallFn_scenario :
  removeSelfCallFn reads_back
    [ExpressionStatement
       (UnaryExpression "!"
          (CallExpression
             (FunctionExpression None [] [ExpressionStatement (call "a")])
             []))]
  = Some [BlockStatement [ExpressionStatement (call "a")]].
Proof. reflexivity. Qed.

(** [if (x) { !function(){a()}(); }]: the statement is replaced where it
    stands, inside the block of the branch. *)
Example removeSelfCallFn_nested :
  removeSelfCallFn reads_back
    [IfStatement (Identifier "x")
       (BlockStatement
          [ExpressionStatement
             (UnaryExpression "!"
                (CallExpression
                   (FunctionExpression None []
                      [ExpressionStatement (call "a")])
                   []))])
       None]
  = Some [IfStatement (Identifier "x")
            (BlockStatement
               [BlockStatement [ExpressionStatement (call "a")]]) None].
Proof. reflexivity. Qed.

(** [!function(){return 1}();]: the block [{ return 1; }] is what the
    printer is given; a parser that refuses a [return] outside a function
    makes the method throw. *)
Example removeSelfCallFn_return :
  forall reparse : Reparse,
    removeSelfCallFn reparse
      [ExpressionStatement
         (UnaryExpression "!"
            (CallExpression
               (FunctionExpression None []
                  [ReturnStatement (Some (NumericLiteral 1))]) []))]
    = reparse [BlockStatement [ReturnStatement (Some (NumericLiteral 1))]].
Proof. reflexivity. Qed.

(** C6, counterexample.  [(function(){a()})();] is a self-invoking function
    expression without arguments used as a statement; [removeSelfCallFn]
    leaves it as it is, and does not make it the block [{ a(); }]. *)
Lemma removeSelfCallFn_plain_call :
  let statement :=
    ExpressionStatement
      (CallExpression
         (FunctionExpression None [] [ExpressionStatement (call "a")]) []) in
  removeSelfCallFn reads_back [statement] = Some [statement]
  /\ removeSelfCallFn reads_back [statement]
     <> Some [BlockStatement [ExpressionStatement (call "a")]].
Proof. split; [reflexivity | vm_compute; discriminate]. Qed.

(** ** [calcBinary] *)

Section Folding.

Variable evaluate : expr -> option value.

(** What the specification makes of a binary expression: when its two
    operands are literals and the evaluation of the expression is
    confident, the node of its value; the expression itself otherwise, as
    any expression that is no binary expression. *)
Definition folds_to (e : expr) : expr :=
  match e with
  | BinaryExpression _ l r =>
      if isLiteral l && isLiteral r then
        match evaluate e with
        | Some val => valueToNode val
        | None => e
        end
      else e
  | _ => e
  end.

(** The operands first, then the expression they make: the fold goes up a
    chain. *)
Definition folded_everywhere_expr : expr -> expr :=
  everywhere_expr (fun _ => None) folds_to (fun _ => None).

Definition folded_everywhere : list stmt -> list stmt :=
  everywhere (fun _ => None) folds_to (fun _ => None).

Lemma transformConcatenated_folds_to (e : expr) :
  folds_to e
  = match transformConcatenated evaluate e with
    | Folded e' => e'
    | _ => e
    end.
Proof.
  destruct e as [ | | | | | | | | |op l r| | | | | | | ]; try reflexivity.
  unfold folds_to, transformConcatenated. cbn [existsb].
  destruct (isLiteral l) eqn:Hl, (isLiteral r) eqn:Hr;
    rewrite ?(literal_not_identifier l Hl), ?(literal_not_identifier r Hr);
    cbn [orb andb];
    repeat match goal with
      | |- context [if ?b then _ else _] => destruct b
      end;
    try reflexivity; destruct (evaluate _); reflexivity.
Qed.

Lemma folded_literal (e : expr) :
  isLiteral e = true -> folded_everywhere_expr e = e.
Proof. destruct e; try discriminate; reflexivity. Qed.

Lemma transformConcatenated_literals operator l r :
  transformConcatenated evaluate (BinaryExpression operator l r) <> Untouched ->
  isLiteral l = true /\ isLiteral r = true.
Proof.
  unfold transformConcatenated.
  destruct (existsb isIdentifier [l; r]); [congruence|].
  destruct (isLiteral l), (isLiteral r); cbn [andb]; try congruence. auto.
Qed.

Lemma transformConcatenated_untouched operator l r :
  transformConcatenated evaluate (BinaryExpression operator l r) = Untouched ->
  isLiteral l && isLiteral r = false.
Proof.
  unfold transformConcatenated. cbn [existsb].
  destruct (isLiteral l) eqn:Hl, (isLiteral r) eqn:Hr; try reflexivity.
  rewrite (literal_not_identifier l Hl), (literal_not_identifier r Hr).
  cbn. destruct (evaluate _); discriminate.
Qed.

Definition fold_agrees (e : expr) : Prop :=
  fst (calcBinary_expr evaluate e) = folded_everywhere_expr e
  /\ (snd (calcBinary_expr evaluate e) = false ->
      isLiteral (folded_everywhere_expr e) = true -> isLiteral e = true).

Lemma fold_agrees_binary operator l r :
  fold_agrees l -> fold_agrees r ->
  fold_agrees (BinaryExpression operator l r).
Proof.
  intros [IHl Jl] [IHr Jr]. unfold fold_agrees.
  change (folded_everywhere_expr (BinaryExpression operator l r))
    with (folds_to (BinaryExpression operator (folded_everywhere_expr l)
                      (folded_everywhere_expr r))).
  cbn [calcBinary_expr].
  destruct (transformConcatenated evaluate (BinaryExpression operator l r))
    as [| |e0] eqn:T0.
  2, 3: destruct (transformConcatenated_literals operator l r) as [Hl Hr];
    [congruence|];
    rewrite (folded_literal l Hl), (folded_literal r Hr),
      transformConcatenated_folds_to, T0; split; [reflexivity|discriminate].
  destruct (calcBinary_expr evaluate l) as [l' al].
  destruct (calcBinary_expr evaluate r) as [r' ar].
  cbn [fst snd] in *. subst l' r'.
  set (l1 := folded_everywhere_expr l) in *.
  set (r1 := folded_everywhere_expr r) in *.
  pose proof (transformConcatenated_untouched _ _ _ T0) as Hnot.
  assert (ar = false ->
          transformConcatenated evaluate (BinaryExpression operator l1 r1)
          <> Untouched ->
          r1 = r /\ isLiteral l1 = true /\ isLiteral r = true) as Hright.
  { intros Ha HT.
    destruct (transformConcatenated_literals _ _ _ HT) as [Hl1 Hr1].
    pose proof (Jr Ha Hr1) as Hr. split; [|auto].
    apply folded_literal. exact Hr. }
  assert (forall al1,
             al1 = Untouched \/ al1 = Deopt ->
             (ar = false ->
              transformConcatenated evaluate (BinaryExpression operator l1 r1)
              = Untouched
              \/ transformConcatenated evaluate
                   (BinaryExpression operator l1 r1) = Deopt) ->
             let result :=
               match al1 with
               | Folded e' => (e', true)
               | after_left =>
                   match (if ar
                          then transformConcatenated evaluate
                                 (BinaryExpression operator l1 r1)
                          else Untouched) with
                   | Folded e' => (e', true)
                   | Deopt => (BinaryExpression operator l1 r1, true)
                   | Untouched =>
                       (BinaryExpression operator l1 r1,
                        match after_left with Deopt => true | _ => false end)
                   end
               end in
             fst result = folds_to (BinaryExpression operator l1 r1)
             /\ (snd result = false ->
                 isLiteral (folds_to (BinaryExpression operator l1 r1)) = true ->
                 isLiteral (BinaryExpression operator l r) = true)) as Hrest.
  { intros al1 Hal1 Hstay. rewrite transformConcatenated_folds_to.
    destruct ar.
    - destruct (transformConcatenated evaluate
                  (BinaryExpression operator l1 r1)) as [| |e2];
        destruct Hal1 as [-> | ->]; cbn; split; try reflexivity;
        try discriminate; intros _ H; discriminate H.
    - destruct (Hstay eq_refl) as [-> | ->];
        destruct Hal1 as [-> | ->]; cbn; split; try reflexivity;
        try discriminate; intros _ H; discriminate H. }
  destruct al.
  - destruct (transformConcatenated evaluate (BinaryExpression operator l1 r))
      as [| |e1] eqn:T1.
    + apply (Hrest Untouched); [auto|]. intros Ha.
      destruct (transformConcatenated evaluate
                  (BinaryExpression operator l1 r1)) as [| |e2] eqn:T2; auto.
      destruct Hright as (Er & _ & _); [exact Ha|congruence|].
      rewrite Er in T2. congruence.
    + apply (Hrest Deopt); [auto|]. intros Ha.
      destruct (transformConcatenated evaluate
                  (BinaryExpression operator l1 r1)) as [| |e2] eqn:T2; auto.
      destruct Hright as (Er & _ & _); [exact Ha|congruence|].
      rewrite Er in T2. congruence.
    + cbn [fst snd].
      destruct (transformConcatenated_literals operator l1 r) as [_ Hr];
        [congruence|].
      unfold r1. rewrite (folded_literal r Hr).
      rewrite transformConcatenated_folds_to, T1.
      split; [reflexivity|discriminate].
  - apply (Hrest Untouched); [auto|]. intros Ha.
    destruct (transformConcatenated evaluate
                (BinaryExpression operator l1 r1)) as [| |e2] eqn:T2; auto.
    destruct Hright as (_ & Hl1 & Hr); [exact Ha|congruence|].
    rewrite (Jl eq_refl Hl1), Hr in Hnot. discriminate.
Qed.

Lemma list_all_impl {A : Type} (P Q : A -> Prop) (l : list A) :
  (forall x, P x -> Q x) -> list_all A P l -> list_all A Q l.
Proof. intros H. induction 1; constructor; auto. Qed.

Lemma option_all_impl {A : Type} (P Q : A -> Prop) (o : option A) :
  (forall x, P x -> Q x) -> option_all A P o -> option_all A Q o.
Proof. intros H. destruct 1; constructor; auto. Qed.

Lemma map_fold_agrees (l : list expr) :
  list_all expr fold_agrees l ->
  map (fun x => fst (calcBinary_expr evaluate x)) l
  = map folded_everywhere_expr l.
Proof.
  intros H. apply map_ext_Forall. apply list_all_Forall in H.
  eapply List.Forall_impl; [|exact H]. intros e He. apply He.
Qed.

Lemma fold_agrees_all :
  let F1 := fun e => fst (calcBinary_expr evaluate e) in
  let R := fun _ : stmt => @None stmt in
  (forall e, fold_agrees e) /\
  (forall s,
      everywhere_stmt R F1 s = everywhere_stmt R folded_everywhere_expr s) /\
  (forall c,
      everywhere_case R F1 c = everywhere_case R folded_everywhere_expr c) /\
  (forall d,
      everywhere_declarator F1 d
      = everywhere_declarator folded_everywhere_expr d) /\
  (forall i,
      everywhere_init F1 i = everywhere_init folded_everywhere_expr i).
Proof.
  intros F1 R. apply ast_mutind.
  10: { intros. apply fold_agrees_binary; assumption. }
  1-16: intros; unfold fold_agrees, folded_everywhere_expr;
    cbn [calcBinary_expr everywhere_expr fst snd folds_to];
    repeat match goal with
      | IH : list_all expr fold_agrees ?l |- _ =>
          rewrite (map_fold_agrees l IH); clear IH
      | IH : fold_agrees ?e |- _ =>
          rewrite (proj1 IH); clear IH
      end;
    try (split; [reflexivity|]; intros _ H; try discriminate H; reflexivity).
  1: { (* function expression *)
    split; [|intros _ H'; discriminate H']. f_equal.
    rewrite (walk_body_plain no_visitor (fun _ => None)) by reflexivity.
    exact (map_all _ _ body H). }
  all: intros; subst F1 R;
    repeat match goal with
      | IH : fold_agrees _ |- _ => apply proj1 in IH
      | IH : list_all expr fold_agrees _ |- _ =>
          apply (list_all_impl _ _ _ (fun e => @proj1 _ _)) in IH
      | IH : option_all expr fold_agrees _ |- _ =>
          apply (option_all_impl _ _ _ (fun e => @proj1 _ _)) in IH
      end;
    cbn [everywhere_stmt everywhere_case everywhere_declarator
         everywhere_init];
    repeat match goal with
      | IH : list_all _ _ ?l |- _ => rewrite (map_all _ _ l IH); clear IH
      | IH : option_all _ _ ?o |- _ =>
          rewrite (option_map_all _ _ o IH); clear IH
      | IH : _ = _ |- _ => rewrite IH; clear IH
      end;
    try reflexivity.
  f_equal.
  match goal with
  | IH : list_all switchCase _ ?cs |- _ =>
      exact (map_all (everywhere_case (fun _ => None)
                        (fun e => fst (calcBinary_expr evaluate e)))
               (everywhere_case (fun _ => None) folded_everywhere_expr) cs IH)
  end.
Qed.

(** The first traversal folds everywhere. *)
Lemma calcBinary_first_everywhere (ast : list stmt) :
  fst (walk_body no_visitor
         (fun x => ret (fst (calcBinary_expr evaluate x))) ast)
  = folded_everywhere ast.
Proof.
  rewrite (walk_body_plain no_visitor (fun _ => None)) by reflexivity.
  apply List.map_ext. intros s. apply fold_agrees_all.
Qed.

End Folding.

(** The expressions the second traversal replaces, and what it puts in
    their place. *)
Inductive negation : expr -> expr -> Prop :=
| negation_twice operator :
    negation
      (UnaryExpression "!" (UnaryExpression operator (ArrayExpression [])))
      (BooleanLiteral true)
| negation_array :
    negation (UnaryExpression "!" (ArrayExpression [])) (BooleanLiteral false)
| negation_zero :
    negation (UnaryExpression "!" (NumericLiteral 0)) (BooleanLiteral true)
| negation_one :
    negation (UnaryExpression "!" (NumericLiteral 1)) (BooleanLiteral false).

Lemma calcBinary_UnaryExpression_negation (e e' : expr) :
  calcBinary_UnaryExpression e = Some e' <-> negation e e'.
Proof.
  split.
  - destruct e as [ | | | | | | |op a| | | | | | | | | ]; try discriminate.
    cbn [calcBinary_UnaryExpression].
    destruct (String.eqb op "!") eqn:Hop; [|discriminate].
    apply String.eqb_eq in Hop. subst op.
    destruct a as [ | |n| | | |l|op' a'| | | | | | | | | ];
      try discriminate.
    + destruct n as [|p|p]; try discriminate.
      * intros [= <-]. constructor.
      * destruct p; try discriminate. intros [= <-]. constructor.
    + destruct l; [|discriminate]. intros [= <-]. constructor.
    + destruct a' as [ | | | | | |l| | | | | | | | | | ]; try discriminate.
      destruct l; [|discriminate]. intros [= <-]. constructor.
  - destruct 1; reflexivity.
Qed.

(** Every such expression of the program replaced, wherever it stands. *)
Definition negated_everywhere (ast : list stmt) : list stmt :=
  everywhere calcBinary_UnaryExpression (fun e => e) (fun _ => None) ast.

Lemma calcBinary_second_everywhere (ast : list stmt) :
  fst (traverse calcBinary_unary_visitor ast) = negated_everywhere ast.
Proof. apply traverse_plain; reflexivity. Qed.

(** An expression built from literals with binary operators only. *)
Inductive literal_tree : expr -> Prop :=
| literal_leaf e : isLiteral e = true -> literal_tree e
| literal_node operator l r :
    literal_tree l -> literal_tree r ->
    literal_tree (BinaryExpression operator l r).

Lemma folded_literal_tree evaluate (e : expr) :
  isLiteral (folded_everywhere_expr evaluate e) = true -> literal_tree e.
Proof.
  induction e as [ | | | | | | | | |operator e1 IHe1 e2 IHe2| | | | | | | ];
    try (intros _; apply literal_leaf; reflexivity);
    try (unfold folded_everywhere_expr; simpl; discriminate).
  intros H.
  change (folded_everywhere_expr evaluate (BinaryExpression operator e1 e2))
    with (folds_to evaluate
            (BinaryExpression operator (folded_everywhere_expr evaluate e1)
               (folded_everywhere_expr evaluate e2))) in H.
  cbn [folds_to] in H.
  destruct (isLiteral (folded_everywhere_expr evaluate e1)) eqn:H1;
    [|discriminate H].
  destruct (isLiteral (folded_everywhere_expr evaluate e2)) eqn:H2;
    [|discriminate H].
  apply literal_node; auto.
Qed.

Lemma folded_string_sum evaluate :
  (forall a b,
      evaluate (BinaryExpression "+" (StringLiteral a) (StringLiteral b))
      = Some (VString (a ++ b))) ->
  forall e s,
    string_sum e s -> folded_everywhere_expr evaluate e = StringLiteral s.
Proof.
  intros Hplus e s. induction 1 as [s|l r sl sr Hl IHl Hr IHr]; [reflexivity|].
  change (folded_everywhere_expr evaluate (BinaryExpression "+" l r))
    with (folds_to evaluate
            (BinaryExpression "+" (folded_everywhere_expr evaluate l)
               (folded_everywhere_expr evaluate r))).
  rewrite IHl, IHr. cbn [folds_to isLiteral andb]. rewrite Hplus. reflexivity.
Qed.

(** C7, as amended.  [calcBinary] leaves what the parser reads off the text
    of the program after two rewritings, with a reading of the text between
    the two, and throws when the parser does.  The first replaces, wherever
    it stands and operands first, a binary expression whose two operands
    are literals by the node of its value ([t.valueToNode]) when the
    evaluation is confident, and leaves it as it is when the evaluation is
    not confident; so a chain of concatenations of string literals
    collapses to one string literal, a binary expression with an identifier
    operand stays a binary expression with that operator, and an expression
    that has become a literal was made of literals and binary operators
    only.  The second replaces, wherever they stand, [!![]], [![]], [!0]
    and [!1] by [true], [false], [true] and [false], and nothing else but
    [!] applied to another unary operator on [[]]. *)
Theorem calcBinary_folds (evaluate : expr -> option value) :
  (forall (reparse : Reparse) ast,
      calcBinary evaluate reparse ast
      = match reparse (folded_everywhere evaluate ast) with
        | Some ast1 => reparse (negated_everywhere ast1)
        | None => None
        end) /\
  (forall operator l r,
      folded_everywhere_expr evaluate (BinaryExpression operator l r)
      = folds_to evaluate
          (BinaryExpression operator (folded_everywhere_expr evaluate l)
             (folded_everywhere_expr evaluate r))) /\
  (forall operator l r val,
      isLiteral l = true -> isLiteral r = true ->
      evaluate (BinaryExpression operator l r) = Some val ->
      folds_to evaluate (BinaryExpression operator l r) = valueToNode val) /\
  (forall operator l r,
      isLiteral l = true -> isLiteral r = true ->
      evaluate (BinaryExpression operator l r) = None ->
      folds_to evaluate (BinaryExpression operator l r)
      = BinaryExpression operator l r) /\
  (forall operator l r,
      isIdentifier l || isIdentifier r = true ->
      folded_everywhere_expr evaluate (BinaryExpression operator l r)
      = BinaryExpression operator (folded_everywhere_expr evaluate l)
          (folded_everywhere_expr evaluate r)) /\
  (forall e,
      isLiteral (folded_everywhere_expr evaluate e) = true ->
      literal_tree e) /\
  ((forall a b,
       evaluate (BinaryExpression "+" (StringLiteral a) (StringLiteral b))
       = Some (VString (a ++ b))) ->
   forall e s,
     string_sum e s -> folded_everywhere_expr evaluate e = StringLiteral s) /\
  (forall e e', calcBinary_UnaryExpression e = Some e' <-> negation e e').
Proof.
  repeat apply conj.
  - intros reparse ast. unfold calcBinary.
    rewrite calcBinary_first_everywhere.
    destruct (reparse (folded_everywhere evaluate ast)) as [ast1|];
      [|reflexivity].
    rewrite calcBinary_second_everywhere. reflexivity.
  - reflexivity.
  - intros operator l r val Hl Hr He. cbn [folds_to].
    rewrite Hl, Hr, He. reflexivity.
  - intros operator l r Hl Hr He. cbn [folds_to].
    rewrite Hl, Hr, He. reflexivity.
  - intros operator l r H.
    change (folded_everywhere_expr evaluate (BinaryExpression operator l r))
      with (folds_to evaluate
              (BinaryExpression operator (folded_everywhere_expr evaluate l)
                 (folded_everywhere_expr evaluate r))).
    cbn [folds_to].
    apply orb_true_iff in H. destruct H as [H|H].
    + destruct l; try discriminate H. reflexivity.
    + destruct r as [n| | | | | | | | | | | | | | | | ]; try discriminate H.
      change (folded_everywhere_expr evaluate (Identifier n))
        with (Identifier n).
      cbn [isLiteral]. rewrite andb_false_r. reflexivity.
  - apply folded_literal_tree.
  - apply folded_string_sum.
  - apply calcBinary_UnaryExpression_negation.
Qed.

(** [x = 1 + 2;] becomes [x = 3;], and [f('a' + 'b');] becomes [f('ab');]:
    the expression is folded where it stands. *)
Example calcBinary_inside :
  calcBinary evaluate_model reads_back
    [ExpressionStatement
       (AssignmentExpression "=" (Identifier "x")
          (BinaryExpression "+" (NumericLiteral 1) (NumericLiteral 2)));
     ExpressionStatement
       (CallExpression (Identifier "f")
          [BinaryExpression "+" (StringLiteral "a") (StringLiteral "b")])]
  = Some
      [ExpressionStatement
         (AssignmentExpression "=" (Identifier "x") (NumericLiteral 3));
       ExpressionStatement
         (CallExpression (Identifier "f") [StringLiteral "ab"])].
Proof. reflexivity. Qed.

(** A folded prefix of a chain that goes on with an identifier:
    [x = 1 + 2 + a] becomes [x = 3 + a]. *)
Example calcBinary_prefix :
  calcBinary evaluate_model reads_back
    [ExpressionStatement
       (AssignmentExpression "=" (Identifier "x")
          (BinaryExpression "+"
             (BinaryExpression "+" (NumericLiteral 1) (NumericLiteral 2))
             (Identifier "a")))]
  = Some
      [ExpressionStatement
         (AssignmentExpression "=" (Identifier "x")
            (BinaryExpression "+" (NumericLiteral 3) (Identifier "a")))].
Proof. reflexivity. Qed.

(** ['a' + 'b';] as the first statement of the program: the first rewriting
    leaves the statement ['ab';], which the parser need not read back as an
    expression statement; the second traversal runs on what it reads. *)
Example calcBinary_directive :
  forall reparse : Reparse,
    calcBinary evaluate_model reparse
      [ExpressionStatement
         (BinaryExpression "+" (StringLiteral "a") (StringLiteral "b"))]
    = match reparse [ExpressionStatement (StringLiteral "ab")] with
      | Some ast1 => reparse (negated_everywhere ast1)
      | None => None
      end.
Proof.
  intros reparse. unfold calcBinary. rewrite calcBinary_first_everywhere.
  change (folded_everywhere evaluate_model
            [ExpressionStatement
               (BinaryExpression "+" (StringLiteral "a") (StringLiteral "b"))])
    with [ExpressionStatement (StringLiteral "ab")].
  destruct (reparse _); [rewrite calcBinary_second_everywhere|]; reflexivity.
Qed.

Lemma calcBinary_folds_witness :
  calcBinary evaluate_model reads_back
    [ExpressionStatement
       (AssignmentExpression "=" (Identifier "x")
          (BinaryExpression "+" (NumericLiteral 1) (NumericLiteral 2)))]
  = Some
      [ExpressionStatement
         (AssignmentExpression "=" (Identifier "x") (NumericLiteral 3))]
  /\ folds_to evaluate_model
       (BinaryExpression "+" (NumericLiteral 1) (NumericLiteral 2))
     = NumericLiteral 3
  /\ folds_to evaluate_model
       (BinaryExpression "+" (RegExpLiteral "a" "") (RegExpLiteral "b" ""))
     = BinaryExpression "+" (RegExpLiteral "a" "") (RegExpLiteral "b" "")
  /\ folded_everywhere_expr evaluate_model
       (BinaryExpression "+" (NumericLiteral 1) (Identifier "a"))
     = BinaryExpression "+" (NumericLiteral 1) (Identifier "a")
  /\ literal_tree
       (BinaryExpression "+"
          (BinaryExpression "+" (StringLiteral "1") (StringLiteral "2"))
          (StringLiteral "3"))
  /\ folded_everywhere_expr evaluate_model
       (BinaryExpression "+"
          (BinaryExpression "+" (StringLiteral "1") (StringLiteral "2"))
          (StringLiteral "3"))
     = StringLiteral ("1" ++ "2" ++ "3").
Proof.
  destruct (calcBinary_folds evaluate_model)
    as (Hmethod & _ & Hconfident & Hdeopt & Hidentifier & Htree & Hchain & _).
  split; [|split; [|split; [|split; [|split]]]].
  - rewrite Hmethod. reflexivity.
  - exact (Hconfident "+" (NumericLiteral 1) (NumericLiteral 2) (VNumber 3)
             eq_refl eq_refl eq_refl).
  - exact (Hdeopt "+" (RegExpLiteral "a" "") (RegExpLiteral "b" "")
             eq_refl eq_refl eq_refl).
  - exact (Hidentifier "+" (NumericLiteral 1) (Identifier "a") eq_refl).
  - apply Htree. reflexivity.
  - exact (Hchain (fun a b => eq_refl) _ _
             (sum_plus _ _ _ _
                (sum_plus _ _ _ _ (sum_literal "1") (sum_literal "2"))
                (sum_literal "3"))).
Defined.

(** C7, counterexample.  [/a/ + /b/] has two literal operands; the
    evaluation of a regular expression literal is not confident, and
    [calcBinary] leaves the expression as it is: it is not folded into a
    literal. *)
Lemma calcBinary_regexp_not_folded :
  let e :=
    BinaryExpression "+" (RegExpLiteral "a" "") (RegExpLiteral "b" "") in
  isLiteral (RegExpLiteral "a" "") = true
  /\ isLiteral (RegExpLiteral "b" "") = true
  /\ calcBinary evaluate_model reads_back
       [ExpressionStatement (AssignmentExpression "=" (Identifier "x") e)]
     = Some
         [ExpressionStatement (AssignmentExpression "=" (Identifier "x") e)]
  /\ isLiteral e = false.
Proof. repeat split; reflexivity. Qed.

(** ** [removeUnusedBlock] *)

Definition underscore (n : string) : string := ("_" ++ n)%string.

(** [if(false){x()}else{y()}] *)
Example removeUnusedBlock_scenario :
  removeUnusedBlock evaluate_model (fun _ => false) underscore
    [IfStatement (BooleanLiteral false)
       (BlockStatement [ExpressionStatement (call "x")])
       (Some (BlockStatement [ExpressionStatement (call "y")]))]
  = [ExpressionStatement (call "y")].
Proof. reflexivity. Qed.

Example removeUnusedBlock_truthy :
  removeUnusedBlock evaluate_model (fun _ => false) underscore
    [IfStatement (UnaryExpression "!" (ArrayExpression []))
       (BlockStatement [ExpressionStatement (call "x")]) None;
     IfStatement (NumericLiteral 1)
       (BlockStatement [ExpressionStatement (call "x")])
       (Some (BlockStatement [ExpressionStatement (call "y")]))]
  = [ExpressionStatement (call "x")].
Proof. reflexivity. Qed.

(** C1, the defect.  The test [x] of [if (x) { a() } else { b() }] does not
    evaluate to a constant: [evaluateTruthy] gives [undefined], which the
    [if] of [process] takes for false.  The statement is replaced by its
    alternate, [b();]; and [if (x) { a() }], which has none, is removed. *)
Theorem removeUnusedBlock_nonconstant_test :
  forall (hasBinding : string -> bool) (generateUid : string -> string),
    evaluateTruthy evaluate_model (Identifier "x") = None
    /\ removeUnusedBlock evaluate_model hasBinding generateUid
         [IfStatement (Identifier "x")
            (BlockStatement [ExpressionStatement (call "a")])
            (Some (BlockStatement [ExpressionStatement (call "b")]))]
       = [ExpressionStatement (call "b")]
    /\ removeUnusedBlock evaluate_model hasBinding generateUid
         [IfStatement (Identifier "x")
            (BlockStatement [ExpressionStatement (call "a")]) None]
       = [].
Proof. intros. repeat split; reflexivity. Qed.

(** The second defect of [removeUnusedBlock]: a declaration of the hoisted
    block whose name the outer scope binds is renamed, its references are
    not.  [if (true) { let a = 1; f(a); }] with an outer [a] becomes
    [let _a = 1; f(a);]. *)
Example removeUnusedBlock_rename_keeps_references :
  removeUnusedBlock evaluate_model (String.eqb "a") underscore
    [IfStatement (BooleanLiteral true)
       (BlockStatement
          [VariableDeclaration "let"
             [VariableDeclarator (Identifier "a") (Some (NumericLiteral 1))];
           ExpressionStatement
             (CallExpression (Identifier "f") [Identifier "a"])])
       None]
  = [VariableDeclaration "let"
       [VariableDeclarator (Identifier "_a") (Some (NumericLiteral 1))];
     ExpressionStatement (CallExpression (Identifier "f") [Identifier "a"])].
Proof. reflexivity. Qed.

(** ** [decryptReplace] *)

(** C2, as amended.  At a call of a decoder (the callee is an identifier of
    the decoder list) whose arguments hold no identifier: when the
    evaluation returns a string, the call is replaced by the string literal
    of that value and the call's code is recorded with the value; when the
    evaluation throws, the call stays in its slot, gains the leading comment
    that tags the failure, put before the leading comments it has, and
    nothing is recorded; when the evaluation
    returns a value that is no string, the literal cannot be built and the
    call stays in its slot with the comment of that failure.  At a call of a
    decoder with an identifier among its arguments the visitor changes
    nothing, whatever [eval] would do. *)
Theorem decryptReplace_call_site
  (fnList : list string) (eval : string -> completion)
  (toString : expr -> string)
  (site : CallSite) (results : gmap string value)
  (callee : string) (arguments : list expr)
  (Hnode : node site = CallExpression (Identifier callee) arguments)
  (Hdecoder : includes fnList callee = true) :
  (existsb isIdentifier arguments = false ->
   (forall s,
       eval (toString (node site)) = Returns (VString s) ->
       decryptReplace_CallExpression fnList eval toString site results
       = ({| node := StringLiteral s; leadingComments := leadingComments site |},
          <[toString (node site) := VString s]> results)) /\
   (forall message,
       eval (toString (node site)) = Throws message ->
       decryptReplace_CallExpression fnList eval toString site results
       = ({| node := node site;
             leadingComments :=
               decrypt_failed message :: leadingComments site |},
          results)) /\
   (forall val message,
       eval (toString (node site)) = Returns val ->
       stringLiteral val = inr message ->
       fst (decryptReplace_CallExpression fnList eval toString site results)
       = {| node := node site;
            leadingComments :=
              decrypt_failed message :: leadingComments site |})) /\
  (existsb isIdentifier arguments = true ->
   forall eval' : string -> completion,
     decryptReplace_CallExpression fnList eval' toString site results
     = (site, results)).
Proof.
  unfold decryptReplace_CallExpression, addComment, replaceWith_site.
  rewrite Hnode, Hdecoder.
  split.
  - intros ->. repeat split.
    + intros s ->. reflexivity.
    + intros message ->. reflexivity.
    + intros val message -> Hs. rewrite Hs. reflexivity.
  - intros ->. reflexivity.
Qed.

Definition decoder_call : CallSite :=
  {| node := CallExpression (Identifier "_0x4698") [StringLiteral "0x1"];
     leadingComments := [] |}.

(** The same call under a comment of its own. *)
Definition decoder_call_commented : CallSite :=
  {| node := CallExpression (Identifier "_0x4698") [StringLiteral "0x1"];
     leadingComments := [" keep"] |}.

Definition decoder_call_with_variable : CallSite :=
  {| node := CallExpression (Identifier "_0x4698") [Identifier "k"];
     leadingComments := [] |}.

Lemma decryptReplace_call_site_witness :
  decryptReplace_CallExpression ["_0x4698"]
    (fun _ => Returns (VString "debugger")) (fun _ => "_0x4698('0x1')")
    decoder_call ∅
  = ({| node := StringLiteral "debugger"; leadingComments := [] |},
     {["_0x4698('0x1')" := VString "debugger"]})
  /\
  decryptReplace_CallExpression ["_0x4698"]
    (fun _ => Throws "boom") (fun _ => "_0x4698('0x1')")
    decoder_call_commented ∅
  = ({| node := node decoder_call_commented;
        leadingComments := [decrypt_failed "boom"; " keep"] |}, ∅)
  /\
  decryptReplace_CallExpression ["_0x4698"]
    (fun _ => Returns (VString "debugger")) (fun _ => "_0x4698(k)")
    decoder_call_with_variable ∅
  = (decoder_call_with_variable, ∅).
Proof.
  split; [|split].
  - exact (proj1
             (proj1
                (decryptReplace_call_site ["_0x4698"]
                   (fun _ => Returns (VString "debugger"))
                   (fun _ => "_0x4698('0x1')") decoder_call ∅
                   "_0x4698" [StringLiteral "0x1"] eq_refl eq_refl)
                eq_refl) "debugger" eq_refl).
  - exact (proj1
             (proj2
                (proj1
                   (decryptReplace_call_site ["_0x4698"]
                      (fun _ => Throws "boom")
                      (fun _ => "_0x4698('0x1')") decoder_call_commented ∅
                      "_0x4698" [StringLiteral "0x1"] eq_refl eq_refl)
                   eq_refl)) "boom" eq_refl).
  - exact (proj2
             (decryptReplace_call_site ["_0x4698"]
                (fun _ => Returns (VString "debugger"))
                (fun _ => "_0x4698(k)") decoder_call_with_variable ∅
                "_0x4698" [Identifier "k"] eq_refl eq_refl)
             eq_refl (fun _ => Returns (VString "debugger"))).
Defined.

(** C2, counterexample.  The decoder call evaluates without throwing, to the
    number 5.  [t.stringLiteral(5)] throws inside the [try]: the call is not
    replaced by a string literal; it stays with the comment of the failure,
    and the map of results has recorded it all the same. *)
Lemma decryptReplace_number_result :
  let visited :=
    decryptReplace_CallExpression ["_0x4698"]
      (fun _ => Returns (VNumber 5)) (fun _ => "_0x4698('0x1')")
      decoder_call ∅ in
  node (fst visited) = node decoder_call
  /\ isStringLiteral (node (fst visited)) = false
  /\ leadingComments (fst visited)
     = [decrypt_failed "Property value expected type of string but got number"]
  /\ snd visited !! "_0x4698('0x1')" = Some (VNumber 5).
Proof. repeat split; reflexivity. Qed.

(** The whole method: nothing happens without decoders, and code of the
    decoders that does not evaluate is fatal. *)
Example decryptReplace_guards :
  decryptReplace [] (fun _ => Throws "never") (fun _ => "code") (Some "setup")
    [decoder_call] = Some ([decoder_call], ∅)
  /\ decryptReplace ["_0x4698"] (fun _ => Throws "bad setup")
       (fun _ => "code") (Some "setup") [decoder_call] = None.
Proof. split; reflexivity. Qed.

(** ** [controlFlowFlat] *)

(** The label of the case at position [i], as the obfuscator writes it. *)
Definition label (i : nat) : string := JS.Number_toString (Z.of_nat i).

(** The case a string selects: the first case whose test is that string
    literal. *)
Definition has_label (s : string) (c : switchCase) : bool :=
  match c with
  | SwitchCase (Some (StringLiteral l)) _ => String.eqb l s
  | _ => false
  end.

Definition case_labelled (s : string) (cases : list switchCase)
  : option switchCase :=
  List.find (has_label s) cases.

(** The cases are labelled "k", "k+1", ... in the order they stand in. *)
Fixpoint labelled_from (k : nat) (cases : list switchCase) : Prop :=
  match cases with
  | [] => True
  | c :: rest =>
      (exists consequent,
          c = SwitchCase (Some (StringLiteral (label k))) consequent)
      /\ labelled_from (S k) rest
  end.

(** What the specification has emitted: for each entry of the order string,
    the first statement of the case it labels, the [continue]s left out. *)
Definition ordered_statements (shufferString : string)
  (cases : list switchCase) : list (option stmt) :=
  List.filter notContinue
    (map (fun s =>
            match case_labelled s cases with
            | Some c => first_statement c
            | None => None
            end) (JS.split "|" shufferString)).

Lemma label_inj (i j : nat) : label i = label j -> i = j.
Proof.
  unfold label. intros H.
  assert (Some (Z.of_nat i) = Some (Z.of_nat j)) as E.
  { rewrite <- !Number_toString_decimal. rewrite H. reflexivity. }
  inversion E. lia.
Qed.

Lemma array_index_label (s : string) (i : nat) :
  JS.array_index s = Some i -> s = label i.
Proof.
  unfold JS.array_index, label.
  destruct (JS.parse_decimal s) as [n|]; [|discriminate].
  destruct (0 <=? n)%Z eqn:Hn; [|discriminate].
  destruct (String.eqb (JS.Number_toString n) s) eqn:Hs; [|discriminate].
  simpl. intros H. inversion H; subst.
  apply Z.leb_le in Hn. rewrite Z2Nat.id by exact Hn.
  symmetry. apply String.eqb_eq. exact Hs.
Qed.

Lemma labelled_filter k cases :
  labelled_from k cases -> List.filter isStringCase cases = cases.
Proof.
  revert k. induction cases as [|c rest IH]; simpl; intros k H; [reflexivity|].
  destruct H as [[consequent ->] H]. simpl. rewrite (IH _ H). reflexivity.
Qed.

Lemma case_labelled_nth k cases i :
  labelled_from k cases ->
  case_labelled (label (k + i)) cases = nth_error cases i.
Proof.
  revert k i. induction cases as [|c rest IH]; intros k i H.
  - destruct i; reflexivity.
  - destruct H as [[consequent ->] H]. unfold case_labelled. simpl.
    destruct i as [|i].
    + rewrite Nat.add_0_r, String.eqb_refl. reflexivity.
    + destruct (String.eqb (label k) (label (k + S i))) eqn:E.
      * apply String.eqb_eq, label_inj in E. lia.
      * replace (k + S i) with (S k + i) by lia. apply (IH (S k) i H).
Qed.

Lemma case_labelled_no_index k cases s :
  labelled_from k cases -> JS.array_index s = None ->
  case_labelled s cases = None.
Proof.
  revert k. induction cases as [|c rest IH]; intros k H Hs; [reflexivity|].
  destruct H as [[consequent ->] H]. unfold case_labelled. simpl.
  destruct (String.eqb (label k) s) eqn:E.
  - apply String.eqb_eq in E. subst s. unfold label in Hs.
    rewrite array_index_toString in Hs. discriminate.
  - apply (IH (S k) H Hs).
Qed.

(** On cases labelled in order, indexing the array of first statements by
    an entry of the order string picks the case that entry labels. *)
Lemma myArr_by_label cases s :
  labelled_from 0 cases ->
  match JS.array_get (map first_statement (List.filter isStringCase cases)) s with
  | Some x => x
  | None => None
  end
  = match case_labelled s cases with
    | Some c => first_statement c
    | None => None
    end.
Proof.
  intros H. rewrite (labelled_filter 0 cases H). unfold JS.array_get.
  destruct (JS.array_index s) as [i|] eqn:Hs.
  - apply array_index_label in Hs. subst s.
    pose proof (case_labelled_nth 0 cases i H) as E. simpl in E. rewrite E.
    rewrite nth_error_map. destruct (nth_error cases i); reflexivity.
  - rewrite (case_labelled_no_index 0 cases s H Hs). reflexivity.
Qed.

Lemma sequences_by_label shufferString cases :
  labelled_from 0 cases ->
  sequences (JS.split "|" shufferString)
    (map first_statement (List.filter isStringCase cases))
  = ordered_statements shufferString cases.
Proof.
  intros H. unfold sequences, ordered_statements. f_equal.
  apply map_ext. intros s. apply myArr_by_label. exact H.
Qed.

Definition split_call (shufferString : string) (property : expr)
  (computed : bool) : expr :=
  CallExpression (MemberExpression (StringLiteral shufferString) property computed)
    [StringLiteral "|"].

(** The block of the idiom: the declaration of the order array (and of the
    counter, in [others]), the loop around the switch, and what follows the
    loop in the block. *)
Definition idiom (kind order shufferString : string) (property : expr)
  (computed : bool) (others : list declarator) (head : loopHead)
  (body_before : list stmt) (discriminant : expr) (cases : list switchCase)
  (body_after block_after : list stmt) : SwitchSite :=
  {| block_before :=
       [VariableDeclaration kind
          (VariableDeclarator (Identifier order)
             (Some (split_call shufferString property computed)) :: others)];
     loop := head;
     body_before := body_before;
     discriminant := discriminant;
     cases := cases;
     body_after := body_after;
     block_after := block_after |}.

Definition remaining_declaration (kind : string) (others : list declarator)
  : list stmt :=
  match others with
  | [] => []
  | _ => [VariableDeclaration kind others]
  end.


(** The scenario: [var o = "1|3|2|0".split("|"), i = 0;
    while (true) { switch (o[i++]) { case "0": return x;
    case "1": if (c) return; continue; case "2": x.c = "u"; continue;
    case "3": var x = d(n); continue; } break; }] *)
Definition counter : declarator :=
  VariableDeclarator (Identifier "i") (Some (NumericLiteral 0)).

Definition order_entry : expr :=
  MemberExpression (Identifier "o")
    (UpdateExpression "++" false (Identifier "i")) true.

Definition scenario_cases : list switchCase :=
  [ SwitchCase (Some (StringLiteral "0")) [ReturnStatement (Some (Identifier "x"))];
    SwitchCase (Some (StringLiteral "1"))
      [IfStatement (Identifier "c") (ReturnStatement None) None; ContinueStatement];
    SwitchCase (Some (StringLiteral "2"))
      [ExpressionStatement
         (AssignmentExpression "="
            (MemberExpression (Identifier "x") (Identifier "c") false)
            (StringLiteral "u"));
       ContinueStatement];
    SwitchCase (Some (StringLiteral "3"))
      [VariableDeclaration "var"
         [VariableDeclarator (Identifier "x")
            (Some (CallExpression (Identifier "d") [Identifier "n"]))];
       ContinueStatement] ].

Lemma scenario_cases_labelled : labelled_from 0 scenario_cases.
Proof. simpl. repeat (split; [eexists; reflexivity|]). exact I. Qed.


(** [var o = "1|0".split("|"), i = 0;
    while (true) { switch (o[i++]) { case "0": b(); c(); continue;
    case "1": a(); continue; } break; }  d();] *)
Definition call0 (f : string) : stmt :=
  ExpressionStatement (CallExpression (Identifier f) []).

Definition followed_site : SwitchSite :=
  idiom "var" "o" "1|0" (Identifier "split") false [counter]
    (WhileHead (BooleanLiteral true)) [] order_entry
    [ SwitchCase (Some (StringLiteral "0")) [call0 "b"; call0 "c"; ContinueStatement];
      SwitchCase (Some (StringLiteral "1")) [call0 "a"; ContinueStatement] ]
    [BreakStatement] [call0 "d"].


(** ** [findDecryptFnByCallCount] *)

(** A function the specification speaks of: the statement of the program
    it stands in, the declarator of that statement it initialises (0 for a
    function declaration), and its name. *)
Definition ProgramFunction : Type := nat * nat * option string.

Fixpoint declarator_functions (i j : nat) (ds : list declarator)
  : list ProgramFunction :=
  match ds with
  | [] => []
  | VariableDeclarator declared (Some (FunctionExpression id _ _)) :: rest =>
      (i, j, fnName_of id declared) :: declarator_functions i (S j) rest
  | _ :: rest => declarator_functions i (S j) rest
  end.

Definition statement_functions (i : nat) (s : stmt) : list ProgramFunction :=
  match s with
  | FunctionDeclaration id _ _ => [(i, 0, Some id)]
  | VariableDeclaration _ ds => declarator_functions i 0 ds
  | _ => []
  end.

(** The program-level function declarations and the function expressions
    initialising program-level declarators, in program order. *)
Fixpoint program_functions (i : nat) (body : list Located)
  : list ProgramFunction :=
  match body with
  | [] => []
  | s :: rest =>
      statement_functions i (statement s) ++ program_functions (S i) rest
  end.

Section Decoders.

Variable getBinding : nat -> nat -> string -> option Binding.
Variable generator : list stmt -> string.
Variable count : nat.

(** The reference count of the function's binding reaches the threshold. *)
Definition isDecoder (f : ProgramFunction) : bool :=
  match f with
  | (i, j, Some n) =>
      match getBinding i j n with
      | Some binding => Nat.leb count (length (referencePaths binding))
      | None => false
      end
  | _ => false
  end.

Definition decoders (body : list Located) : list ProgramFunction :=
  List.filter isDecoder (program_functions 0 body).

(** The length of the prefix that ends just after the statement of the last
    of the functions [fs]; [index] when there is none. *)
Definition prefix_end (fs : list ProgramFunction) (index : nat) : nat :=
  List.last (map (fun f : ProgramFunction => S (fst (fst f))) fs) index.

Definition names (fs : list ProgramFunction) : list string :=
  omap snd fs.

(** The binding of each function of the program is declared by the
    statement the function stands in. *)
Definition declared_in_place (body : list Located) : Prop :=
  forall i j n binding,
    In (i, j, Some n) (program_functions 0 body) ->
    getBinding i j n = Some binding ->
    exists s, nth_error body i = Some s
              /\ declaration binding = Some (start s, map start body).

Definition process (st : DecryptFnState) (f : ProgramFunction)
  : DecryptFnState :=
  processFunction getBinding count (fst (fst f)) (snd (fst f)) (snd f) st.

Lemma visit_declarators_fold i j ds st :
  visit_declarators getBinding count i j ds st
  = fold_left process (declarator_functions i j ds) st.
Proof using Type.
  revert j st. induction ds as [|d rest IH]; intros j st; [reflexivity|].
  destruct d as [declared [init|]]; simpl; [|apply IH].
  destruct init; simpl; try apply IH.
Qed.

Lemma visit_program_fold i body st :
  visit_program getBinding count i body st
  = fold_left process (program_functions i body) st.
Proof using Type.
  revert i st. induction body as [|s rest IH]; intros i st; [reflexivity|].
  simpl. rewrite fold_left_app, IH. f_equal.
  unfold visit_statement, statement_functions.
  destruct (statement s); try reflexivity.
  apply visit_declarators_fold.
Qed.

Lemma index_loop_absent starts p i index :
  p ∉ starts -> index_loop starts p i index = index.
Proof using Type.
  revert i index. induction starts as [|s rest IH]; intros i index H;
    [reflexivity|].
  simpl. destruct (Nat.eqb s p) eqn:E.
  - apply Nat.eqb_eq in E. subst s. exfalso. apply H. constructor.
  - apply IH. intros Hin. apply H. constructor. exact Hin.
Qed.

Lemma index_loop_found starts p k i index :
  NoDup starts -> nth_error starts k = Some p ->
  index_loop starts p i index = i + k + 1.
Proof using Type.
  revert k i index. induction starts as [|s rest IH]; intros k i index Hnd Hk.
  - destruct k; discriminate.
  - inversion Hnd as [|? ? Hnot Hrest]; subst. simpl. destruct k as [|k].
    + simpl in Hk. inversion Hk; subst. rewrite Nat.eqb_refl.
      rewrite index_loop_absent by exact Hnot. lia.
    + simpl in Hk. destruct (Nat.eqb s p) eqn:E.
      * apply Nat.eqb_eq in E. subst s. exfalso. apply Hnot.
        apply list_elem_of_In. eapply nth_error_In. exact Hk.
      * rewrite (IH k (S i) index Hrest Hk). lia.
Qed.

Lemma names_app fs gs : names (fs ++ gs) = names fs ++ names gs.
Proof using Type. unfold names. apply omap_app. Qed.

Lemma prefix_end_cons f fs index :
  prefix_end (f :: fs) index = prefix_end fs (S (fst (fst f))).
Proof using Type.
  unfold prefix_end. simpl map.
  generalize (map (fun f0 : ProgramFunction => S (fst (fst f0))) fs).
  generalize (S (fst (fst f))). intros a l. revert a index.
  induction l as [|b l IH]; intros a index; [reflexivity|].
  change (List.last (a :: b :: l) index) with (List.last (b :: l) index).
  rewrite (IH b index).
  destruct l; [reflexivity|]. symmetry. apply (IH b a).
Qed.

Lemma process_other st f : isDecoder f = false -> process st f = st.
Proof using Type.
  destruct f as [[i j] [n|]]; unfold process, processFunction, isDecoder;
    simpl; [|reflexivity].
  destruct (getBinding i j n) as [binding|]; [|reflexivity].
  intros ->. reflexivity.
Qed.

Lemma process_decoder body st f :
  NoDup (map start body) -> declared_in_place body ->
  In f (program_functions 0 body) -> isDecoder f = true ->
  process st f
  = {| decryptFnList := decryptFnList st ++ names [f];
       index := S (fst (fst f)) |}.
Proof using Type.
  intros Hnd Hown Hf.
  destruct f as [[i j] [n|]]; unfold process, processFunction, isDecoder;
    simpl; [|discriminate].
  destruct (getBinding i j n) as [binding|] eqn:Hb; [|discriminate].
  intros ->.
  destruct (Hown i j n binding Hf Hb) as [s [Hs ->]].
  rewrite (index_loop_found (map start body) (start s) i 0 (index st) Hnd)
    by (rewrite nth_error_map, Hs; reflexivity).
  replace (0 + i + 1) with (S i) by lia. reflexivity.
Qed.

Lemma process_fold body fs st :
  NoDup (map start body) -> declared_in_place body ->
  (forall f, In f fs -> In f (program_functions 0 body)) ->
  fold_left process fs st
  = {| decryptFnList := decryptFnList st ++ names (List.filter isDecoder fs);
       index := prefix_end (List.filter isDecoder fs) (index st) |}.
Proof using Type.
  intros Hnd Hown. revert st.
  induction fs as [|f rest IH]; intros st Hin.
  - simpl. unfold names, prefix_end. simpl. rewrite app_nil_r.
    destruct st; reflexivity.
  - simpl fold_left. rewrite IH by (intros g Hg; apply Hin; right; exact Hg).
    simpl List.filter. destruct (isDecoder f) eqn:Hd.
    + rewrite (process_decoder body st f Hnd Hown) by (auto using in_eq).
      rewrite prefix_end_cons. cbn [decryptFnList index].
      change (f :: List.filter isDecoder rest)
        with ([f] ++ List.filter isDecoder rest).
      rewrite names_app, app_assoc. reflexivity.
    + rewrite (process_other st f Hd). reflexivity.
Qed.

Lemma findDecryptFnByCallCount_decoders (isRemove : bool) (body : list Located)
  (Hstarts : NoDup (map start body))
  (Hplace : declared_in_place body) :
  findDecryptFnByCallCount getBinding generator count isRemove [] body
  = Some (generator
            (map statement (firstn (prefix_end (decoders body) 0) body)),
          {| decryptFnList := names (decoders body);
             index := prefix_end (decoders body) 0 |},
          if isRemove then skipn (prefix_end (decoders body) 0) body
          else body).
Proof using Type.
  unfold findDecryptFnByCallCount.
  rewrite visit_program_fold.
  rewrite (process_fold body (program_functions 0 body) _ Hstarts Hplace)
    by (intros f Hf; exact Hf).
  reflexivity.
Qed.

End Decoders.

Lemma names_decoders getBinding count body n :
  In n (names (decoders getBinding count body))
  <-> exists i j, In (i, j, Some n) (program_functions 0 body)
                  /\ isDecoder getBinding count (i, j, Some n) = true.
Proof.
  unfold names, decoders. rewrite <- list_elem_of_In, list_elem_of_omap. split.
  - intros [[[i j] name] [Hf Hn]]. simpl in Hn. subst name.
    apply list_elem_of_In, filter_In in Hf. exists i, j. exact Hf.
  - intros [i [j Hf]]. exists (i, j, Some n). split; [|reflexivity].
    apply list_elem_of_In, filter_In. exact Hf.
Qed.

(** The statement a function stands in. *)
Definition statement_index (f : ProgramFunction) : nat := fst (fst f).

Lemma declarator_functions_index i j ds :
  Forall (fun f => statement_index f = i) (declarator_functions i j ds).
Proof.
  revert j. induction ds as [|d ds IH]; intros j; [constructor|].
  destruct d as [declared [init|]]; simpl; [|apply IH].
  destruct init; simpl; try apply IH. constructor; [reflexivity|apply IH].
Qed.

Lemma statement_functions_index i s :
  Forall (fun f => statement_index f = i) (statement_functions i s).
Proof.
  destruct s; simpl; try constructor; try reflexivity; try constructor.
  apply declarator_functions_index.
Qed.

(** The functions are listed in the order of their statements, from
    statement [k] on. *)
Fixpoint ordered_from (k : nat) (fs : list ProgramFunction) : Prop :=
  match fs with
  | [] => True
  | f :: rest => k <= statement_index f /\ ordered_from (statement_index f) rest
  end.

Lemma ordered_from_weaken k k' fs :
  k' <= k -> ordered_from k fs -> ordered_from k' fs.
Proof. destruct fs; simpl; [auto|]. intros Hk [H1 H2]. split; [lia|exact H2]. Qed.

Lemma ordered_from_app i here rest :
  Forall (fun f => statement_index f = i) here ->
  ordered_from i rest -> ordered_from i (here ++ rest).
Proof.
  induction 1 as [|f fs Hf _ IH]; intros Hrest; [exact Hrest|].
  simpl. split; [lia|]. rewrite Hf. apply IH. exact Hrest.
Qed.

Lemma program_functions_ordered i body :
  ordered_from i (program_functions i body).
Proof.
  revert i. induction body as [|s rest IH]; intros i; [exact I|].
  simpl. apply ordered_from_app; [apply statement_functions_index|].
  apply (ordered_from_weaken (S i)); [lia|apply IH].
Qed.

(** The functions the method looks at, read off the program: the function
    declaration that is statement [i] of the program, under its name; and
    the function expression that initialises declarator [j] of the variable
    declaration that is statement [i], under its own name when it has one,
    and under the identifier the declarator declares when it has none.  The
    binding counted is the one of that name: for [var a = function b(){}]
    it is the binding of [b], not the one of [a].  A function expression
    without a name that initialises a pattern has no name to count. *)
Inductive program_function (body : list Located)
  : nat -> nat -> option string -> Prop :=
| function_declaration i s id params fbody :
    nth_error body i = Some s ->
    statement s = FunctionDeclaration id params fbody ->
    program_function body i 0 (Some id)
| function_expression_named i j s kind ds declared own params fbody :
    nth_error body i = Some s ->
    statement s = VariableDeclaration kind ds ->
    nth_error ds j
    = Some (VariableDeclarator declared
              (Some (FunctionExpression (Some own) params fbody))) ->
    program_function body i j (Some own)
| function_expression_anonymous i j s kind ds name params fbody :
    nth_error body i = Some s ->
    statement s = VariableDeclaration kind ds ->
    nth_error ds j
    = Some (VariableDeclarator (Identifier name)
              (Some (FunctionExpression None params fbody))) ->
    program_function body i j (Some name)
| function_expression_pattern i j s kind ds declared params fbody :
    nth_error body i = Some s ->
    statement s = VariableDeclaration kind ds ->
    nth_error ds j
    = Some (VariableDeclarator declared
              (Some (FunctionExpression None params fbody))) ->
    isIdentifier declared = false ->
    program_function body i j None.

Lemma declarator_functions_In i0 j0 ds i j name :
  In (i, j, name) (declarator_functions i0 j0 ds)
  <-> i = i0
      /\ exists k declared id params fbody,
          j = j0 + k
          /\ nth_error ds k
             = Some (VariableDeclarator declared
                       (Some (FunctionExpression id params fbody)))
          /\ name = fnName_of id declared.
Proof.
  revert j0. induction ds as [|d rest IH]; intros j0.
  - simpl. split; [intros []|].
    intros (_ & k & ? & ? & ? & ? & _ & H & _). destruct k; discriminate H.
  - assert (In (i, j, name) (declarator_functions i0 (S j0) rest)
            <-> i = i0
                /\ exists k declared id params fbody,
                    j = j0 + S k
                    /\ nth_error (d :: rest) (S k)
                       = Some (VariableDeclarator declared
                                 (Some (FunctionExpression id params fbody)))
                    /\ name = fnName_of id declared) as Hrest.
    { rewrite IH. split; intros (Hi & k & a & b & c & e & Hj & Hk & Hn);
        (split; [exact Hi|]); exists k, a, b, c, e;
        (split; [lia|]); auto. }
    assert (forall P : Prop,
               (P <-> i = i0 /\ j = j0
                      /\ exists declared id params fbody,
                          d = VariableDeclarator declared
                                (Some (FunctionExpression id params fbody))
                          /\ name = fnName_of id declared) ->
               (P \/ In (i, j, name) (declarator_functions i0 (S j0) rest)
                <-> i = i0
                    /\ exists k declared id params fbody,
                        j = j0 + k
                        /\ nth_error (d :: rest) k
                           = Some (VariableDeclarator declared
                                     (Some (FunctionExpression id params fbody)))
                        /\ name = fnName_of id declared)) as Hsplit.
    { intros P HP. rewrite HP, Hrest. split.
      - intros [(Hi & Hj & a & b & c & e & Hd & Hn)
               |(Hi & k & a & b & c & e & Hj & Hk & Hn)].
        + split; [exact Hi|]. exists 0, a, b, c, e.
          split; [lia|]. split; [simpl; congruence|exact Hn].
        + split; [exact Hi|]. exists (S k), a, b, c, e. auto.
      - intros (Hi & k & a & b & c & e & Hj & Hk & Hn). destruct k as [|k].
        + left. split; [exact Hi|]. split; [lia|]. exists a, b, c, e.
          simpl in Hk. split; [congruence|exact Hn].
        + right. split; [exact Hi|]. exists k, a, b, c, e. auto. }
    assert ((False <-> i = i0 /\ j = j0
                       /\ exists declared id params fbody,
                           d = VariableDeclarator declared
                                 (Some (FunctionExpression id params fbody))
                           /\ name = fnName_of id declared) ->
            In (i, j, name) (declarator_functions i0 (S j0) rest)
            <-> i = i0
                /\ exists k declared id params fbody,
                    j = j0 + k
                    /\ nth_error (d :: rest) k
                       = Some (VariableDeclarator declared
                                 (Some (FunctionExpression id params fbody)))
                    /\ name = fnName_of id declared) as Hskip.
    { intros HF. rewrite <- (Hsplit False HF). tauto. }
    destruct d as [declared [init|]];
      [destruct init as [ | | | | | | | | | | | | | | | |id params fbody]|];
      cbn [declarator_functions];
      try (apply Hskip; split; [intros []|];
           intros (_ & _ & ? & ? & ? & ? & H & _); discriminate H).
    cbn [In]. apply Hsplit. split.
    + intros [= <- <- <-]. repeat split. eauto 10.
    + intros (-> & -> & a & b & c & e & [= <- <- <- <-] & ->). reflexivity.
Qed.

Lemma program_functions_In i0 body i j name :
  In (i, j, name) (program_functions i0 body)
  <-> exists k s,
      i = i0 + k /\ nth_error body k = Some s
      /\ In (i, j, name) (statement_functions i (statement s)).
Proof.
  revert i0. induction body as [|s0 rest IH]; intros i0.
  - simpl. split; [intros []|]. intros (k & s & _ & H & _).
    destruct k; discriminate H.
  - cbn [program_functions]. rewrite in_app_iff, IH. split.
    + intros [H|(k & s & Hi & Hk & H)].
      * exists 0, s0. assert (i = i0) as ->.
        { pose proof (statement_functions_index i0 (statement s0)) as Hall.
          rewrite List.Forall_forall in Hall. exact (Hall _ H). }
        split; [lia|]. split; [reflexivity|exact H].
      * exists (S k), s. split; [lia|]. split; [exact Hk|exact H].
    + intros (k & s & Hi & Hk & H). destruct k as [|k].
      * left. simpl in Hk. injection Hk as <-.
        replace i0 with i by lia. exact H.
      * right. exists k, s. split; [lia|]. split; [exact Hk|exact H].
Qed.

Lemma program_functions_function body i j name :
  In (i, j, name) (program_functions 0 body) <-> program_function body i j name.
Proof.
  rewrite program_functions_In. split.
  - intros (k & s & Hi & Hk & H). simpl in Hi. subst k.
    destruct (statement s) eqn:Hs; try (destruct H; fail).
    + cbn [statement_functions] in H.
      apply declarator_functions_In in H.
      destruct H as (_ & k & declared & id & params & fbody & -> & Hk' & ->).
      simpl. destruct id as [own|].
      * eapply function_expression_named; eauto.
      * destruct declared;
          try (eapply function_expression_pattern; eauto; fail).
        eapply function_expression_anonymous; eauto.
    + destruct H as [[= <- <-]|[]].
      eapply function_declaration; eauto.
  - intros H. destruct H as
      [i s id params fbody Hs Hst
      |i j s kind ds declared own params fbody Hs Hst Hd
      |i j s kind ds name params fbody Hs Hst Hd
      |i j s kind ds declared params fbody Hs Hst Hd Hnot];
      exists i, s; (split; [reflexivity|]); (split; [exact Hs|]);
      rewrite Hst; cbn [statement_functions]; [left; reflexivity| | | ];
      apply declarator_functions_In; (split; [reflexivity|]);
      eexists j, _, _, _, _; (split; [reflexivity|]); (split; [exact Hd|]);
      try reflexivity.
    destruct declared; try reflexivity; discriminate Hnot.
Qed.

Lemma ordered_from_filter (P : ProgramFunction -> bool) m fs :
  ordered_from m fs -> ordered_from m (List.filter P fs).
Proof.
  revert m. induction fs as [|f rest IH]; intros m; [auto|].
  intros [Hf Hrest]. simpl. destruct (P f).
  - split; [exact Hf|]. apply IH. exact Hrest.
  - apply (ordered_from_weaken (statement_index f)); [exact Hf|].
    apply IH. exact Hrest.
Qed.

Lemma prefix_end_ge m fs k :
  ordered_from m fs -> k <= S m -> k <= prefix_end fs k.
Proof.
  revert m k. induction fs as [|f rest IH]; intros m k; [reflexivity|].
  intros [Hf Hrest] Hk. rewrite prefix_end_cons.
  pose proof (IH (statement_index f) (S (statement_index f)) Hrest
                (Nat.le_refl _)) as H.
  unfold statement_index in *. lia.
Qed.

Lemma prefix_end_above m fs k :
  ordered_from m fs ->
  forall f, In f fs -> statement_index f < prefix_end fs k.
Proof.
  revert m k. induction fs as [|g rest IH]; intros m k; [intros _ f []|].
  intros [Hg Hrest] f [<-|Hf]; rewrite prefix_end_cons.
  - pose proof (prefix_end_ge (statement_index g) rest
                  (S (statement_index g)) Hrest (Nat.le_refl _)) as H.
    unfold statement_index in *. lia.
  - apply (IH (statement_index g)); assumption.
Qed.

Lemma prefix_end_attained fs k :
  fs <> [] -> exists f, In f fs /\ prefix_end fs k = S (statement_index f).
Proof.
  revert k. induction fs as [|g rest IH]; intros k H; [congruence|].
  rewrite prefix_end_cons. destruct rest as [|h rest].
  - exists g. split; [left; reflexivity|reflexivity].
  - destruct (IH (S (fst (fst g)))) as (f & Hf & E); [discriminate|].
    exists f. split; [right; exact Hf|exact E].
Qed.

Lemma isDecoder_binding getBinding count i j name :
  isDecoder getBinding count (i, j, name) = true
  <-> exists n binding,
      name = Some n /\ getBinding i j n = Some binding
      /\ count <= length (referencePaths binding).
Proof.
  unfold isDecoder. split.
  - destruct name as [n|]; [|discriminate].
    destruct (getBinding i j n) as [binding|] eqn:Hb; [|discriminate].
    intros H. apply Nat.leb_le in H. exists n, binding.
    split; [reflexivity|]. split; [exact Hb|exact H].
  - intros (n & binding & -> & -> & H). apply Nat.leb_le. exact H.
Qed.


(** [var arr = ["a"]; function dec(i) { return arr[i]; }
    var other = function () {}; f(dec(0), dec(0));] *)
Definition setup_program : list Located :=
  [ {| start := 0;
       statement :=
         VariableDeclaration "var"
           [VariableDeclarator (Identifier "arr")
              (Some (ArrayExpression [StringLiteral "a"]))] |};
    {| start := 18;
       statement :=
         FunctionDeclaration "dec" ["i"]
           [ReturnStatement
              (Some (MemberExpression (Identifier "arr") (Identifier "i") true))] |};
    {| start := 52;
       statement :=
         VariableDeclaration "var"
           [VariableDeclarator (Identifier "other")
              (Some (FunctionExpression None [] []))] |};
    {| start := 80;
       statement :=
         ExpressionStatement
           (CallExpression (Identifier "f")
              [CallExpression (Identifier "dec") [NumericLiteral 0];
               CallExpression (Identifier "dec") [NumericLiteral 0]]) |} ].

(** [dec] is referenced twice, [other] never. *)
Definition setup_bindings (i j : nat) (n : string) : option Binding :=
  if Nat.eqb i 1 && String.eqb n "dec" then
    Some {| constant := true; constantViolations := [];
            referencePaths := [1; 2];
            declaration := Some (18, map start setup_program) |}
  else if Nat.eqb i 2 && String.eqb n "other" then
    Some {| constant := true; constantViolations := [];
            referencePaths := [];
            declaration := Some (52, map start setup_program) |}
  else None.

Lemma setup_program_starts : NoDup (map start setup_program).
Proof.
  apply NoDup_ListNoDup.
  repeat (apply List.NoDup_cons; [simpl; lia|]). apply List.NoDup_nil.
Qed.

Lemma setup_program_declared : declared_in_place setup_bindings setup_program.
Proof.
  intros i j n binding Hin Hb. simpl in Hin.
  destruct Hin as [E | [E | []]]; inversion E; subst; vm_compute in Hb;
    inversion Hb; subst; eexists; split; reflexivity.
Qed.

(** [var arr = ["a"]; var dec = function (i) { return arr[i]; };
    var a = function b() { return b(b); }; var c = function d() {};
    f(dec(0), dec(0), c, c, c);] *)
Definition expressions_program : list Located :=
  [ {| start := 0;
       statement :=
         VariableDeclaration "var"
           [VariableDeclarator (Identifier "arr")
              (Some (ArrayExpression [StringLiteral "a"]))] |};
    {| start := 18;
       statement :=
         VariableDeclaration "var"
           [VariableDeclarator (Identifier "dec")
              (Some
                 (FunctionExpression None ["i"]
                    [ReturnStatement
                       (Some
                          (MemberExpression (Identifier "arr")
                             (Identifier "i") true))]))] |};
    {| start := 60;
       statement :=
         VariableDeclaration "var"
           [VariableDeclarator (Identifier "a")
              (Some
                 (FunctionExpression (Some "b") []
                    [ReturnStatement
                       (Some
                          (CallExpression (Identifier "b")
                             [Identifier "b"]))]))] |};
    {| start := 100;
       statement :=
         VariableDeclaration "var"
           [VariableDeclarator (Identifier "c")
              (Some (FunctionExpression (Some "d") [] []))] |};
    {| start := 125;
       statement :=
         ExpressionStatement
           (CallExpression (Identifier "f")
              [CallExpression (Identifier "dec") [NumericLiteral 0];
               CallExpression (Identifier "dec") [NumericLiteral 0];
               Identifier "c"; Identifier "c"; Identifier "c"]) |} ].

(** [dec] is referenced twice; [b] is referenced twice, inside the function
    that bears the name, and [a] never; [c] is referenced three times and
    [d] never. *)
Definition expressions_bindings (i j : nat) (n : string) : option Binding :=
  let bound (declared : nat) (references : list Path) :=
    Some {| constant := true; constantViolations := [];
            referencePaths := references;
            declaration := Some (declared, map start expressions_program) |} in
  if String.eqb n "dec" then bound 18 [1; 2]
  else if String.eqb n "b" then (if Nat.eqb i 2 then bound 60 [3; 4] else None)
  else if String.eqb n "a" then bound 60 []
  else if String.eqb n "d" then (if Nat.eqb i 3 then bound 100 [] else None)
  else if String.eqb n "c" then bound 100 [5; 6; 7]
  else None.

Lemma expressions_program_starts : NoDup (map start expressions_program).
Proof.
  apply NoDup_ListNoDup.
  repeat (apply List.NoDup_cons; [simpl; lia|]). apply List.NoDup_nil.
Qed.

Lemma expressions_program_declared :
  declared_in_place expressions_bindings expressions_program.
Proof.
  intros i j n binding Hin Hb. simpl in Hin.
  destruct Hin as [E | [E | [E | []]]]; inversion E; subst; vm_compute in Hb;
    inversion Hb; subst; eexists; split; reflexivity.
Qed.


(** Once decoders are known the method returns at once: no code, and the
    body is not touched. *)
Lemma findDecryptFnByCallCount_known getBinding generator count isRemove n l body :
  findDecryptFnByCallCount getBinding generator count isRemove (n :: l) body
  = None.
Proof. reflexivity. Qed.

(** ** [replaceConstant] *)

Definition is_literal (e : expr) : bool :=
  isStringLiteral e || isNumericLiteral e.

(** The slots after [refs.forEach(r => r.replaceWith(value))]. *)
Definition replaced (value : Obj) (refs : list Path) (s : gmap Path Obj)
  : gmap Path Obj :=
  fold_left (fun s r => <[r := value]> s) refs s.

Lemma replaced_lookup value refs s x :
  replaced value refs s !! x = if decide (x ∈ refs) then Some value else s !! x.
Proof.
  unfold replaced. revert s. induction refs as [|r rest IH]; intros s; simpl.
  - destruct (decide (x ∈ [])) as [H|_]; [inversion H|reflexivity].
  - rewrite IH. destruct (decide (x ∈ rest)) as [H|H].
    + rewrite decide_True by (right; exact H). reflexivity.
    + destruct (decide (x = r)) as [->|Hx].
      * rewrite lookup_insert_eq, decide_True by left. reflexivity.
      * rewrite lookup_insert_ne by congruence.
        rewrite decide_False; [reflexivity|].
        intros Hin. inversion Hin; subst; contradiction.
Qed.

Lemma replaceWith_fold value refs a :
  (forall r, r ∈ refs -> is_Some (slots a !! r)) ->
  fold_left (replaceWith value) refs (Some a)
  = Some {| objects := objects a; slots := replaced value refs (slots a);
            next := next a |}.
Proof.
  revert a. induction refs as [|r rest IH]; intros a H.
  - destruct a; reflexivity.
  - simpl. destruct (H r) as [o Ho]; [left|]. rewrite Ho.
    rewrite IH; [reflexivity|].
    intros r' Hr'. simpl. apply lookup_insert_is_Some'. right.
    apply H. right. exact Hr'.
Qed.

Section ConstantBindings.

Variable getBinding : Path -> string -> option Binding.
(** The tree the pass starts from. *)
Variable ast : Ast.

(** The references the visitor at [q] rewrites, when the node at [q] has
    the name [name]: those of a binding that is constant and has no
    constant violation. *)
Definition binding_references (q : Path) (name : option string)
  : option (list Path) :=
  match name with
  | Some m =>
      match getBinding q m with
      | Some b =>
          if constant b && Nat.eqb (length (constantViolations b)) 0
          then Some (referencePaths b)
          else None
      | None => None
      end
  | None => None
  end.

(** What a declarator or assignment of the tree has the pass look at: the
    path of its initialiser or right-hand side, and the references of its
    binding. *)
Definition target (q : Path) : option (Path * list Path) :=
  match node_at ast q with
  | Some (Declarator name (Some y)) => pair y <$> binding_references q name
  | Some (Assignment name y) => pair y <$> binding_references q name
  | _ => None
  end.

Definition references (q : Path) : list Path :=
  match target q with
  | Some (_, refs) => refs
  | None => []
  end.

(** The slot of [x] holds an identifier in the tree. *)
Definition identifier_at (x : Path) : Prop :=
  exists o m, slots ast !! x = Some o
              /\ objects ast !! o = Some (Expression (Identifier m)).

(** The object [o] of the tree is a string or numeric literal. *)
Definition literal (o : Obj) : Prop :=
  exists e, objects ast !! o = Some (Expression e) /\ is_literal e = true.

Lemma replaceConstantVariable_references q name y value a :
  replaceConstantVariable getBinding q name y value a
  = match binding_references q name with
    | Some refs =>
        match fold_left (replaceWith value) refs (Some a) with
        | Some a' => Some (remove q y a')
        | None => None
        end
    | None => Some a
    end.
Proof using Type.
  unfold replaceConstantVariable, binding_references.
  destruct name as [m|]; [|reflexivity].
  destruct (getBinding q m) as [b|]; [|reflexivity].
  destruct (constant b && Nat.eqb (length (constantViolations b)) 0);
    reflexivity.
Qed.

(** The visit of a path whose slot still holds the node of the tree. *)
Lemma visit_initial a q :
  objects a = objects ast -> slots a !! q = slots ast !! q ->
  replaceConstant_visit getBinding (Some a) q
  = match target q with
    | Some (y, refs) =>
        match literal_object a y with
        | Some value =>
            match fold_left (replaceWith value) refs (Some a) with
            | Some a' => Some (remove q y a')
            | None => None
            end
        | None => Some a
        end
    | None => Some a
    end.
Proof using Type.
  intros Hobj Hq. unfold replaceConstant_visit, target, node_at.
  rewrite Hq, Hobj. destruct (slots ast !! q) as [o|]; [|reflexivity].
  destruct (objects ast !! o) as [[e|name [y|]|name y]|]; try reflexivity.
  - destruct (binding_references q name) as [refs|] eqn:E; simpl;
      destruct (literal_object a y) as [value|];
      rewrite ?replaceConstantVariable_references, ?E; reflexivity.
  - destruct (binding_references q name) as [refs|] eqn:E; simpl;
      destruct (literal_object a y) as [value|];
      rewrite ?replaceConstantVariable_references, ?E; reflexivity.
Qed.

(** The visit of a path that left the tree, or whose slot holds an
    expression, does nothing. *)
Lemma visit_changed a q :
  objects a = objects ast ->
  slots a !! q = None
  \/ (exists o e, slots a !! q = Some o
                  /\ objects ast !! o = Some (Expression e)) ->
  replaceConstant_visit getBinding (Some a) q = Some a.
Proof using Type.
  intros Hobj [Hq | [o [e [Hq Ho]]]]; unfold replaceConstant_visit, node_at;
    rewrite Hq; [reflexivity|].
  rewrite Hobj, Ho. reflexivity.
Qed.


(** The paths the traversal meets. *)
Variable order : list Path.

(** Babel's scope data on the tree: the reference paths of a binding hold
    identifiers, and no identifier is a reference of two constant
    bindings. *)
Hypothesis references_identifiers :
  forall q r, q ∈ order -> r ∈ references q -> identifier_at r.
Hypothesis references_disjoint :
  forall q q' r, q ∈ order -> q' ∈ order -> q <> q' ->
                 r ∈ references q -> r ∉ references q'.

Definition literal_at (y : Path) : Prop :=
  exists o, slots ast !! y = Some o /\ literal o.

Definition written_by (done : list Path) (x : Path) : Prop :=
  exists q, q ∈ done /\ x ∈ references q.

Definition removes (q x : Path) : Prop :=
  exists y refs, target q = Some (y, refs) /\ (x = q \/ x = y).

Definition removed_by (done : list Path) (x : Path) : Prop :=
  exists q y refs, q ∈ done /\ target q = Some (y, refs) /\ (x = q \/ x = y)
                   /\ (literal_at y \/ written_by done y).

(** The slot of [x] once the paths [done] are visited: as in the tree, or
    removed with a declaration, or rewritten to a literal. *)
Definition slot_state (done : list Path) (a : Ast) (x : Path) : Prop :=
  slots a !! x = slots ast !! x
  \/ (slots a !! x = None /\ removed_by done x)
  \/ (written_by done x /\ exists o, slots a !! x = Some o /\ literal o).

Definition visited (done : list Path) (a : Ast) : Prop :=
  objects a = objects ast /\ next a = next ast
  /\ forall x, slot_state done a x.

(** What visiting [todo] does to the slots. *)
Definition frame (todo : list Path) (a a' : Ast) : Prop :=
  forall x,
    slots a' !! x = slots a !! x
    \/ (slots a' !! x = None /\ exists q, q ∈ todo /\ removes q x)
    \/ written_by todo x.

Lemma written_by_mono done done' x :
  (forall q, q ∈ done -> q ∈ done') -> written_by done x -> written_by done' x.
Proof using Type. intros H [q [Hq Hx]]. exists q. auto. Qed.

Lemma removed_by_mono done done' x :
  (forall q, q ∈ done -> q ∈ done') -> removed_by done x -> removed_by done' x.
Proof using Type.
  intros H [q [y [refs [Hq [Ht [Hx Hy]]]]]]. exists q, y, refs.
  repeat split; auto. destruct Hy as [Hy|Hy]; [left; exact Hy|right].
  eapply written_by_mono; eauto.
Qed.

Lemma visited_mono done done' a :
  (forall q, q ∈ done -> q ∈ done') -> visited done a -> visited done' a.
Proof using Type.
  intros H [Hobj [Hnext Hs]]. repeat split; auto. intros x.
  destruct (Hs x) as [E | [[E R] | [W L]]].
  - left. exact E.
  - right. left. split; [exact E|]. eapply removed_by_mono; eauto.
  - right. right. split; [|exact L]. eapply written_by_mono; eauto.
Qed.

Lemma identifier_not_literal x : identifier_at x -> ~ literal_at x.
Proof using Type.
  intros [o [m [Hx Ho]]] [o' [Hx' [e [He Hl]]]]. rewrite Hx in Hx'.
  inversion Hx'; subst o'. rewrite Ho in He. inversion He; subst e.
  discriminate.
Qed.

Lemma identifier_no_target x : identifier_at x -> target x = None.
Proof using Type.
  intros [o [m [Hx Ho]]]. unfold target, node_at. rewrite Hx, Ho. reflexivity.
Qed.

Lemma references_target q r :
  r ∈ references q -> exists y, target q = Some (y, references q).
Proof using Type.
  unfold references. destruct (target q) as [[y refs]|]; [eauto|].
  intros H. inversion H.
Qed.

Lemma written_elsewhere done q r :
  (forall q', q' ∈ done -> q' ∈ order) -> q ∈ order -> q ∉ done ->
  r ∈ references q -> ~ written_by done r.
Proof using references_disjoint.
  intros Hdone Hq Hnew Hr [q' [Hq' Hr']].
  apply (references_disjoint q q' r); auto. intros ->. contradiction.
Qed.

(** A reference of a path not yet visited is still as in the tree. *)
Lemma reference_untouched done a q r :
  visited done a -> (forall q', q' ∈ done -> q' ∈ order) -> q ∈ order ->
  q ∉ done -> r ∈ references q -> slots a !! r = slots ast !! r.
Proof using references_identifiers references_disjoint.
  intros [_ [_ Hs]] Hdone Hq Hnew Hr.
  pose proof (references_identifiers q r Hq Hr) as Hid.
  pose proof (written_elsewhere done q r Hdone Hq Hnew Hr) as Hw.
  destruct (Hs r) as [E | [[_ R] | [W _]]]; [exact E| |contradiction].
  destruct R as [q' [y [refs [Hq' [Ht [[->| ->] Hy]]]]]].
  - rewrite (identifier_no_target _ Hid) in Ht. discriminate.
  - destruct Hy as [Hy|Hy]; [|contradiction].
    exfalso. exact (identifier_not_literal _ Hid Hy).
Qed.

Lemma literal_object_Some a y value :
  objects a = objects ast -> literal_object a y = Some value ->
  slots a !! y = Some value /\ literal value.
Proof using Type.
  intros Hobj. unfold literal_object, literal.
  destruct (slots a !! y) as [o|]; [|discriminate].
  rewrite Hobj. destruct (objects ast !! o) as [[e| |]|] eqn:Ho; try discriminate.
  fold (is_literal e). destruct (is_literal e) eqn:He; [|discriminate].
  intros H. inversion H; subst. split; [reflexivity|]. exists e. auto.
Qed.

Lemma remove_lookup q y a x :
  slots (remove q y a) !! x
  = if decide (x = q \/ x = y) then None else slots a !! x.
Proof using Type.
  unfold remove. simpl. destruct (decide (x = q \/ x = y)) as [[->| ->]|H].
  - destruct (decide (q = y)) as [->|Hn].
    + apply lookup_delete_eq.
    + rewrite lookup_delete_ne by congruence. apply lookup_delete_eq.
  - apply lookup_delete_eq.
  - rewrite !lookup_delete_ne by (intros ->; apply H; auto). reflexivity.
Qed.


(** One visit keeps the invariant, and does not throw. *)
Lemma visit_step done a q :
  visited done a -> (forall q', q' ∈ done -> q' ∈ order) -> q ∈ order ->
  q ∉ done ->
  exists a', replaceConstant_visit getBinding (Some a) q = Some a'
             /\ visited (done ++ [q]) a' /\ frame [q] a a'.
Proof using references_identifiers references_disjoint.
  intros Hv Hdone Hq Hnew.
  assert (forall q', q' ∈ done -> q' ∈ done ++ [q]) as Hsub
      by (intros q' H; apply elem_of_app; left; exact H).
  assert (q ∈ done ++ [q]) as Hlast
      by (apply elem_of_app; right; constructor).
  assert (exists a', Some a = Some a' /\ visited (done ++ [q]) a'
                     /\ frame [q] a a') as Hsame.
  { exists a. split; [reflexivity|]. split.
    - eapply visited_mono; eauto.
    - intros x. left. reflexivity. }
  pose proof Hv as [Hobj [Hnext Hs]].
  destruct (Hs q) as [E | [[E _] | [_ [o [E [e [Ho _]]]]]]].
  2: { rewrite (visit_changed a q Hobj) by (left; exact E). exact Hsame. }
  2: { rewrite (visit_changed a q Hobj) by (right; eauto). exact Hsame. }
  rewrite (visit_initial a q Hobj E).
  destruct (target q) as [[y refs]|] eqn:Ht; [|exact Hsame].
  destruct (literal_object a y) as [value|] eqn:Hl; [|exact Hsame].
  destruct (literal_object_Some a y value Hobj Hl) as [Hy Hvalue].
  assert (references q = refs) as Hrefs by (unfold references; rewrite Ht; reflexivity).
  rewrite replaceWith_fold.
  2: { intros r Hr. rewrite <- Hrefs in Hr.
       rewrite (reference_untouched done a q r Hv Hdone Hq Hnew Hr).
       destruct (references_identifiers q r Hq Hr) as [o [m [Hx _]]].
       rewrite Hx. eauto. }
  eexists. split; [reflexivity|].
  assert (literal_at y \/ written_by (done ++ [q]) y) as Hcause.
  { destruct (Hs y) as [Ey | [[Ey _] | [W _]]].
    - left. exists value. rewrite <- Ey. auto.
    - rewrite Ey in Hy. discriminate.
    - right. eapply written_by_mono; eauto. }
  split.
  - split; [exact Hobj|]. split; [exact Hnext|]. intros x.
    unfold slot_state. rewrite remove_lookup. simpl. rewrite replaced_lookup.
    destruct (decide (x = q \/ x = y)) as [Hx|Hx].
    + right. left. split; [reflexivity|]. exists q, y, refs. auto.
    + destruct (decide (x ∈ refs)) as [Hr|Hr].
      * right. right. split; [|eauto]. exists q. rewrite Hrefs. auto.
      * destruct (Hs x) as [Ex | [[Ex R] | [W L]]].
        -- left. exact Ex.
        -- right. left. split; [exact Ex|]. eapply removed_by_mono; eauto.
        -- right. right. split; [|exact L]. eapply written_by_mono; eauto.
  - intros x. rewrite remove_lookup. simpl. rewrite replaced_lookup.
    destruct (decide (x = q \/ x = y)) as [Hx|Hx].
    + right. left. split; [reflexivity|]. exists q. split; [constructor|].
      exists y, refs. auto.
    + destruct (decide (x ∈ refs)) as [Hr|Hr].
      * right. right. exists q. rewrite Hrefs. split; [constructor|exact Hr].
      * left. reflexivity.
Qed.

Lemma frame_trans q rest a a1 a' :
  frame [q] a a1 -> frame rest a1 a' -> frame (q :: rest) a a'.
Proof using Type.
  intros H1 H2 x.
  destruct (H2 x) as [E | [[E [q' [Hq' R]]] | [q' [Hq' W]]]].
  - rewrite E. destruct (H1 x) as [E1 | [[E1 [q' [Hq' R]]] | [q' [Hq' W]]]].
    + left. exact E1.
    + right. left. split; [exact E1|]. exists q'. split; [|exact R].
      apply list_elem_of_singleton in Hq'. subst. left.
    + right. right. exists q'. split; [|exact W].
      apply list_elem_of_singleton in Hq'. subst. left.
  - right. left. split; [exact E|]. exists q'. split; [right; exact Hq'|exact R].
  - right. right. exists q'. split; [right; exact Hq'|exact W].
Qed.

(** The traversal does not throw and keeps the invariant. *)
Lemma visit_fold todo done a :
  visited done a -> (forall q, q ∈ done ++ todo -> q ∈ order) ->
  NoDup (done ++ todo) ->
  exists a', fold_left (replaceConstant_visit getBinding) todo (Some a) = Some a'
             /\ visited (done ++ todo) a' /\ frame todo a a'.
Proof using references_identifiers references_disjoint.
  revert done a. induction todo as [|q rest IH]; intros done a Hv Hin Hnd.
  - exists a. split; [reflexivity|]. rewrite app_nil_r. split; [exact Hv|].
    intros x. left. reflexivity.
  - destruct (visit_step done a q Hv) as [a1 [E1 [Hv1 Hf1]]].
    + intros q' Hq'. apply Hin, elem_of_app. left. exact Hq'.
    + apply Hin, elem_of_app. right. left.
    + apply NoDup_app in Hnd. destruct Hnd as [_ [Hnd _]].
      intros Hq. apply (Hnd q Hq). left.
    + destruct (IH (done ++ [q]) a1 Hv1) as [a' [E' [Hv' Hf']]].
      * rewrite <- app_assoc. exact Hin.
      * rewrite <- app_assoc. exact Hnd.
      * exists a'. cbn [fold_left]. rewrite E1. split; [exact E'|].
        rewrite <- app_assoc in Hv'. split; [exact Hv'|].
        eapply frame_trans; eauto.
Qed.

End ConstantBindings.

Lemma reParse_store_slots (a : Ast) (x : Path) :
  slots (reParse_store a) !! x = (fun _ => next a + x) <$> (slots a !! x).
Proof.
  unfold reParse_store. simpl. rewrite map_lookup_imap.
  destruct (slots a !! x); reflexivity.
Qed.

Lemma reParse_store_objects (a : Ast) (x : Path) :
  objects (reParse_store a) !! (next a + x)
  = (slots a !! x) ≫= (fun o => objects a !! o).
Proof.
  unfold reParse_store. simpl. rewrite lookup_kmap by apply fresh_inj.
  rewrite lookup_omap. reflexivity.
Qed.


(** [let a = "debugger"; f(a);]: the declarator at path 0, its initialiser
    at path 1, the callee at path 2 and the argument at path 3. *)
Definition debugger_ast : Ast :=
  {| objects :=
       <[0 := Declarator (Some "a") (Some 1)]>
         (<[1 := Expression (StringLiteral "debugger")]>
            (<[2 := Expression (Identifier "f")]>
               (<[3 := Expression (Identifier "a")]> ∅)));
     slots := <[0 := 0]> (<[1 := 1]> (<[2 := 2]> (<[3 := 3]> ∅)));
     next := 4 |}.

Definition debugger_binding : Binding :=
  {| constant := true; constantViolations := []; referencePaths := [3];
     declaration := None |}.

Definition debugger_bindings (p : Path) (n : string) : option Binding :=
  if Nat.eqb p 0 && String.eqb n "a" then Some debugger_binding else None.

Lemma debugger_references :
  forall q r, q ∈ [] ++ [0] ->
              r ∈ references debugger_bindings debugger_ast q -> r = 3.
Proof.
  intros q r Hq Hr. apply list_elem_of_singleton in Hq. subst q.
  change (r ∈ [3]) in Hr. apply list_elem_of_singleton in Hr. exact Hr.
Qed.

Lemma debugger_allocated :
  forall o, is_Some (objects debugger_ast !! o) -> o < next debugger_ast.
Proof.
  intros o H. simpl in *.
  repeat (apply lookup_insert_is_Some in H; destruct H as [<-|[_ H]]; [lia|]).
  rewrite lookup_empty in H. destruct H. discriminate.
Qed.


(** What the traversal leaves, before the tree is parsed again: the slot of
    the reference holds the node object of the initialiser itself. *)
Lemma replaceConstant_shares_initialiser :
  exists a,
    fold_left (replaceConstant_visit debugger_bindings) [0] (Some debugger_ast)
    = Some a
    /\ slots debugger_ast !! 1 = Some 1
    /\ slots a !! 3 = Some 1
    /\ slots a !! 0 = None /\ slots a !! 1 = None.
Proof. eexists. repeat split. Qed.

(** After it, [f("debugger");] in node objects of its own. *)
Lemma replaceConstant_debugger :
  exists final,
    replaceConstant debugger_bindings [0] debugger_ast = Some final
    /\ slots final = <[2 := 6]> (<[3 := 7]> ∅)
    /\ objects final
       = <[6 := Expression (Identifier "f")]>
           (<[7 := Expression (StringLiteral "debugger")]> ∅).
Proof. eexists. repeat split. Qed.

(** * More of the code *)

(** ** [sequence]: the handlers beside the splitting of a statement *)

Lemma sequence_expr_UnaryExpression (operator : string) (argument : expr) :
  sequence_expr (UnaryExpression operator argument)
  = UnaryExpression operator (sequence_expr argument).
Proof.
  unfold sequence_expr. cbn [traverse_expr]. simpl enter_expr. cbv iota.
  rewrite !bind_fst. reflexivity.
Qed.

(** X1.  [return void (e1, ..., en);] becomes [e1; ...; en; return;]: all
    the expressions are statements before the [return], which loses its
    argument.  Under another unary operator the comma expression stays. *)
Theorem sequence_return_void :
  (forall es,
      sequence_stmt
        (ReturnStatement (Some (UnaryExpression "void" (SequenceExpression es))))
      = Splice (expressionStatements (map sequence_expr es)
                ++ [ReturnStatement None])) /\
  (forall operator es,
      String.eqb operator "void" = false ->
      sequence_stmt
        (ReturnStatement (Some (UnaryExpression operator (SequenceExpression es))))
      = Same (ReturnStatement
                (Some (UnaryExpression operator
                         (SequenceExpression (map sequence_expr es)))))).
Proof.
  split.
  - intros es. seq_open.
    rewrite sequence_expr_UnaryExpression, sequence_expr_SequenceExpression.
    reflexivity.
  - intros operator es H. seq_open.
    rewrite sequence_expr_UnaryExpression, sequence_expr_SequenceExpression.
    rewrite H. reflexivity.
Qed.

Lemma sequence_return_void_witness :
  sequence_stmt
    (ReturnStatement
       (Some (UnaryExpression "!"
                (SequenceExpression [Identifier "a"; Identifier "b"]))))
  = Same (ReturnStatement
            (Some (UnaryExpression "!"
                     (SequenceExpression [Identifier "a"; Identifier "b"])))).
Proof.
  exact (proj2 sequence_return_void "!" [Identifier "a"; Identifier "b"] eq_refl).
Defined.

(** X2.  A declaration with one declarator whose initialiser is a comma
    expression, standing in the [init] of a [for]: the leading expressions
    become statements before the [for], and the last one stays the
    initialiser, whatever the [test], the [update] and the body are (they
    are left as the pass leaves them in the [for] without its [init]).  A
    declaration with two declarators or more is left as it
    is, as a statement and in the [init] of a [for], whatever its
    initialisers are. *)
Theorem sequence_declaration :
  (forall kind id leading final test update body,
      exists update' body',
        in_list (sequence_stmt (ForStatement None test update body))
        = [ForStatement None (option_map sequence_expr test) update' body']
        /\ in_list
             (sequence_stmt
                (ForStatement
                   (Some (ForInitDeclaration kind
                            [VariableDeclarator id
                               (Some (SequenceExpression
                                        (leading ++ [final])))]))
                   test update body))
           = expressionStatements (map sequence_expr leading)
             ++ [ForStatement
                   (Some (ForInitDeclaration kind
                            [VariableDeclarator (sequence_expr id)
                               (Some (sequence_expr final))]))
                   (option_map sequence_expr test) update' body']) /\
  (forall kind id leading final test body,
      in_list
        (sequence_stmt
           (ForStatement
              (Some (ForInitDeclaration kind
                       [VariableDeclarator id
                          (Some (SequenceExpression (leading ++ [final])))]))
              test None body))
      = expressionStatements (map sequence_expr leading)
        ++ [ForStatement
              (Some (ForInitDeclaration kind
                       [VariableDeclarator (sequence_expr id)
                          (Some (sequence_expr final))]))
              (option_map sequence_expr test) None
              (in_slot (sequence_stmt body))]) /\
  (forall kind d1 d2 ds,
      sequence_exit_stmt (VariableDeclaration kind (d1 :: d2 :: ds))
      = (Same (VariableDeclaration kind (d1 :: d2 :: ds)), 0)
      /\ sequence_exit_init (ForInitDeclaration kind (d1 :: d2 :: ds))
         = (([], ForInitDeclaration kind (d1 :: d2 :: ds)), 0)).
Proof.
  split; [|split].
  - intros. seq_open.
    cbn [exit_init sequence_visitor sequence_exit_init]. rewrite pop_snoc.
    cbn [fst ret]. seq_open. rewrite !in_list_insertBefore. cbn [app].
    for_parts. cbn [fst in_list]. eexists _, _. split; reflexivity.
  - intros. seq_open.
    cbn [exit_init sequence_visitor sequence_exit_init]. rewrite pop_snoc.
    cbn [fst ret]. seq_open.
    destruct (map sequence_expr leading); reflexivity.
  - intros. destruct d1 as [id [[]|]]; split; reflexivity.
Qed.

(** ** [sequence]: what a reported change stands for *)

(** The comma expressions of a tree. *)
Fixpoint commas_expr (e : expr) : nat :=
  match e with
  | ArrayExpression elements => list_sum (map commas_expr elements)
  | UnaryExpression _ argument => commas_expr argument
  | UpdateExpression _ _ argument => commas_expr argument
  | BinaryExpression _ l r => commas_expr l + commas_expr r
  | LogicalExpression _ l r => commas_expr l + commas_expr r
  | AssignmentExpression _ l r => commas_expr l + commas_expr r
  | ConditionalExpression t c a =>
      commas_expr t + commas_expr c + commas_expr a
  | MemberExpression object property _ =>
      commas_expr object + commas_expr property
  | CallExpression callee arguments =>
      commas_expr callee + list_sum (map commas_expr arguments)
  | SequenceExpression expressions =>
      S (list_sum (map commas_expr expressions))
  | FunctionExpression _ _ body => list_sum (map commas_stmt body)
  | _ => 0
  end
with commas_stmt (s : stmt) : nat :=
  match s with
  | ExpressionStatement e => commas_expr e
  | BlockStatement body => list_sum (map commas_stmt body)
  | ReturnStatement argument =>
      match argument with Some e => commas_expr e | None => 0 end
  | ThrowStatement argument => commas_expr argument
  | IfStatement t c a =>
      commas_expr t + commas_stmt c
      + match a with Some s => commas_stmt s | None => 0 end
  | SwitchStatement d cases =>
      commas_expr d + list_sum (map commas_case cases)
  | WhileStatement t body => commas_expr t + commas_stmt body
  | ForStatement init t u body =>
      match init with Some i => commas_init i | None => 0 end
      + match t with Some e => commas_expr e | None => 0 end
      + match u with Some e => commas_expr e | None => 0 end
      + commas_stmt body
  | ForInStatement lhs rhs body =>
      commas_init lhs + commas_expr rhs + commas_stmt body
  | VariableDeclaration _ declarations =>
      list_sum (map commas_declarator declarations)
  | FunctionDeclaration _ _ body => list_sum (map commas_stmt body)
  | EmptyStatement | BreakStatement | ContinueStatement => 0
  end
with commas_case (c : switchCase) : nat :=
  match c with
  | SwitchCase t consequent =>
      match t with Some e => commas_expr e | None => 0 end
      + list_sum (map commas_stmt consequent)
  end
with commas_declarator (d : declarator) : nat :=
  match d with
  | VariableDeclarator id init =>
      commas_expr id + match init with Some e => commas_expr e | None => 0 end
  end
with commas_init (i : forInit) : nat :=
  match i with
  | ForInitDeclaration _ declarations =>
      list_sum (map commas_declarator declarations)
  | ForInitExpression e => commas_expr e
  end.

Definition commas (ast : list stmt) : nat := list_sum (map commas_stmt ast).

Lemma bind_snd {A B : Type} (m : counted A) (k : A -> counted B) :
  snd (bind m k) = snd m + snd (k (fst m)).
Proof. unfold bind. destruct m as [a n]. simpl. destruct (k a). reflexivity. Qed.

(** What a walk keeps: the measure of its result and its count add up to
    the measure of what it was given. *)
Definition keeps {A B : Type} (f : A -> counted B) (before : A -> nat)
  (after : B -> nat) (x : A) : Prop :=
  after (fst (f x)) + snd (f x) = before x.

Lemma mapM_keeps {A B : Type} (f : A -> counted B) (before : A -> nat)
  (after : B -> nat) (l : list A) :
  Forall (keeps f before after) l ->
  list_sum (map after (fst (mapM f l))) + snd (mapM f l)
  = list_sum (map before l).
Proof.
  induction 1 as [|x l Hx _ IH]; [reflexivity|].
  cbn [mapM]. rewrite !bind_fst, !bind_snd. simpl.
  unfold keeps in Hx. lia.
Qed.

Lemma optM_keeps {A B : Type} (f : A -> counted B) (before : A -> nat)
  (after : B -> nat) (o : option A) :
  (forall x, o = Some x -> keeps f before after x) ->
  match fst (optM f o) with Some y => after y | None => 0 end + snd (optM f o)
  = match o with Some x => before x | None => 0 end.
Proof.
  destruct o as [x|]; intros H; [|reflexivity].
  cbn [optM]. rewrite bind_fst, bind_snd. cbn [ret fst snd].
  specialize (H x eq_refl). unfold keeps in H. lia.
Qed.

Lemma option_all_keeps {A B : Type} (f : A -> counted B) (before : A -> nat)
  (after : B -> nat) (o : option A) :
  option_all A (keeps f before after) o ->
  match fst (optM f o) with Some y => after y | None => 0 end + snd (optM f o)
  = match o with Some x => before x | None => 0 end.
Proof.
  intros H. apply optM_keeps. intros x Hx. exact (option_all_Some _ _ H x Hx).
Qed.

Lemma commas_app (l1 l2 : list stmt) : commas (l1 ++ l2) = commas l1 + commas l2.
Proof. unfold commas. rewrite map_app, list_sum_app. reflexivity. Qed.

Lemma commas_concat (ls : list (list stmt)) :
  commas (concat ls) = list_sum (map commas ls).
Proof.
  induction ls as [|l ls IH]; [reflexivity|].
  simpl. rewrite commas_app, IH. reflexivity.
Qed.

Lemma commas_in_list (os : list outcome) :
  commas (concat (map in_list os))
  = list_sum (map (fun o => commas (in_list o)) os).
Proof. rewrite commas_concat, map_map. reflexivity. Qed.

Lemma commas_in_slot (o : outcome) : commas_stmt (in_slot o) = commas (in_list o).
Proof. destruct o; unfold commas; simpl; lia. Qed.

Lemma commas_in_alternate (o : outcome) :
  match in_alternate o with Some s => commas_stmt s | None => 0 end
  = commas (in_list o).
Proof. destruct o as [s|[|s l]]; unfold commas; simpl; lia. Qed.

Lemma commas_insertBefore (hoisted : list stmt) (o : outcome) :
  commas (in_list (insertBefore hoisted o)) = commas hoisted + commas (in_list o).
Proof.
  destruct hoisted as [|s hoisted]; [reflexivity|].
  exact (commas_app (s :: hoisted) (in_list o)).
Qed.

Lemma commas_expressionStatements (es : list expr) :
  commas (expressionStatements es) = list_sum (map commas_expr es).
Proof.
  unfold commas, expressionStatements. rewrite map_map. reflexivity.
Qed.

Lemma commas_pop (es : list expr) :
  list_sum (map commas_expr (snd (pop es)))
  + match fst (pop es) with Some e => commas_expr e | None => 0 end
  = list_sum (map commas_expr es).
Proof.
  destruct es as [|e es] using rev_ind; [reflexivity|].
  rewrite pop_snoc. simpl. rewrite map_app, list_sum_app. simpl. lia.
Qed.

Lemma commas_defined (o : option expr) :
  commas_expr (defined o) = match o with Some e => commas_expr e | None => 0 end.
Proof. destruct o; reflexivity. Qed.

Lemma commas_singleton (s : stmt) : commas [s] = commas_stmt s.
Proof. unfold commas. simpl. lia. Qed.

Definition commas_option (o : option expr) : nat :=
  match o with Some e => commas_expr e | None => 0 end.

Lemma sequence_ForStatement_commas init test update body :
  commas (in_list (fst (sequence_ForStatement init test update body)))
  + snd (sequence_ForStatement init test update body)
  = commas_stmt (ForStatement init test update body).
Proof.
  unfold sequence_ForStatement.
  destruct (match init with
            | Some (ForInitExpression (SequenceExpression expressions)) =>
                (Some (expressionStatements expressions), None, 1)
            | _ => (None, init, 0)
            end) as [[before init1] n1] eqn:H1.
  destruct (match update, body with
            | Some (SequenceExpression expressions), EmptyStatement =>
                let '(u, leading) := pop expressions in
                (Some (defined u), BlockStatement (expressionStatements leading), 1)
            | _, _ => (update, body, 0)
            end) as [[update1 body1] n2] eqn:H2.
  assert (match before with Some l => commas l | None => 0 end
          + match init1 with Some i => commas_init i | None => 0 end + n1
          = match init with Some i => commas_init i | None => 0 end) as Hinit.
  { destruct init as [[k ds|[]]|]; inversion H1; subst; simpl; try lia.
    rewrite commas_expressionStatements. lia. }
  assert (commas_option update1 + commas_stmt body1 + n2
          = commas_option update + commas_stmt body) as Hupdate.
  { destruct update as [[]|]; try (inversion H2; subst; simpl; lia).
    destruct body; try (inversion H2; subst; simpl; lia).
    pose proof (commas_pop expressions) as Hc.
    destruct (pop expressions) as [u leading]. inversion H2; subst.
    simpl in *. rewrite commas_defined.
    fold (commas (expressionStatements leading)).
    rewrite commas_expressionStatements. lia. }
  unfold commas_option in Hupdate.
  destruct before as [l|]; cbn [in_list fst snd];
    rewrite ?commas_app, !commas_singleton; cbn [commas_stmt]; lia.
Qed.

Ltac commas_popped :=
  match goal with
  | |- context [pop ?es] =>
      let Hc := fresh "Hc" in
      pose proof (commas_pop es) as Hc;
      destruct (pop es) as [? ?]; cbn [fst snd] in Hc
  end.

Lemma sequence_exit_stmt_commas (s : stmt) :
  commas (in_list (fst (sequence_exit_stmt s))) + snd (sequence_exit_stmt s)
  = commas_stmt s.
Proof.
  assert (forall x, commas [x] + 0 = commas_stmt x) as Hsame
      by (intros x; rewrite commas_singleton; lia).
  destruct s as [e|b| |[a|]|a| | |t c a|d cs|t b|i t u b|l r b|k ds|i p b];
    try apply Hsame.
  - destruct e; try apply Hsame. cbn [sequence_exit_stmt in_list fst snd].
    rewrite commas_expressionStatements. simpl. lia.
  - destruct a; try apply Hsame.
    + destruct a; try apply Hsame. cbn [sequence_exit_stmt].
      destruct (String.eqb operator "void"); [|apply Hsame].
      cbn [in_list fst snd]. rewrite commas_app, commas_singleton.
      rewrite commas_expressionStatements. simpl. lia.
    + cbn [sequence_exit_stmt]. commas_popped. cbn [in_list fst snd].
      rewrite commas_app, commas_singleton, commas_expressionStatements.
      simpl in *. lia.
  - destruct a; try apply Hsame.
    cbn [sequence_exit_stmt]. commas_popped. cbn [in_list fst snd].
    rewrite commas_app, commas_singleton, commas_expressionStatements.
    cbn [commas_stmt]. rewrite commas_defined. simpl in *. lia.
  - destruct t; try apply Hsame.
    cbn [sequence_exit_stmt]. commas_popped. cbn [in_list fst snd].
    rewrite commas_app, commas_singleton, commas_expressionStatements.
    cbn [commas_stmt]. rewrite commas_defined. simpl in *. lia.
  - destruct d; try apply Hsame.
    cbn [sequence_exit_stmt]. commas_popped. cbn [in_list fst snd].
    rewrite commas_app, commas_singleton, commas_expressionStatements.
    cbn [commas_stmt]. rewrite commas_defined. simpl in *. lia.
  - apply sequence_ForStatement_commas.
  - destruct r; try apply Hsame.
    cbn [sequence_exit_stmt]. commas_popped. cbn [in_list fst snd].
    rewrite commas_app, commas_singleton, commas_expressionStatements.
    cbn [commas_stmt]. rewrite commas_defined. simpl in *. lia.
  - destruct ds as [|[id [[]|]] [|d2 ds]]; try apply Hsame.
    cbn [sequence_exit_stmt]. commas_popped. cbn [in_list fst snd].
    rewrite commas_app, commas_singleton, commas_expressionStatements.
    simpl in *. lia.
Qed.

Lemma sequence_exit_init_commas (i : forInit) :
  commas (fst (fst (sequence_exit_init i)))
  + commas_init (snd (fst (sequence_exit_init i)))
  + snd (sequence_exit_init i)
  = commas_init i.
Proof.
  assert (commas [] + commas_init i + 0 = commas_init i) as Hsame
      by (unfold commas; simpl; lia).
  destruct i as [k ds|e]; try exact Hsame.
  destruct ds as [|[id [[]|]] [|d2 ds]]; try exact Hsame.
  cbn [sequence_exit_init]. commas_popped. cbn [fst snd].
  rewrite commas_expressionStatements. simpl in *. lia.
Qed.

(** A visitor with [exit] handlers only, each of which counts one change
    for every comma expression it takes away: so does the walk. *)
Section Counting.

Variable v : Visitor.
Hypothesis enter_expr_none : forall e, enter_expr v e = None.
Hypothesis enter_stmt_none : forall s, enter_stmt v s = None.
Hypothesis exit_expr_keeps : forall e, keeps (exit_expr v) commas_expr commas_expr e.
Hypothesis exit_stmt_keeps :
  forall s, keeps (exit_stmt v) commas_stmt (fun o => commas (in_list o)) s.
Hypothesis exit_init_keeps :
  forall i,
    keeps (exit_init v) commas_init
      (fun r => commas (fst r) + commas_init (snd r)) i.

Ltac kept_lists :=
  repeat match goal with
  | IH : list_all _ _ ?l |- _ =>
      apply list_all_Forall in IH;
      apply (mapM_keeps _ _ _ l) in IH
  | IH : option_all _ (keeps _ _ _) ?o |- _ => apply option_all_keeps in IH
  end.

Ltac exits :=
  repeat match goal with
  | |- context [exit_expr v ?e] =>
      lazymatch goal with
      | H : keeps (exit_expr v) _ _ e |- _ => fail
      | _ => pose proof (exit_expr_keeps e)
      end
  | |- context [exit_stmt v ?s] =>
      lazymatch goal with
      | H : keeps (exit_stmt v) _ _ s |- _ => fail
      | _ => pose proof (exit_stmt_keeps s)
      end
  end.

Ltac open_expr :=
  intros; unfold keeps; cbn [traverse_expr];
  rewrite enter_expr_none; try unfold walk_body; kept_lists;
  unfold traverse_stmt in *;
  repeat (rewrite ?bind_snd, ?bind_fst; cbn [ret fst snd]); exits;
  unfold keeps in *; cbn [commas_expr] in *;
  repeat change (list_sum (map commas_stmt ?l)) with (commas l) in *;
  rewrite ?commas_in_list in *.

Ltac open_stmt :=
  intros; unfold keeps, traverse_stmt; cbn [walk_stmt];
  rewrite enter_stmt_none; kept_lists;
  unfold traverse_stmt in *;
  change (fun c : switchCase =>
            match c with
            | SwitchCase t consequent =>
                bind (optM (traverse_expr v) t)
                  (fun t' =>
                     bind (mapM (walk_stmt v (traverse_expr v)) consequent)
                       (fun os => ret (SwitchCase t' (concat (map in_list os)))))
            end) with (walk_case v) in *;
  repeat (rewrite ?bind_snd, ?bind_fst; cbn [ret fst snd]); exits;
  unfold keeps, traverse_stmt in *; cbn [commas_stmt] in *;
  repeat change (list_sum (map commas_stmt ?l)) with (commas l) in *;
  rewrite ?commas_in_list, ?commas_in_slot in *.

Lemma traverse_keeps_all :
  (forall e, keeps (traverse_expr v) commas_expr commas_expr e) /\
  (forall s,
      keeps (traverse_stmt v) commas_stmt (fun o => commas (in_list o)) s) /\
  (forall c, keeps (walk_case v) commas_case commas_case c) /\
  (forall d,
      keeps (walk_declarator (traverse_expr v)) commas_declarator
        commas_declarator d) /\
  (forall i,
      keeps (walk_init v (traverse_expr v)) commas_init
        (fun r => commas (fst r) + commas_init (snd r)) i
      /\ keeps (walk_left (traverse_expr v)) commas_init commas_init i).
Proof using All.
  apply ast_mutind.
  1-17: open_expr; lia.
  1-14: try solve [open_stmt; lia].
  - (* if *)
    open_stmt.
    destruct (fst (optM (walk_stmt v (traverse_expr v)) alternate)) as [o|];
      rewrite ?commas_in_alternate in *; lia.
  - (* for *)
    intros init Hinit test Htest update Hupdate body Hbody.
    unfold keeps at 1. unfold traverse_stmt. cbn [walk_stmt].
    rewrite enter_stmt_none.
    apply option_all_keeps in Htest, Hupdate.
    assert (exists h i' n,
               match init with
               | Some i =>
                   bind (walk_init v (traverse_expr v) i)
                     (fun '(hoisted, i') => ret (hoisted, Some i'))
               | None => ret ([], None)
               end = ((h, i'), n)
               /\ commas h
                  + match i' with Some i => commas_init i | None => 0 end + n
                  = match init with Some i => commas_init i | None => 0 end)
      as (h & i' & n & Ei & Hi).
    { destruct Hinit as [i [Hi _]|].
      - unfold keeps in Hi.
        destruct (walk_init v (traverse_expr v) i) as [[h i'] n] eqn:E.
        exists h, (Some i'), (n + 0). split; [reflexivity|].
        simpl in Hi. lia.
      - exists [], None, 0. split; reflexivity. }
    rewrite Ei. cbn [fst snd].
    repeat (rewrite ?bind_snd, ?bind_fst; cbn [ret fst snd]).
    rewrite commas_insertBefore. exits.
    unfold keeps, traverse_stmt in *.
    cbn [commas_stmt] in *. rewrite ?commas_in_slot in *. lia.
  - (* case *)
    intros test Htest consequent Hconsequent. unfold keeps, walk_case.
    kept_lists. unfold traverse_stmt in *.
    repeat (rewrite ?bind_snd, ?bind_fst; cbn [ret fst snd]).
    cbn [commas_case].
    repeat change (list_sum (map commas_stmt ?l)) with (commas l) in *.
    rewrite ?commas_in_list in *. lia.
  - (* declarator *)
    intros id Hid init Hinit. kept_lists. unfold keeps, walk_declarator in *.
    repeat (rewrite ?bind_snd, ?bind_fst; cbn [ret fst snd]).
    cbn [commas_declarator]. lia.
  - (* a declaration as [init] or [left] *)
    intros kind declarations H. kept_lists. split; unfold keeps;
      cbn [walk_init walk_left];
      repeat (rewrite ?bind_snd, ?bind_fst; cbn [ret fst snd]).
    + pose proof (exit_init_keeps
                    (ForInitDeclaration kind
                       (fst (mapM (walk_declarator (traverse_expr v))
                               declarations)))) as He.
      unfold keeps in He. cbn [commas_init] in *. lia.
    + cbn [commas_init]. lia.
  - (* an expression as [init] or [left] *)
    intros expression H. unfold keeps in H. split; unfold keeps;
      cbn [walk_init walk_left];
      repeat (rewrite ?bind_snd, ?bind_fst; cbn [ret fst snd]);
      cbn [commas_init]; unfold commas; simpl; lia.
Qed.

(** The tree a pass returns and the count it reports. *)
Lemma traverse_keeps (ast : list stmt) :
  commas (fst (traverse v ast)) + snd (traverse v ast) = commas ast.
Proof using All.
  unfold traverse, walk_body.
  repeat (rewrite ?bind_snd, ?bind_fst; cbn [ret fst snd]).
  rewrite commas_in_list.
  pose proof (mapM_keeps (traverse_stmt v) commas_stmt
                (fun o => commas (in_list o)) ast) as H.
  unfold traverse_stmt in H. unfold commas at 2. rewrite <- H; [lia|].
  apply Forall_forall. intros s _. exact (proj1 (proj2 traverse_keeps_all) s).
Qed.

End Counting.

(** X3.  Each change a pass of [sequence] reports is one comma expression
    taken out of the tree: the comma expressions of the tree the pass
    returns and the changes it reports add up to the comma expressions of
    the tree it was given.  On a tree without a comma expression the pass
    reports no change and returns the tree. *)
Theorem sequence_changes_commas (ast : list stmt) :
  commas (fst (applyTransform ast sequence)) + snd (applyTransform ast sequence)
  = commas ast
  /\ (commas ast = 0 -> applyTransform ast sequence = (ast, 0)).
Proof.
  assert (commas (fst (applyTransform ast sequence))
          + snd (applyTransform ast sequence) = commas ast) as H.
  { apply (traverse_keeps sequence_visitor); try reflexivity.
    - intros e. unfold keeps. simpl. lia.
    - exact sequence_exit_stmt_commas.
    - exact sequence_exit_init_commas. }
  split; [exact H|]. intros H0.
  destruct (applyTransform ast sequence) as [ast' n] eqn:E. simpl in H.
  assert (n = 0) by lia. subst n.
  rewrite (sequence_zero ast ast' E). reflexivity.
Qed.

(** ** [controlFlowFlat]: the labels of the cases *)

(** A string label is replaced by another. *)
Definition relabel (f : string -> string) (c : switchCase) : switchCase :=
  match c with
  | SwitchCase (Some (StringLiteral s)) consequent =>
      SwitchCase (Some (StringLiteral (f s))) consequent
  | _ => c
  end.

Definition relabel_site (f : string -> string) (site : SwitchSite) : SwitchSite :=
  {| block_before := block_before site;
     loop := loop site;
     body_before := body_before site;
     discriminant := discriminant site;
     cases := map (relabel f) (cases site);
     body_after := body_after site;
     block_after := block_after site |}.

(** The search keeps the kind of the expression it is run on. *)
Lemma find_expr_StringLiteral (e : expr) :
  isStringLiteral (fst (find_expr e)) = isStringLiteral e.
Proof.
  destruct e; cbn [find_expr];
    try (destruct (split_MemberExpression _); reflexivity);
    destruct (split_MemberExpression _); try reflexivity;
    unfold andThen; repeat case_match; reflexivity.
Qed.

Lemma relabel_other f t consequent :
  isStringLiteral t = false ->
  relabel f (SwitchCase (Some t) consequent) = SwitchCase (Some t) consequent.
Proof. destruct t; try reflexivity. discriminate. Qed.

Lemma find_case_relabel f c :
  find_case (relabel f c)
  = (relabel f (fst (find_case c)), snd (find_case c)).
Proof.
  destruct c as [[t|] consequent].
  - destruct (isStringLiteral t) eqn:Ht.
    + destruct t; try discriminate. unfold relabel, find_case. simpl.
      destruct (find_body consequent) as [b h]. reflexivity.
    + rewrite relabel_other by exact Ht.
      pose proof (find_expr_StringLiteral t) as Hk. rewrite Ht in Hk.
      unfold find_case, findO. destruct (find_expr t) as [t' [|s p]];
        cbn [andThen fst snd] in *.
      * destruct (find_body consequent) as [b h]. cbn [fst snd].
        rewrite relabel_other by exact Hk. reflexivity.
      * rewrite relabel_other by exact Hk. reflexivity.
  - unfold relabel, find_case. simpl.
    destruct (find_body consequent) as [b h]. reflexivity.
Qed.

Lemma findM_relabel f cs :
  findM find_case (fun c => c) (map (relabel f) cs)
  = (map (relabel f) (fst (findM find_case (fun c => c) cs)),
     snd (findM find_case (fun c => c) cs)).
Proof.
  induction cs as [|c cs IH]; [reflexivity|].
  cbn [map findM]. rewrite find_case_relabel.
  destruct (find_case c) as [c' [|s p]]; cbn [andThen fst snd].
  - rewrite IH. destruct (findM find_case (fun c => c) cs). reflexivity.
  - rewrite map_id. cbn [map]. rewrite map_id. reflexivity.
Qed.

Lemma first_statements_relabel f cs :
  map first_statement (List.filter isStringCase (map (relabel f) cs))
  = map first_statement (List.filter isStringCase cs).
Proof.
  induction cs as [|c cs IH]; [reflexivity|].
  destruct c as [[t|] consequent]; cbn [map]; try exact IH.
  destruct t; simpl; rewrite ?IH; reflexivity.
Qed.

(** X4.  [controlFlowFlat] never reads the labels of the cases: it takes
    the entries of the order string as positions among the cases with a
    string label.  Whatever the string labels are replaced by, the visitor
    leaves the same block. *)
Theorem controlFlowFlat_labels_unread (f : string -> string) (site : SwitchSite) :
  controlFlowFlat_SwitchStatement (relabel_site f site)
  = controlFlowFlat_SwitchStatement site.
Proof.
  unfold controlFlowFlat_SwitchStatement, find_site, relabel_site.
  cbn [block_before loop body_before discriminant cases body_after block_after].
  destruct (find_body (block_before site)) as [bb h1].
  destruct (unless_found find_head (loop site) h1) as [hd h2].
  destruct (unless_found find_body (body_before site) h2) as [lb h3].
  destruct (unless_found find_expr (discriminant site) h3) as [d h4].
  assert (unless_found (findM find_case (fun c => c))
            (map (relabel f) (cases site)) h4
          = (map (relabel f)
               (fst (unless_found (findM find_case (fun c => c)) (cases site) h4)),
             snd (unless_found (findM find_case (fun c => c)) (cases site) h4)))
    as ->.
  { destruct h4; [apply findM_relabel|reflexivity]. }
  destruct (unless_found (findM find_case (fun c => c)) (cases site) h4)
    as [cs h5].
  cbn [fst snd].
  destruct (unless_found find_body (body_after site) h5) as [la h6].
  destruct (unless_found find_body (block_after site) h6) as [ba h7].
  destruct h7; [reflexivity|].
  cbn [cases block_before block_after].
  rewrite first_statements_relabel. reflexivity.
Qed.

(** ** [findDecryptFnByCallCount]: no decoder, and the threshold *)

Lemma process_fold_other getBinding count fs st :
  Forall (fun f => isDecoder getBinding count f = false) fs ->
  fold_left (process getBinding count) fs st = st.
Proof.
  intros H. revert st. induction H as [|f fs Hf _ IH]; intros st; [reflexivity|].
  simpl. rewrite (process_other getBinding count st f Hf). apply IH.
Qed.

(** X5.  When the binding of no program-level function has [count]
    references, [findDecryptFnByCallCount] names no decoder, returns the
    code of an empty program, and leaves the body whole, with [isRemove]
    too. *)
Theorem findDecryptFnByCallCount_none
  (getBinding : nat -> nat -> string -> option Binding)
  (generator : list stmt -> string) (count : nat) (isRemove : bool)
  (body : list Located)
  (Hnone : Forall (fun f => isDecoder getBinding count f = false)
             (program_functions 0 body)) :
  findDecryptFnByCallCount getBinding generator count isRemove [] body
  = Some (generator [], {| decryptFnList := []; index := 0 |}, body).
Proof.
  unfold findDecryptFnByCallCount. rewrite visit_program_fold.
  rewrite (process_fold_other getBinding count _ _ Hnone).
  cbn [index firstn skipn map]. destruct isRemove; reflexivity.
Qed.

Lemma findDecryptFnByCallCount_none_witness :
  findDecryptFnByCallCount setup_bindings (fun _ => "code") 3 true []
    setup_program
  = Some ("code", {| decryptFnList := []; index := 0 |}, setup_program).
Proof.
  apply (findDecryptFnByCallCount_none setup_bindings (fun _ => "code") 3 true
           setup_program).
  repeat constructor.
Defined.

Lemma prefix_end_filter_le (P Q : ProgramFunction -> bool)
  (fs : list ProgramFunction) (m k k' : nat) :
  (forall f, P f = true -> Q f = true) ->
  ordered_from m fs -> k <= k' -> k' <= S m ->
  prefix_end (List.filter P fs) k <= prefix_end (List.filter Q fs) k'.
Proof.
  intros HPQ. revert m k k'.
  induction fs as [|f fs IH]; intros m k k' Hordered Hk Hm; [exact Hk|].
  destruct Hordered as [Hf Hrest]. simpl. destruct (P f) eqn:HP.
  - rewrite (HPQ f HP), !prefix_end_cons.
    apply (IH (statement_index f)); [exact Hrest|reflexivity|reflexivity].
  - destruct (Q f).
    + rewrite prefix_end_cons.
      apply (IH (statement_index f)); [exact Hrest| |reflexivity].
      unfold statement_index in *. lia.
    + apply (IH (statement_index f)); [exact Hrest|exact Hk|lia].
Qed.

Lemma isDecoder_threshold getBinding count count' f :
  count' <= count ->
  isDecoder getBinding count f = true -> isDecoder getBinding count' f = true.
Proof.
  intros Hle. destruct f as [[i j] [n|]]; simpl; [|discriminate].
  destruct (getBinding i j n) as [b|]; [|discriminate].
  rewrite !Nat.leb_le. lia.
Qed.

(** X6.  Lowering the threshold can only add decoders and lengthen the
    prefix that makes the setup code: with [count' <= count], every decoder
    found with [count] is found with [count'], and the prefix found with
    [count] is no longer than the one found with [count']. *)
Theorem findDecryptFnByCallCount_threshold
  (getBinding : nat -> nat -> string -> option Binding)
  (generator : list stmt -> string) (count count' : nat) (isRemove : bool)
  (body : list Located)
  (Hle : count' <= count)
  (Hstarts : NoDup (map start body))
  (Hplace : declared_in_place getBinding body) :
  match findDecryptFnByCallCount getBinding generator count isRemove [] body,
        findDecryptFnByCallCount getBinding generator count' isRemove [] body
  with
  | Some (_, st, _), Some (_, st', _) =>
      index st <= index st'
      /\ (forall n, In n (decryptFnList st) -> In n (decryptFnList st'))
  | _, _ => False
  end.
Proof.
  rewrite !findDecryptFnByCallCount_decoders by assumption.
  cbn [index decryptFnList]. split.
  - unfold decoders.
    apply (prefix_end_filter_le _ _ _ 0);
      [|apply program_functions_ordered|lia|lia].
    intros f. apply isDecoder_threshold. exact Hle.
  - intros n. rewrite !names_decoders. intros (i & j & Hin & Hd).
    exists i, j. split; [exact Hin|].
    eapply isDecoder_threshold; eauto.
Qed.

Lemma findDecryptFnByCallCount_threshold_witness :
  match findDecryptFnByCallCount setup_bindings (fun _ => "code") 3 true []
          setup_program,
        findDecryptFnByCallCount setup_bindings (fun _ => "code") 2 true []
          setup_program
  with
  | Some (_, st, _), Some (_, st', _) =>
      index st <= index st'
      /\ (forall n, In n (decryptFnList st) -> In n (decryptFnList st'))
  | _, _ => False
  end.
Proof.
  apply (findDecryptFnByCallCount_threshold setup_bindings (fun _ => "code")
           3 2 true setup_program).
  - lia.
  - exact setup_program_starts.
  - exact setup_program_declared.
Defined.

(** ** [decryptReplace]: the call sites it leaves alone *)

(** A call the visitor evaluates: the callee is an identifier of the
    decoder list and no argument is an identifier. *)
Definition evaluated (fnList : list string) (site : CallSite) : bool :=
  match node site with
  | CallExpression (Identifier callee) arguments =>
      includes fnList callee && negb (existsb isIdentifier arguments)
  | _ => false
  end.

(** What the visitor may make of a site. *)
Definition decrypted (fnList : list string) (eval : string -> completion)
  (toString : expr -> string) (site site' : CallSite) : Prop :=
  if evaluated fnList site then
    (exists s, eval (toString (node site)) = Returns (VString s)
               /\ node site' = StringLiteral s
               /\ leadingComments site' = leadingComments site)
    \/ ((forall s, eval (toString (node site)) <> Returns (VString s))
        /\ node site' = node site
        /\ exists c, Permutation (c :: leadingComments site)
                       (leadingComments site'))
  else site' = site.

Lemma decryptReplace_CallExpression_decrypted fnList eval toString site results :
  decrypted fnList eval toString site
    (fst (decryptReplace_CallExpression fnList eval toString site results)).
Proof.
  unfold decrypted, evaluated, decryptReplace_CallExpression.
  destruct (node site) as [| | | | | | | | | | | | | |callee arguments| |] eqn:Hn;
    try reflexivity.
  destruct callee; try reflexivity.
  destruct (includes fnList _); [|reflexivity].
  destruct (existsb isIdentifier arguments); [reflexivity|]. simpl.
  destruct (eval (toString (CallExpression (Identifier _) arguments)))
    as [val|message] eqn:He.
  - destruct val; simpl;
      try (right; split; [discriminate|split; [exact Hn|]];
           eexists; apply Permutation_refl).
    left. eexists. split; [reflexivity|]. split; reflexivity.
  - right. split; [discriminate|]. split; [exact Hn|].
    eexists. apply Permutation_refl.
Qed.

(** X7.  [decryptReplace] keeps the call sites in number and order.  A
    site that is no call of a decoder, or that passes an identifier to it,
    is left exactly as it is; a site it evaluates either becomes the string
    literal of the value, with its comments, or keeps its node, keeps its
    comments and gains one comment. *)
Theorem decryptReplace_sites (fnList : list string)
  (eval : string -> completion) (toString : expr -> string)
  (sites : list CallSite) (results : gmap string value) :
  Forall2 (decrypted fnList eval toString) sites
    (fst (decryptReplace_traverse fnList eval toString sites results)).
Proof.
  revert results. induction sites as [|site rest IH]; intros results.
  - constructor.
  - cbn [decryptReplace_traverse].
    pose proof (decryptReplace_CallExpression_decrypted fnList eval toString
                  site results) as Hsite.
    destruct (decryptReplace_CallExpression fnList eval toString site results)
      as [site' results'].
    specialize (IH results').
    destruct (decryptReplace_traverse fnList eval toString rest results')
      as [rest' results''].
    constructor; assumption.
Qed.

(** ** [replaceConstant]: what it leaves alone *)

Lemma reParse_store_node_at (a : Ast) (x : Path) :
  node_at (reParse_store a) x = node_at a x.
Proof.
  unfold node_at. rewrite reParse_store_slots.
  destruct (slots a !! x) as [o|] eqn:Hx; simpl; [|reflexivity].
  rewrite reParse_store_objects, Hx. reflexivity.
Qed.

Section Replaced.

Variable getBinding : Path -> string -> option Binding.
Variable ast : Ast.
Variable order : list Path.

Hypothesis references_identifiers :
  forall q r, q ∈ order -> r ∈ references getBinding ast q ->
              identifier_at ast r.
Hypothesis references_disjoint :
  forall q q' r, q ∈ order -> q' ∈ order -> q <> q' ->
                 r ∈ references getBinding ast q ->
                 r ∉ references getBinding ast q'.

(** The declarators and assignments whose binding the pass substitutes:
    the binding is constant and the initialiser (or right-hand side) is a
    string or numeric literal, in the tree or once the pass has put one
    there, the initialiser being a reference of such a binding itself
    ([let a = 1; let b = a;]). *)
Inductive substituted : Path -> Prop :=
| substituted_literal q y refs :
    q ∈ order -> target getBinding ast q = Some (y, refs) ->
    literal_at ast y -> substituted q
| substituted_reference q y refs q' :
    q ∈ order -> target getBinding ast q = Some (y, refs) ->
    substituted q' -> y ∈ references getBinding ast q' -> substituted q.

(** The slot of [x] once the paths [done] are visited: as in the tree, or
    emptied with a substituted declaration, or a reference of one. *)
Definition slot_cause (done : list Path) (a : Ast) (x : Path) : Prop :=
  slots a !! x = slots ast !! x
  \/ (slots a !! x = None
      /\ exists q y refs,
          q ∈ done /\ substituted q
          /\ target getBinding ast q = Some (y, refs) /\ (x = q \/ x = y))
  \/ (exists q, q ∈ done /\ substituted q /\ x ∈ references getBinding ast q).

Lemma slot_cause_mono done done' a x :
  (forall q, q ∈ done -> q ∈ done') ->
  slot_cause done a x -> slot_cause done' a x.
Proof using Type.
  intros H [E | [[E (q & y & refs & Hq & R)] | (q & Hq & R)]].
  - left. exact E.
  - right. left. split; [exact E|]. exists q, y, refs. split; [auto|exact R].
  - right. right. exists q. split; [auto|exact R].
Qed.

Lemma visit_step_cause done a q :
  visited getBinding ast done a -> (forall x, slot_cause done a x) ->
  (forall q', q' ∈ done -> q' ∈ order) -> q ∈ order -> q ∉ done ->
  exists a', replaceConstant_visit getBinding (Some a) q = Some a'
             /\ visited getBinding ast (done ++ [q]) a'
             /\ forall x, slot_cause (done ++ [q]) a' x.
Proof using references_identifiers references_disjoint.
  intros Hv Hc Hdone Hq Hnew.
  destruct (visit_step getBinding ast order references_identifiers
              references_disjoint done a q Hv Hdone Hq Hnew)
    as (a' & E & Hv' & _).
  exists a'. split; [exact E|]. split; [exact Hv'|].
  assert (forall q', q' ∈ done -> q' ∈ done ++ [q]) as Hsub
      by (intros q' H; apply elem_of_app; left; exact H).
  assert (q ∈ done ++ [q]) as Hlast
      by (apply elem_of_app; right; constructor).
  assert (a' = a -> forall x, slot_cause (done ++ [q]) a' x) as Hsame.
  { intros -> x. eapply slot_cause_mono; eauto. }
  pose proof Hv as [Hobj [Hnext Hs]].
  destruct (Hs q) as [Eq | [[Eq _] | [_ [o [Eq [e [Ho _]]]]]]].
  2: { rewrite (visit_changed getBinding ast a q Hobj) in E by (left; exact Eq).
       apply Hsame. congruence. }
  2: { rewrite (visit_changed getBinding ast a q Hobj) in E by (right; eauto).
       apply Hsame. congruence. }
  rewrite (visit_initial getBinding ast a q Hobj Eq) in E.
  destruct (target getBinding ast q) as [[y refs]|] eqn:Ht;
    [|apply Hsame; congruence].
  destruct (literal_object a y) as [value|] eqn:Hl; [|apply Hsame; congruence].
  destruct (literal_object_Some ast a y value Hobj Hl) as [Hy Hvalue].
  assert (references getBinding ast q = refs) as Hrefs
      by (unfold references; rewrite Ht; reflexivity).
  rewrite replaceWith_fold in E.
  2: { intros r Hr. rewrite <- Hrefs in Hr.
       rewrite (reference_untouched getBinding ast order references_identifiers
                  references_disjoint done a q r Hv Hdone Hq Hnew Hr).
       destruct (references_identifiers q r Hq Hr) as [o [m [Hx _]]].
       rewrite Hx. eauto. }
  inversion E; subst a'; clear E.
  assert (substituted q) as Hsub_q.
  { destruct (Hc y) as [Ey | [[Ey _] | (q' & Hq' & Hs' & Hy')]].
    - eapply substituted_literal; eauto. exists value. rewrite <- Ey. auto.
    - rewrite Ey in Hy. discriminate.
    - eapply substituted_reference; eauto. }
  intros x. unfold slot_cause. rewrite remove_lookup. simpl.
  rewrite replaced_lookup.
  destruct (decide (x = q \/ x = y)) as [Hx|Hx].
  - right. left. split; [reflexivity|]. exists q, y, refs. auto.
  - destruct (decide (x ∈ refs)) as [Hr|Hr].
    + right. right. exists q. rewrite Hrefs. auto.
    + destruct (Hc x) as [Ex | [[Ex R] | R]].
      * left. exact Ex.
      * right. left. split; [exact Ex|].
        destruct R as (q' & y' & refs' & Hq' & R). exists q', y', refs'.
        split; [auto|exact R].
      * right. right. destruct R as (q' & Hq' & R). exists q'.
        split; [auto|exact R].
Qed.

Lemma visit_fold_cause todo done a :
  visited getBinding ast done a -> (forall x, slot_cause done a x) ->
  (forall q, q ∈ done ++ todo -> q ∈ order) ->
  NoDup (done ++ todo) ->
  exists a',
    fold_left (replaceConstant_visit getBinding) todo (Some a) = Some a'
    /\ objects a' = objects ast
    /\ forall x, slot_cause (done ++ todo) a' x.
Proof using references_identifiers references_disjoint.
  revert done a. induction todo as [|q rest IH]; intros done a Hv Hc Hin Hnd.
  - exists a. split; [reflexivity|]. rewrite app_nil_r.
    split; [apply Hv|exact Hc].
  - destruct (visit_step_cause done a q Hv Hc) as (a1 & E1 & Hv1 & Hc1).
    + intros q' Hq'. apply Hin, elem_of_app. left. exact Hq'.
    + apply Hin, elem_of_app. right. left.
    + apply NoDup_app in Hnd. destruct Hnd as [_ [Hnd _]].
      intros Hq. apply (Hnd q Hq). left.
    + destruct (IH (done ++ [q]) a1 Hv1 Hc1) as (a' & E' & Hobj & Hc').
      * rewrite <- app_assoc. exact Hin.
      * rewrite <- app_assoc. exact Hnd.
      * exists a'. cbn [fold_left]. rewrite E1. split; [exact E'|].
        rewrite <- app_assoc in Hc'. auto.
Qed.

End Replaced.


(** [const o = g; h(o);]: the declarator at path 0, its initialiser at path
    1, the callee at path 2 and the argument at path 3. *)
Definition alias_ast : Ast :=
  {| objects :=
       <[0 := Declarator (Some "o") (Some 1)]>
         (<[1 := Expression (Identifier "g")]>
            (<[2 := Expression (Identifier "h")]>
               (<[3 := Expression (Identifier "o")]> ∅)));
     slots := <[0 := 0]> (<[1 := 1]> (<[2 := 2]> (<[3 := 3]> ∅)));
     next := 4 |}.

Definition alias_bindings (p : Path) (n : string) : option Binding :=
  if Nat.eqb p 0 && String.eqb n "o"
  then Some {| constant := true; constantViolations := [];
               referencePaths := [3]; declaration := None |}
  else None.

Lemma alias_not_substituted (q : Path) :
  ~ substituted alias_bindings alias_ast [0] q.
Proof.
  induction 1 as [q y refs Hq Ht Hl|q y refs q' Hq Ht _ IH Hy].
  - apply list_elem_of_singleton in Hq. subst q.
    vm_compute in Ht. inversion Ht; subst.
    destruct Hl as (o & Ho & e & He & Hlit).
    vm_compute in Ho. inversion Ho; subst.
    vm_compute in He. inversion He; subst. discriminate.
  - exact IH.
Qed.


(** ** [codePreview] (utils/ast.ts) *)

(** A JavaScript string as its UTF-16 code units: [length], [slice] and
    the template literal count them. *)
Definition Text : Type := list N.

(** [text.slice(0, n)] and [text.slice(-n)] *)
Definition slice_to (n : nat) (text : Text) : Text := firstn n text.

Definition slice_last (n : nat) (text : Text) : Text :=
  skipn (length text - n) text.

(** The three code units of [" … "]: a space, U+2026, a space. *)
Definition ellipsis : Text := [32%N; 8230%N; 32%N].

Section CodePreview.

(** [generate(node, { minified: true, shouldPrintComment: () => false })] *)
Variable Node : Type.
Variable generate : Node -> Text.

Definition codePreview (node : Node) : Text :=
  let code := generate node in
  if Nat.ltb 100 (length code) then
    slice_to 70 code ++ ellipsis ++ slice_last 30 code
  else code.

End CodePreview.

(** X9.  A preview is the code itself when the code has 100 code units or
    less; a longer code is cut to 103 code units: the first 70 of the code,
    then a space, the ellipsis U+2026 and a space, then the last 30 of the
    code.  No preview is longer than 103 code units. *)
Theorem codePreview_length (Node : Type) (generate : Node -> Text)
  (node : Node) :
  (length (generate node) <= 100 ->
   codePreview Node generate node = generate node)
  /\ (100 < length (generate node) ->
      length (codePreview Node generate node) = 103
      /\ firstn 70 (codePreview Node generate node)
         = firstn 70 (generate node)
      /\ firstn 3 (skipn 70 (codePreview Node generate node))
         = [32%N; 8230%N; 32%N]
      /\ skipn 73 (codePreview Node generate node)
         = skipn (length (generate node) - 30) (generate node))
  /\ length (codePreview Node generate node) <= 103.
Proof.
  unfold codePreview, slice_to, slice_last.
  destruct (Nat.ltb 100 (length (generate node))) eqn:H.
  - apply Nat.ltb_lt in H.
    assert (length (firstn 70 (generate node)) = 70) as H70
        by (rewrite length_firstn; lia).
    assert (length (skipn (length (generate node) - 30) (generate node)) = 30)
      as H30 by (rewrite length_skipn; lia).
    assert (length (firstn 70 (generate node) ++ ellipsis
                    ++ skipn (length (generate node) - 30) (generate node))
            = 103) as Hlen
        by (rewrite !length_app, H70, H30; reflexivity).
    split; [lia|]. split; [|lia]. intros _. split; [exact Hlen|]. split.
    + rewrite firstn_app, H70. simpl. rewrite app_nil_r.
      apply firstn_all2. lia.
    + split.
      * rewrite skipn_app, H70.
        rewrite (skipn_all2 (firstn 70 (generate node))) by lia.
        reflexivity.
      * rewrite skipn_app, H70.
        rewrite (skipn_all2 (firstn 70 (generate node))) by lia.
        reflexivity.
  - apply Nat.ltb_ge in H. split; [reflexivity|]. split; lia.
Qed.

(** ** [markComment] *)

Module MarkComment.

Inductive CommentType : Type := CommentBlock | CommentLine.

Record Comment : Type := {
  type : CommentType;
  value : string
}.

(** A string as a condition: the empty string is falsy. *)
Definition truthy_string (s : string) : bool := negb (String.eqb s "").

(** [comments.find(c => (c.value = label))]: the callback WRITES the label
    into each comment it is asked about and answers with the label; the
    search stops at the first comment when the label is truthy. *)
Fixpoint find_assign (label : string) (comments : list Comment)
  : list Comment * bool :=
  match comments with
  | [] => ([], false)
  | c :: rest =>
      let c' := {| type := type c; value := label |} in
      if truthy_string label then (c' :: rest, true)
      else let '(rest', hasComment) := find_assign label rest in
           (c' :: rest', hasComment)
  end.

Section Visitors.

(** [path.addComment('leading', content, true)] on a node with the given
    leading comments (Babel's). *)
Variable addComment : string -> list Comment -> list Comment.

(** The [DebuggerStatement] visitor on the leading comments of the
    statement (an absent list is the empty one). *)
Definition markComment_DebuggerStatement (label : string)
  (leadingComments : list Comment) : list Comment :=
  let '(comments, hasComment) := find_assign label leadingComments in
  if hasComment then comments else addComment label comments.

End Visitors.

Definition timers : list string := ["setTimeout"; "setInterval"].

(** The [CallExpression] visitor: whether it adds the comment to the call
    with this callee.  [callee.property?.value] is [undefined] unless the
    property is a literal, [callee.name] unless the callee is an
    identifier. *)
Definition markComment_CallExpression (callee : expr) : bool :=
  match callee with
  | MemberExpression _ property _ =>
      match property with
      | StringLiteral p => existsb (String.eqb p) timers
      | _ => false
      end
  | Identifier n => existsb (String.eqb n) timers
  | _ => false
  end.

End MarkComment.

(** X10.  With a label that is not empty, [markComment] gives a debugger
    statement without leading comments the label as its comment; on a
    statement that has leading comments it adds none and overwrites the
    text of the first one with the label.  Marking twice is marking
    once. *)
Theorem markComment_debugger
  (addComment : string -> list MarkComment.Comment -> list MarkComment.Comment)
  (label : string)
  (Hlabel : label <> "")
  (Hfirst : addComment label []
            = [{| MarkComment.type := MarkComment.CommentLine;
                  MarkComment.value := label |}]) :
  MarkComment.markComment_DebuggerStatement addComment label []
  = [{| MarkComment.type := MarkComment.CommentLine;
        MarkComment.value := label |}]
  /\ (forall c rest,
         MarkComment.markComment_DebuggerStatement addComment label (c :: rest)
         = {| MarkComment.type := MarkComment.type c;
              MarkComment.value := label |} :: rest)
  /\ (forall comments,
         MarkComment.markComment_DebuggerStatement addComment label
           (MarkComment.markComment_DebuggerStatement addComment label comments)
         = MarkComment.markComment_DebuggerStatement addComment label comments).
Proof.
  assert (MarkComment.truthy_string label = true) as Ht.
  { unfold MarkComment.truthy_string. apply negb_true_iff.
    apply String.eqb_neq. exact Hlabel. }
  assert (forall c rest,
             MarkComment.markComment_DebuggerStatement addComment label (c :: rest)
             = {| MarkComment.type := MarkComment.type c;
                  MarkComment.value := label |} :: rest) as Hcons.
  { intros c rest. unfold MarkComment.markComment_DebuggerStatement. simpl.
    rewrite Ht. reflexivity. }
  split; [exact Hfirst|]. split; [exact Hcons|].
  intros [|c rest].
  - change (MarkComment.markComment_DebuggerStatement addComment label [])
      with (addComment label []).
    rewrite Hfirst. apply Hcons.
  - rewrite !Hcons. reflexivity.
Qed.

Lemma markComment_debugger_witness :
  MarkComment.markComment_DebuggerStatement (fun s cs =>
      {| MarkComment.type := MarkComment.CommentLine;
         MarkComment.value := s |} :: cs) " TOLOOK"
    [{| MarkComment.type := MarkComment.CommentBlock;
        MarkComment.value := "licence" |}]
  = [{| MarkComment.type := MarkComment.CommentBlock;
        MarkComment.value := " TOLOOK" |}].
Proof.
  exact (proj1 (proj2
           (markComment_debugger
              (fun s cs =>
                 {| MarkComment.type := MarkComment.CommentLine;
                    MarkComment.value := s |} :: cs)
              " TOLOOK" ltac:(discriminate) eq_refl))
           {| MarkComment.type := MarkComment.CommentBlock;
              MarkComment.value := "licence" |} []).
Defined.

(** X11.  [markComment] marks a call exactly when its callee is the
    identifier [setTimeout] or [setInterval], or a member expression whose
    property is the string literal of one of them: [window["setTimeout"](f)]
    is marked, [window.setTimeout(f)] is not. *)
Theorem markComment_timers (callee : expr) :
  MarkComment.markComment_CallExpression callee = true
  <-> exists t,
      (t = "setTimeout" \/ t = "setInterval")
      /\ (callee = Identifier t
          \/ exists object computed,
             callee = MemberExpression object (StringLiteral t) computed).
Proof.
  assert (forall s, existsb (String.eqb s) MarkComment.timers = true
                    <-> s = "setTimeout" \/ s = "setInterval") as Hin.
  { intros s. unfold MarkComment.timers. simpl.
    rewrite !orb_true_iff, !String.eqb_eq. intuition discriminate. }
  split.
  - destruct callee; try discriminate; simpl.
    + intros H. apply Hin in H. eauto.
    + destruct callee2; try discriminate. intros H. apply Hin in H.
      eexists. split; [exact H|]. right. eauto.
  - intros (t & Ht & [->|(object & computed & ->)]); simpl; apply Hin; exact Ht.
Qed.

(** ** [designDecryptFn]: the decoders a caller names *)

(** The argument of [designDecryptFn]: nothing, a name, or an array of
    names. *)
Inductive designated : Type :=
| NotGiven
| Name (n : string)
| Names (l : list string).

(** [globalState.decryptFnList] after the head of [designDecryptFn]:
    [if (decryptFnList) { ... }].  An empty string is falsy, an empty array
    is not.  (The traversal that follows renames and removes declarators;
    it does not write the list.) *)
Definition designDecryptFn_decryptFnList (decryptFnList : designated)
  (globalDecryptFnList : list string) : list string :=
  match decryptFnList with
  | NotGiven => globalDecryptFnList
  | Name n => if String.eqb n "" then globalDecryptFnList else [n]
  | Names l => l
  end.

(** X12.  Once [designDecryptFn] was given the name of a decoder, or an
    array with one name or more, [findDecryptFnByCallCount] returns at once
    and finds nothing, whatever the program is; given the empty array, it
    clears the list, and given nothing or the empty string it keeps the
    list it found. *)
Theorem designDecryptFn_search
  (getBinding : nat -> nat -> string -> option Binding)
  (generator : list stmt -> string) (count : nat) (isRemove : bool)
  (body : list Located) (known : list string) :
  (forall n, n <> "" ->
      findDecryptFnByCallCount getBinding generator count isRemove
        (designDecryptFn_decryptFnList (Name n) known) body = None) /\
  (forall n l,
      findDecryptFnByCallCount getBinding generator count isRemove
        (designDecryptFn_decryptFnList (Names (n :: l)) known) body = None) /\
  designDecryptFn_decryptFnList (Names []) known = [] /\
  designDecryptFn_decryptFnList NotGiven known = known /\
  designDecryptFn_decryptFnList (Name "") known = known.
Proof.
  repeat split.
  intros n Hn. unfold designDecryptFn_decryptFnList.
  apply String.eqb_neq in Hn. rewrite Hn. reflexivity.
Qed.

(** ** [removeUnusedBlock]: the names a hoisted block declares *)

Lemma block_bindings_rename_identifier old newName body :
  block_bindings (rename_identifier old newName body)
  = map (fun n => if String.eqb n old then newName else n) (block_bindings body).
Proof.
  unfold block_bindings, rename_identifier.
  induction body as [|s body IH]; [reflexivity|].
  cbn [map flat_map]. rewrite map_app, IH. f_equal.
  destruct s; try reflexivity.
  - destruct (blockScoped kind) eqn:Hk; [|rewrite Hk; reflexivity].
    rewrite Hk. induction declarations as [|d ds IHd]; [reflexivity|].
    cbn [map flat_map]. rewrite map_app, IHd. f_equal.
    destruct d as [[] init]; try reflexivity.
    simpl. destruct (String.eqb _ old); reflexivity.
  - simpl. destruct (String.eqb id old); reflexivity.
Qed.

Section Rename.

Variable hasBinding : string -> bool.
Variable generateUid : string -> string.
Hypothesis generateUid_fresh : forall n, hasBinding (generateUid n) = false.

Lemma rename_fold (names : list string) (body : list stmt) :
  (forall n, In n (block_bindings body) -> hasBinding n = true -> In n names) ->
  Forall (fun n => hasBinding n = false)
    (block_bindings
       (fold_left
          (fun b n =>
             if hasBinding n then rename_identifier n (generateUid n) b else b)
          names body)).
Proof using generateUid_fresh.
  revert body. induction names as [|n names IH]; intros body H.
  - apply List.Forall_forall. intros m Hm. simpl in Hm.
    destruct (hasBinding m) eqn:E; [|reflexivity]. destruct (H m Hm E).
  - cbn [fold_left]. apply IH. intros m Hm Hb.
    destruct (hasBinding n) eqn:Hn.
    + rewrite block_bindings_rename_identifier in Hm.
      apply in_map_iff in Hm as (m0 & Hm0 & Hin).
      destruct (String.eqb m0 n) eqn:E.
      * subst m. rewrite generateUid_fresh in Hb. discriminate.
      * subst m0. destruct (H m Hin Hb) as [->|Hrest]; [|exact Hrest].
        rewrite String.eqb_refl in E. discriminate.
    + destruct (H m Hm Hb) as [->|Hrest]; [|exact Hrest]. congruence.
Qed.

End Rename.

(** X13.  When [removeUnusedBlock] puts the statements of a block in the
    place of an [if], no name the block declares ([let], [const],
    function) is left that the scope around the [if] binds: a declaration
    with such a name is given the name [generateUid] makes, a name the
    scope does not bind. *)
Theorem removeUnusedBlock_rename_fresh
  (hasBinding : string -> bool) (generateUid : string -> string)
  (body : list stmt)
  (Hfresh : forall n, hasBinding (generateUid n) = false) :
  replace hasBinding generateUid (BlockStatement body)
  = Splice (rename hasBinding generateUid body)
  /\ Forall (fun n => hasBinding n = false)
       (block_bindings (rename hasBinding generateUid body)).
Proof.
  split; [reflexivity|]. unfold rename.
  apply rename_fold; [exact Hfresh|]. auto.
Qed.

Lemma removeUnusedBlock_rename_fresh_witness :
  replace (String.eqb "a") underscore
    (BlockStatement
       [VariableDeclaration "let"
          [VariableDeclarator (Identifier "a") (Some (NumericLiteral 1))]])
  = Splice (rename (String.eqb "a") underscore
              [VariableDeclaration "let"
                 [VariableDeclarator (Identifier "a")
                    (Some (NumericLiteral 1))]])
  /\ Forall (fun n => String.eqb "a" n = false)
       (block_bindings
          (rename (String.eqb "a") underscore
             [VariableDeclaration "let"
                [VariableDeclarator (Identifier "a")
                   (Some (NumericLiteral 1))]])).
Proof.
  apply (removeUnusedBlock_rename_fresh (String.eqb "a") underscore).
  intros n. reflexivity.
Defined.

(** ** [calcBinary]: the unary operators it rewrites *)

(** X14.  The second traversal of [calcBinary] replaces a unary expression
    in four shapes only: [!] applied to a unary operator on the empty
    array (whatever that operator is: [!![]], and [!typeof []] and [!-[]]
    too) becomes [true]; [![]] becomes [false]; [!0] becomes [true]; [!1]
    becomes [false].  Every other expression, [void 0] and [!2] among them,
    is not replaced. *)
Theorem calcBinary_UnaryExpression_shapes (e e' : expr) :
  calcBinary_UnaryExpression e = Some e'
  <-> (exists operator,
          e = UnaryExpression "!" (UnaryExpression operator (ArrayExpression []))
          /\ e' = BooleanLiteral true)
      \/ (e = UnaryExpression "!" (ArrayExpression [])
          /\ e' = BooleanLiteral false)
      \/ (e = UnaryExpression "!" (NumericLiteral 0)
          /\ e' = BooleanLiteral true)
      \/ (e = UnaryExpression "!" (NumericLiteral 1)
          /\ e' = BooleanLiteral false).
Proof.
  split.
  - destruct e as [ | | | | | | | op a | | | | | | | | | ];
      try discriminate.
    cbn [calcBinary_UnaryExpression].
    destruct (String.eqb op "!") eqn:Hop; [|discriminate].
    apply String.eqb_eq in Hop. subst op.
    destruct a as [ | | v | | | | els | op' a' | | | | | | | | | ];
      try discriminate.
    + destruct v as [|[]|]; try discriminate;
        intros H; inversion H; subst; auto.
    + destruct els; [|discriminate].
      intros H; inversion H; subst; auto.
    + destruct a' as [ | | | | | | els | | | | | | | | | | ];
        try discriminate.
      destruct els; [|discriminate].
      intros H; inversion H; subst. left. eauto.
  - intros [(operator & -> & ->)|[[-> ->]|[[-> ->]|[-> ->]]]]; reflexivity.
Qed.

(** ** The decoder in a sandbox (deobfuscate/vm.ts) *)

Module VM.

(** What a sandbox makes of a piece of code. *)
Inductive outcome (A : Type) : Type :=
| Resolved (result : A)
| Rejected (message : string).

Arguments Resolved {A} result.
Arguments Rejected {A} message.

Definition Sandbox (A : Type) : Type := string -> outcome A.

(** [createNodeSandbox] and [createBrowserSandbox]: both return a function
    that throws. *)
Definition createNodeSandbox {A : Type} : Sandbox A :=
  fun _ => Rejected "Custom Sandbox implementation required.".

Definition createBrowserSandbox {A : Type} : Sandbox A :=
  fun _ => Rejected "Custom Sandbox implementation required.".

(** [Array.prototype.join] on strings. *)
Definition join (separator : string) (l : list string) : string :=
  String.concat separator l.

Record VMDecoder (A D : Type) : Type := {
  decoders : list D;
  setupCode : string;
  sandbox : Sandbox A
}.

Arguments decoders {A D} _.
Arguments setupCode {A D} _.
Arguments sandbox {A D} _.

Section Decoder.

Variables A D : Type.
(** [generate(node, generateOptions)] on the node of the string array, of
    the rotator and of a decoder. *)
Variable generate_stringArray : string.
Variable generate_rotator : option string.
Variable generate_decoder : D -> string.

Definition newline : string := String (ascii_of_nat 10) "".

(** The constructor. *)
Definition new (sandbox : Sandbox A) (decoders : list D) : VMDecoder A D :=
  let stringArrayCode := generate_stringArray in
  let rotatorCode := default "" generate_rotator in
  let decoderCode :=
    join (";" ++ newline) (map generate_decoder decoders) in
  {| decoders := decoders;
     setupCode :=
       join (";" ++ newline) [stringArrayCode; rotatorCode; decoderCode];
     sandbox := sandbox |}.

(** [decode(calls)]: [calls.join(',')] prints each call path. *)
Definition decode (vm : VMDecoder A D) (calls : list string) : outcome A :=
  let code :=
    ("(() => {" ++ newline ++ "      " ++ setupCode vm ++ newline
     ++ "      return [" ++ join "," calls ++ "]" ++ newline ++ "    })()")%string
  in
  sandbox vm code.

End Decoder.

End VM.

(** X15.  A decoder built on [createNodeSandbox] or [createBrowserSandbox]
    decodes nothing: [decode] is rejected with [Custom Sandbox
    implementation required.] for every setup and every list of calls, the
    empty one too.  Without a rotator the setup code keeps both
    separators: the code of the string array, two [;] lines, the code of
    the decoders. *)
Theorem VMDecoder_default_sandbox (A D : Type) (stringArray : string)
  (rotator : option string) (generate : D -> string) (decoders : list D)
  (calls : list string) :
  VM.decode A D
    (VM.new A D stringArray rotator generate VM.createNodeSandbox decoders) calls
  = VM.Rejected "Custom Sandbox implementation required."
  /\ VM.decode A D
       (VM.new A D stringArray rotator generate VM.createBrowserSandbox decoders)
       calls
     = VM.Rejected "Custom Sandbox implementation required."
  /\ (forall sandbox : VM.Sandbox A,
         VM.setupCode (VM.new A D stringArray None generate sandbox decoders)
         = (stringArray ++ (";" ++ VM.newline) ++ (";" ++ VM.newline)
            ++ VM.join (";" ++ VM.newline) (map generate decoders))%string).
Proof. repeat split; reflexivity. Qed.

(** ** [restoreSequence] (utils/ast.ts) *)

(** The one traversal of [restoreSequence] has an [exit] handler on
    [SequenceExpression].  The handler returns at once where the comma
    expression is the [test], the [left] or the [right] of its parent;
    elsewhere it inserts the leading expressions, as statements, before
    [path.getStatementParent()] (the nearest statement around the path that
    is an element of a statement list) and puts the last expression in the
    place of the comma expression.  [path.replaceInline(undefined)], on a
    comma expression without expressions, throws.

    The walk of a node returns [None] for the exception, or the expressions
    its handlers hoisted, in the order of the calls of [insertBefore], and
    the node it leaves. *)
Definition hoisting (A : Type) : Type := option (list expr * A).

Definition hret {A : Type} (a : A) : hoisting A := Some ([], a).

Definition hbind {A B : Type} (m : hoisting A) (k : A -> hoisting B)
  : hoisting B :=
  match m with
  | Some (h, a) =>
      match k a with
      | Some (h', b) => Some (h ++ h', b)
      | None => None
      end
  | None => None
  end.

Fixpoint hmapM {A B : Type} (f : A -> hoisting B) (l : list A)
  : hoisting (list B) :=
  match l with
  | [] => hret []
  | x :: rest =>
      hbind (f x) (fun x' => hbind (hmapM f rest) (fun rest' => hret (x' :: rest')))
  end.

Definition hoptM {A B : Type} (f : A -> hoisting B) (o : option A)
  : hoisting (option B) :=
  match o with
  | Some x => hbind (f x) (fun x' => hret (Some x'))
  | None => hret None
  end.

(** A statement list is where the hoisted expressions land: before the
    statement that was walked. *)
Definition landed (m : hoisting stmt) : option (list stmt) :=
  match m with
  | Some (h, s) => Some (expressionStatements h ++ [s])
  | None => None
  end.

Fixpoint restore_list (f : stmt -> hoisting stmt) (l : list stmt)
  : option (list stmt) :=
  match l with
  | [] => Some []
  | s :: rest =>
      match landed (f s), restore_list f rest with
      | Some l1, Some l2 => Some (l1 ++ l2)
      | _, _ => None
      end
  end.

(** A statement list hoists nothing further up. *)
Definition enclosed {A B : Type} (m : option A) (k : A -> B) : hoisting B :=
  match m with
  | Some a => Some ([], k a)
  | None => None
  end.

(** [path.parentKey] is one of [test], [left], [right]. *)
Definition excluded (parentKey : string) : bool :=
  includes ["test"; "left"; "right"] parentKey.

(** The [exit] handler, on a comma expression whose children were walked. *)
Definition restoreSequence_exit (parentKey : string) (expressions : list expr)
  : hoisting expr :=
  if excluded parentKey then hret (SequenceExpression expressions)
  else
    match pop expressions with
    | (Some finalExpression, leading) => Some (leading, finalExpression)
    | (None, _) => None
    end.

(** The walk below a statement, given the walk [fe] of an expression under
    a key. *)
Section Restore.

Variable fe : string -> expr -> hoisting expr.

Definition restore_declarator (d : declarator) : hoisting declarator :=
  match d with
  | VariableDeclarator id init =>
      hbind (fe "id" id) (fun id' =>
      hbind (hoptM (fe "init") init) (fun i' =>
      hret (VariableDeclarator id' i')))
  end.

(** The [init] of a [for] and the [left] of a [for-in], under [key]. *)
Definition restore_init (key : string) (i : forInit) : hoisting forInit :=
  match i with
  | ForInitDeclaration kind declarations =>
      hbind (hmapM restore_declarator declarations) (fun ds =>
      hret (ForInitDeclaration kind ds))
  | ForInitExpression e =>
      hbind (fe key e) (fun e' => hret (ForInitExpression e'))
  end.

Fixpoint restore_stmt (s : stmt) : hoisting stmt :=
  match s with
  | ExpressionStatement e =>
      hbind (fe "expression" e) (fun e' => hret (ExpressionStatement e'))
  | BlockStatement body =>
      enclosed (restore_list restore_stmt body) BlockStatement
  | EmptyStatement => hret s
  | ReturnStatement argument =>
      hbind (hoptM (fe "argument") argument) (fun a => hret (ReturnStatement a))
  | ThrowStatement argument =>
      hbind (fe "argument" argument) (fun a => hret (ThrowStatement a))
  | BreakStatement => hret s
  | ContinueStatement => hret s
  | IfStatement t c a =>
      hbind (fe "test" t) (fun t' =>
      hbind (restore_stmt c) (fun c' =>
      hbind (hoptM restore_stmt a) (fun a' =>
      hret (IfStatement t' c' a'))))
  | SwitchStatement d cases =>
      hbind (fe "discriminant" d) (fun d' =>
      hbind (hmapM
               (fun c =>
                  match c with
                  | SwitchCase t consequent =>
                      hbind (hoptM (fe "test") t) (fun t' =>
                      enclosed (restore_list restore_stmt consequent)
                        (SwitchCase t'))
                  end) cases) (fun cs =>
      hret (SwitchStatement d' cs)))
  | WhileStatement t body =>
      hbind (fe "test" t) (fun t' =>
      hbind (restore_stmt body) (fun b =>
      hret (WhileStatement t' b)))
  | ForStatement init t u body =>
      hbind (hoptM (restore_init "init") init) (fun i' =>
      hbind (hoptM (fe "test") t) (fun t' =>
      hbind (hoptM (fe "update") u) (fun u' =>
      hbind (restore_stmt body) (fun b =>
      hret (ForStatement i' t' u' b)))))
  | ForInStatement lhs rhs body =>
      hbind (restore_init "left" lhs) (fun l' =>
      hbind (fe "right" rhs) (fun r' =>
      hbind (restore_stmt body) (fun b =>
      hret (ForInStatement l' r' b))))
  | VariableDeclaration kind declarations =>
      hbind (hmapM restore_declarator declarations) (fun ds =>
      hret (VariableDeclaration kind ds))
  | FunctionDeclaration id params body =>
      enclosed (restore_list restore_stmt body) (FunctionDeclaration id params)
  end.

End Restore.

Fixpoint restore_expr (parentKey : string) (e : expr) : hoisting expr :=
  match e with
  | ArrayExpression elements =>
      hbind (hmapM (restore_expr "elements") elements) (fun es =>
      hret (ArrayExpression es))
  | UnaryExpression operator argument =>
      hbind (restore_expr "argument" argument) (fun a =>
      hret (UnaryExpression operator a))
  | UpdateExpression operator prefix argument =>
      hbind (restore_expr "argument" argument) (fun a =>
      hret (UpdateExpression operator prefix a))
  | BinaryExpression operator l r =>
      hbind (restore_expr "left" l) (fun l' =>
      hbind (restore_expr "right" r) (fun r' =>
      hret (BinaryExpression operator l' r')))
  | LogicalExpression operator l r =>
      hbind (restore_expr "left" l) (fun l' =>
      hbind (restore_expr "right" r) (fun r' =>
      hret (LogicalExpression operator l' r')))
  | AssignmentExpression operator l r =>
      hbind (restore_expr "left" l) (fun l' =>
      hbind (restore_expr "right" r) (fun r' =>
      hret (AssignmentExpression operator l' r')))
  | ConditionalExpression t c a =>
      hbind (restore_expr "test" t) (fun t' =>
      hbind (restore_expr "consequent" c) (fun c' =>
      hbind (restore_expr "alternate" a) (fun a' =>
      hret (ConditionalExpression t' c' a'))))
  | MemberExpression object property computed =>
      hbind (restore_expr "object" object) (fun o =>
      hbind (restore_expr "property" property) (fun p =>
      hret (MemberExpression o p computed)))
  | CallExpression callee arguments =>
      hbind (restore_expr "callee" callee) (fun c =>
      hbind (hmapM (restore_expr "arguments") arguments) (fun args =>
      hret (CallExpression c args)))
  | SequenceExpression expressions =>
      hbind (hmapM (restore_expr "expressions") expressions)
        (restoreSequence_exit parentKey)
  | FunctionExpression id params body =>
      enclosed (restore_list (restore_stmt restore_expr) body)
        (FunctionExpression id params)
  | _ => hret e
  end.

(** [restoreSequence()]: the traversal of the program, then the tree is
    parsed again. *)
Definition restoreSequence (ast : list stmt) : option (list stmt) :=
  option_map reParse (restore_list (restore_stmt restore_expr) ast).

(** The walk of a [case], as [restore_stmt] has it. *)
Definition restore_case (c : switchCase) : hoisting switchCase :=
  match c with
  | SwitchCase t consequent =>
      hbind (hoptM (restore_expr "test") t) (fun t' =>
      enclosed (restore_list (restore_stmt restore_expr) consequent)
        (SwitchCase t'))
  end.

Lemma hbind_hret {A B : Type} (a : A) (k : A -> hoisting B) :
  hbind (hret a) k = k a.
Proof. unfold hbind, hret. destruct (k a) as [[h b]|]; reflexivity. Qed.

Lemma hmapM_same {A : Type} (f : A -> hoisting A) (l : list A) :
  Forall (fun x => f x = hret x) l -> hmapM f l = hret l.
Proof.
  induction 1 as [|x l Hx _ IH]; [reflexivity|].
  cbn [hmapM]. rewrite Hx, hbind_hret, IH, hbind_hret. reflexivity.
Qed.

Lemma hoptM_same {A : Type} (f : A -> hoisting A) (o : option A) :
  (forall x, o = Some x -> f x = hret x) -> hoptM f o = hret o.
Proof.
  destruct o as [x|]; intros H; [|reflexivity].
  cbn [hoptM]. rewrite (H x eq_refl), hbind_hret. reflexivity.
Qed.

Lemma restore_list_same (f : stmt -> hoisting stmt) (l : list stmt) :
  Forall (fun s => f s = hret s) l -> restore_list f l = Some l.
Proof.
  induction 1 as [|s l Hs _ IH]; [reflexivity|].
  cbn [restore_list]. rewrite Hs, IH. reflexivity.
Qed.

Lemma list_sum_zero {A : Type} (m : A -> nat) (l : list A) :
  list_sum (map m l) = 0 -> Forall (fun x => m x = 0) l.
Proof.
  induction l as [|x l IH]; simpl; intros H; constructor; [lia|].
  apply IH. lia.
Qed.

Lemma clean_list {A : Type} (m : A -> nat) (Q : A -> Prop) (l : list A) :
  list_all A (fun x => m x = 0 -> Q x) l ->
  list_sum (map m l) = 0 ->
  Forall Q l.
Proof.
  intros IH H. apply list_all_Forall in IH. apply list_sum_zero in H.
  induction IH as [|x l Hx _ IHl]; constructor; inversion H; subst; auto.
Qed.

Lemma clean_option {A : Type} (m : A -> nat) (Q : A -> Prop) (o : option A) :
  option_all A (fun x => m x = 0 -> Q x) o ->
  match o with Some x => m x | None => 0 end = 0 ->
  match o with Some x => Q x | None => True end.
Proof. destruct 1; auto. Qed.

Ltac clean_parts :=
  repeat match goal with
    | IH : list_all _ _ _ |- _ => apply clean_list in IH; [|lia]
    | IH : option_all expr _ _ |- _ =>
        apply (clean_option commas_expr) in IH; [|simpl; lia]
    | IH : option_all stmt _ _ |- _ =>
        apply (clean_option commas_stmt) in IH; [|simpl; lia]
    | IH : option_all forInit _ _ |- _ =>
        apply (clean_option commas_init) in IH; [|simpl; lia]
    | IH : _ = 0 -> _ |- _ => specialize (IH ltac:(lia))
    end.

Ltac same_parts :=
  repeat first
    [ rewrite hbind_hret
    | rewrite hmapM_same
        by (eapply List.Forall_impl; [|eassumption]; simpl; auto)
    | match goal with
      | |- context [hoptM _ ?o] =>
          destruct o; cbn [hoptM]; cbv beta iota in *
      end
    | rewrite restore_list_same by assumption
    | match goal with
      | IH : forall key, _ = hret _ |- _ => rewrite IH
      | IH : _ = hret _ |- _ => rewrite IH
      end ].

Lemma restore_same :
  (forall e, commas_expr e = 0 -> forall key, restore_expr key e = hret e) /\
  (forall s, commas_stmt s = 0 -> restore_stmt restore_expr s = hret s) /\
  (forall c, commas_case c = 0 -> restore_case c = hret c) /\
  (forall d,
      commas_declarator d = 0 -> restore_declarator restore_expr d = hret d) /\
  (forall i,
      commas_init i = 0 ->
      forall key, restore_init restore_expr key i = hret i).
Proof.
  apply ast_mutind.
  all: intros; cbn [commas_expr commas_stmt commas_case commas_declarator
                    commas_init] in *; try discriminate.
  all: cbn [restore_expr restore_stmt restore_case restore_declarator
            restore_init]; try reflexivity.
  all: clean_parts.
  all: try solve [same_parts; reflexivity].
Qed.



(** What the parser gives: every comma expression has an expression. *)
Fixpoint parsed_expr (e : expr) : bool :=
  match e with
  | ArrayExpression elements => forallb parsed_expr elements
  | UnaryExpression _ argument => parsed_expr argument
  | UpdateExpression _ _ argument => parsed_expr argument
  | BinaryExpression _ l r => parsed_expr l && parsed_expr r
  | LogicalExpression _ l r => parsed_expr l && parsed_expr r
  | AssignmentExpression _ l r => parsed_expr l && parsed_expr r
  | ConditionalExpression t c a =>
      parsed_expr t && parsed_expr c && parsed_expr a
  | MemberExpression object property _ =>
      parsed_expr object && parsed_expr property
  | CallExpression callee arguments =>
      parsed_expr callee && forallb parsed_expr arguments
  | SequenceExpression expressions =>
      negb (Nat.eqb (length expressions) 0) && forallb parsed_expr expressions
  | FunctionExpression _ _ body => forallb parsed_stmt body
  | _ => true
  end
with parsed_stmt (s : stmt) : bool :=
  match s with
  | ExpressionStatement e => parsed_expr e
  | BlockStatement body => forallb parsed_stmt body
  | ReturnStatement argument =>
      match argument with Some e => parsed_expr e | None => true end
  | ThrowStatement argument => parsed_expr argument
  | IfStatement t c a =>
      parsed_expr t && parsed_stmt c
      && match a with Some s => parsed_stmt s | None => true end
  | SwitchStatement d cases => parsed_expr d && forallb parsed_case cases
  | WhileStatement t body => parsed_expr t && parsed_stmt body
  | ForStatement init t u body =>
      match init with Some i => parsed_init i | None => true end
      && match t with Some e => parsed_expr e | None => true end
      && match u with Some e => parsed_expr e | None => true end
      && parsed_stmt body
  | ForInStatement lhs rhs body =>
      parsed_init lhs && parsed_expr rhs && parsed_stmt body
  | VariableDeclaration _ declarations =>
      forallb parsed_declarator declarations
  | FunctionDeclaration _ _ body => forallb parsed_stmt body
  | EmptyStatement | BreakStatement | ContinueStatement => true
  end
with parsed_case (c : switchCase) : bool :=
  match c with
  | SwitchCase t consequent =>
      match t with Some e => parsed_expr e | None => true end
      && forallb parsed_stmt consequent
  end
with parsed_declarator (d : declarator) : bool :=
  match d with
  | VariableDeclarator id init =>
      parsed_expr id
      && match init with Some e => parsed_expr e | None => true end
  end
with parsed_init (i : forInit) : bool :=
  match i with
  | ForInitDeclaration _ declarations =>
      forallb parsed_declarator declarations
  | ForInitExpression e => parsed_expr e
  end.

(** No comma expression is left but as the [test], the [left] or the
    [right] of its parent: [settled_expr parentKey e] for the expression [e]
    under the key [parentKey]. *)
Fixpoint settled_expr (parentKey : string) (e : expr) : bool :=
  match e with
  | ArrayExpression elements => forallb (settled_expr "elements") elements
  | UnaryExpression _ argument => settled_expr "argument" argument
  | UpdateExpression _ _ argument => settled_expr "argument" argument
  | BinaryExpression _ l r => settled_expr "left" l && settled_expr "right" r
  | LogicalExpression _ l r => settled_expr "left" l && settled_expr "right" r
  | AssignmentExpression _ l r =>
      settled_expr "left" l && settled_expr "right" r
  | ConditionalExpression t c a =>
      settled_expr "test" t && settled_expr "consequent" c
      && settled_expr "alternate" a
  | MemberExpression object property _ =>
      settled_expr "object" object && settled_expr "property" property
  | CallExpression callee arguments =>
      settled_expr "callee" callee
      && forallb (settled_expr "arguments") arguments
  | SequenceExpression expressions =>
      excluded parentKey && forallb (settled_expr "expressions") expressions
  | FunctionExpression _ _ body => forallb settled_stmt body
  | _ => true
  end
with settled_stmt (s : stmt) : bool :=
  match s with
  | ExpressionStatement e => settled_expr "expression" e
  | BlockStatement body => forallb settled_stmt body
  | ReturnStatement argument =>
      match argument with Some e => settled_expr "argument" e | None => true end
  | ThrowStatement argument => settled_expr "argument" argument
  | IfStatement t c a =>
      settled_expr "test" t && settled_stmt c
      && match a with Some s => settled_stmt s | None => true end
  | SwitchStatement d cases =>
      settled_expr "discriminant" d && forallb settled_case cases
  | WhileStatement t body => settled_expr "test" t && settled_stmt body
  | ForStatement init t u body =>
      match init with Some i => settled_init "init" i | None => true end
      && match t with Some e => settled_expr "test" e | None => true end
      && match u with Some e => settled_expr "update" e | None => true end
      && settled_stmt body
  | ForInStatement lhs rhs body =>
      settled_init "left" lhs && settled_expr "right" rhs && settled_stmt body
  | VariableDeclaration _ declarations =>
      forallb settled_declarator declarations
  | FunctionDeclaration _ _ body => forallb settled_stmt body
  | EmptyStatement | BreakStatement | ContinueStatement => true
  end
with settled_case (c : switchCase) : bool :=
  match c with
  | SwitchCase t consequent =>
      match t with Some e => settled_expr "test" e | None => true end
      && forallb settled_stmt consequent
  end
with settled_declarator (d : declarator) : bool :=
  match d with
  | VariableDeclarator id init =>
      settled_expr "id" id
      && match init with Some e => settled_expr "init" e | None => true end
  end
with settled_init (key : string) (i : forInit) : bool :=
  match i with
  | ForInitDeclaration _ declarations =>
      forallb settled_declarator declarations
  | ForInitExpression e => settled_expr key e
  end.

(** Only a comma expression looks at the key it is under. *)
Lemma settled_expr_key (key key' : string) (e : expr) :
  excluded key = false ->
  settled_expr key e = true -> settled_expr key' e = true.
Proof.
  intros Hk. destruct e; try (intros H; exact H).
  cbn [settled_expr]. rewrite Hk. discriminate.
Qed.

(** A walk returns, every expression it hoisted is settled as a statement,
    and the node it leaves satisfies [post]. *)
Definition yields {A : Type} (m : hoisting A) (post : A -> bool) : Prop :=
  exists h a,
    m = Some (h, a)
    /\ forallb (settled_expr "expression") h = true
    /\ post a = true.

Lemma yields_hret {A : Type} (a : A) (post : A -> bool) :
  post a = true -> yields (hret a) post.
Proof. intros H. exists [], a. auto. Qed.

Lemma yields_hbind {A B : Type} (m : hoisting A) (k : A -> hoisting B)
  (p : A -> bool) (q : B -> bool) :
  yields m p -> (forall a, p a = true -> yields (k a) q) ->
  yields (hbind m k) q.
Proof.
  intros (h & a & -> & Hh & Ha) Hk.
  destruct (Hk a Ha) as (h' & b & E & Hh' & Hb).
  exists (h ++ h'), b. cbn [hbind]. rewrite E.
  split; [reflexivity|]. split; [|exact Hb].
  rewrite forallb_app, Hh, Hh'. reflexivity.
Qed.

Lemma yields_hmapM {A B : Type} (f : A -> hoisting B) (p : B -> bool)
  (l : list A) :
  Forall (fun x => yields (f x) p) l -> yields (hmapM f l) (forallb p).
Proof.
  induction 1 as [|x l Hx _ IH]; cbn [hmapM].
  - apply yields_hret. reflexivity.
  - eapply yields_hbind; [exact Hx|]. intros x' Hx'.
    eapply yields_hbind; [exact IH|]. intros l' Hl'.
    apply yields_hret. cbn [forallb]. rewrite Hx', Hl'. reflexivity.
Qed.

Lemma yields_hoptM {A B : Type} (f : A -> hoisting B) (p : B -> bool)
  (o : option A) :
  match o with Some x => yields (f x) p | None => True end ->
  yields (hoptM f o)
    (fun o' => match o' with Some x => p x | None => true end).
Proof.
  destruct o as [x|]; cbn [hoptM]; intros H.
  - eapply yields_hbind; [exact H|]. intros x' Hx'.
    apply yields_hret. exact Hx'.
  - apply yields_hret. reflexivity.
Qed.

Lemma settled_expressionStatements (h : list expr) :
  forallb settled_stmt (expressionStatements h)
  = forallb (settled_expr "expression") h.
Proof.
  induction h as [|e h IH]; [reflexivity|].
  cbn [expressionStatements map forallb settled_stmt].
  unfold expressionStatements in IH. rewrite IH. reflexivity.
Qed.

Lemma restore_list_settled (f : stmt -> hoisting stmt) (l : list stmt) :
  Forall (fun s => yields (f s) settled_stmt) l ->
  exists l', restore_list f l = Some l' /\ forallb settled_stmt l' = true.
Proof.
  induction 1 as [|s l (h & s' & E & Hh & Hs) _ (l' & El & Hl)];
    cbn [restore_list].
  - exists []. auto.
  - rewrite E, El. cbn [landed]. eexists. split; [reflexivity|].
    rewrite !forallb_app. cbn [forallb]. rewrite Hs, Hl, !andb_true_r.
    rewrite settled_expressionStatements. exact Hh.
Qed.

Lemma yields_enclosed {B : Type} (f : stmt -> hoisting stmt) (l : list stmt)
  (k : list stmt -> B) (q : B -> bool) :
  Forall (fun s => yields (f s) settled_stmt) l ->
  (forall l', forallb settled_stmt l' = true -> q (k l') = true) ->
  yields (enclosed (restore_list f l) k) q.
Proof.
  intros H Hq. destruct (restore_list_settled f l H) as (l' & -> & Hl).
  exists [], (k l'). cbn [enclosed]. auto.
Qed.

Lemma parsed_list {A : Type} (m : A -> bool) (Q : A -> Prop) (l : list A) :
  list_all A (fun x => m x = true -> Q x) l ->
  forallb m l = true ->
  Forall Q l.
Proof.
  intros IH H. apply list_all_Forall in IH.
  induction IH as [|x l Hx _ IHl]; constructor;
    cbn [forallb] in H; apply andb_true_iff in H as [H1 H2]; auto.
Qed.

Lemma parsed_option {A : Type} (m : A -> bool) (Q : A -> Prop) (o : option A) :
  option_all A (fun x => m x = true -> Q x) o ->
  match o with Some x => m x | None => true end = true ->
  match o with Some x => Q x | None => True end.
Proof. destruct 1; auto. Qed.


Lemma hmapM_length {A B : Type} (f : A -> hoisting B) (l : list A)
  (h : list expr) (l' : list B) :
  hmapM f l = Some (h, l') -> length l' = length l.
Proof.
  revert h l'. induction l as [|x l IH]; cbn [hmapM]; intros h l' H.
  - inversion H. reflexivity.
  - unfold hbind at 1 in H. destruct (f x) as [[h1 x']|]; [|discriminate].
    unfold hbind at 1 in H.
    destruct (hmapM f l) as [[h2 r]|] eqn:E; [|discriminate].
    cbn in H. inversion H; subst. cbn [length]. rewrite (IH _ _ eq_refl).
    reflexivity.
Qed.

Ltac yielded_part :=
  first
    [ match goal with
      | IH : forall key, yields (restore_expr key ?e) _
        |- yields (restore_expr ?k ?e) _ => exact (IH k)
      | IH : forall key, yields (restore_init restore_expr key ?i) _
        |- yields (restore_init restore_expr ?k ?i) _ => exact (IH k)
      end
    | eassumption
    | apply yields_hmapM; eapply List.Forall_impl; [|eassumption];
      intros ? HQ; apply HQ
    | apply yields_hoptM;
      match goal with
      | |- match ?o with Some _ => _ | None => True end =>
          destruct o; [|exact I]
      end;
      match goal with IH : _ |- _ => apply IH end ].

Ltac yielded :=
  repeat first
    [ eapply yields_hbind; [yielded_part|intros ? ?]
    | apply yields_enclosed; [eassumption|intros ? ?] ];
  try apply yields_hret;
  cbn [settled_expr settled_stmt settled_case settled_declarator
       settled_init];
  cbv beta in *;
  repeat match goal with H : _ = true |- _ => rewrite H; clear H end;
  reflexivity.

Ltac parsed_parts :=
  repeat match goal with
    | H : _ && _ = true |- _ => apply andb_true_iff in H as [? ?]
    | IH : list_all expr _ _ |- _ =>
        apply (parsed_list parsed_expr) in IH; [|assumption]
    | IH : list_all stmt _ _ |- _ =>
        apply (parsed_list parsed_stmt) in IH; [|assumption]
    | IH : list_all switchCase _ _ |- _ =>
        apply (parsed_list parsed_case) in IH; [|assumption]
    | IH : list_all declarator _ _ |- _ =>
        apply (parsed_list parsed_declarator) in IH; [|assumption]
    | IH : option_all expr _ _ |- _ =>
        apply (parsed_option parsed_expr) in IH; [|assumption]
    | IH : option_all stmt _ _ |- _ =>
        apply (parsed_option parsed_stmt) in IH; [|assumption]
    | IH : option_all forInit _ _ |- _ =>
        apply (parsed_option parsed_init) in IH; [|assumption]
    | IH : ?x = true -> _, H : ?x = true |- _ => specialize (IH H)
    end.

Lemma restore_settled :
  (forall e,
      parsed_expr e = true ->
      forall key, yields (restore_expr key e) (settled_expr key)) /\
  (forall s,
      parsed_stmt s = true ->
      yields (restore_stmt restore_expr s) settled_stmt) /\
  (forall c, parsed_case c = true -> yields (restore_case c) settled_case) /\
  (forall d,
      parsed_declarator d = true ->
      yields (restore_declarator restore_expr d) settled_declarator) /\
  (forall i,
      parsed_init i = true ->
      forall key,
        yields (restore_init restore_expr key i) (settled_init key)).
Proof.
  apply ast_mutind.
  all: intros; cbn [parsed_expr parsed_stmt parsed_case parsed_declarator
                    parsed_init] in *.
  all: cbn [restore_expr restore_stmt restore_case restore_declarator
            restore_init].
  all: try solve [apply yields_hret; reflexivity].
  all: parsed_parts.
  all: try solve [yielded].
  (* the comma expression *)
  assert (yields (hmapM (restore_expr "expressions") expressions)
            (forallb (settled_expr "expressions")))
    as (h & es & E & Hh & Hes).
  { apply yields_hmapM. eapply List.Forall_impl; [|exact H].
    intros e He. apply He. }
  rewrite E. unfold hbind, restoreSequence_exit.
  destruct (excluded key) eqn:Hk.
  - exists (h ++ []), (SequenceExpression es). split; [reflexivity|].
    rewrite app_nil_r. cbn [settled_expr]. rewrite Hk, Hes. auto.
  - apply hmapM_length in E.
    destruct (exists_last (l := es)) as (leading & final & ->).
    { intros ->. destruct expressions; discriminate. }
    rewrite pop_snoc. exists (h ++ leading), final.
    split; [reflexivity|].
    rewrite forallb_app in Hes. cbn [forallb] in Hes.
    apply andb_true_iff in Hes as [Hleading Hfinal].
    rewrite andb_true_r in Hfinal.
    split.
    + rewrite forallb_app, Hh. cbn [andb].
      apply forallb_forall. intros e He.
      apply (settled_expr_key "expressions"); [reflexivity|].
      exact (proj1 (forallb_forall _ _) Hleading e He).
    + apply (settled_expr_key "expressions"); [reflexivity|exact Hfinal].
Qed.



(** ** [restoreSequence]: a second run *)

Lemma keyed_list {K A : Type} (m : K -> A -> bool) (Q : K -> A -> Prop)
  (k : K) (l : list A) :
  list_all A (fun x => forall key, m key x = true -> Q key x) l ->
  forallb (m k) l = true ->
  Forall (Q k) l.
Proof.
  intros IH H. apply list_all_Forall in IH.
  induction IH as [|x l Hx _ IHl]; constructor;
    cbn [forallb] in H; apply andb_true_iff in H as [H1 H2]; auto.
Qed.

Lemma keyed_option {K A : Type} (m : K -> A -> bool) (Q : K -> A -> Prop)
  (k : K) (o : option A) :
  option_all A (fun x => forall key, m key x = true -> Q key x) o ->
  match o with Some x => m k x | None => true end = true ->
  match o with Some x => Q k x | None => True end.
Proof. destruct 1; auto. Qed.

Ltac settled_parts :=
  repeat match goal with
    | H : _ && _ = true |- _ => apply andb_true_iff in H as [? ?]
    | IH : list_all expr _ ?l, H : forallb (settled_expr ?k) ?l = true |- _ =>
        apply (keyed_list settled_expr _ k) in IH; [|exact H]
    | IH : list_all stmt _ _ |- _ =>
        apply (parsed_list settled_stmt) in IH; [|assumption]
    | IH : list_all switchCase _ _ |- _ =>
        apply (parsed_list settled_case) in IH; [|assumption]
    | IH : list_all declarator _ _ |- _ =>
        apply (parsed_list settled_declarator) in IH; [|assumption]
    | IH : option_all expr _ ?o,
      H : match ?o with Some x => settled_expr ?k x | None => true end = true
      |- _ =>
        apply (keyed_option settled_expr _ k) in IH; [|exact H]
    | IH : option_all stmt _ _ |- _ =>
        apply (parsed_option settled_stmt) in IH; [|assumption]
    | IH : option_all forInit _ ?o,
      H : match ?o with Some x => settled_init ?k x | None => true end = true
      |- _ =>
        apply (keyed_option settled_init _ k) in IH; [|exact H]
    | IH : forall key, ?m key ?x = true -> _, H : ?m ?k ?x = true |- _ =>
        specialize (IH k H)
    | IH : ?x = true -> _, H : ?x = true |- _ => specialize (IH H)
    end.

(** The nodes the handler puts in place were walked before it ran; the
    traversal queues them once more, and that walk leaves them as they
    are. *)
Lemma restore_fixed :
  (forall e key, settled_expr key e = true -> restore_expr key e = hret e) /\
  (forall s, settled_stmt s = true -> restore_stmt restore_expr s = hret s) /\
  (forall c, settled_case c = true -> restore_case c = hret c) /\
  (forall d,
      settled_declarator d = true ->
      restore_declarator restore_expr d = hret d) /\
  (forall i key,
      settled_init key i = true ->
      restore_init restore_expr key i = hret i).
Proof.
  apply ast_mutind.
  all: intros; cbn [settled_expr settled_stmt settled_case settled_declarator
                    settled_init] in *.
  all: cbn [restore_expr restore_stmt restore_case restore_declarator
            restore_init]; try reflexivity.
  all: settled_parts.
  all: try solve [same_parts; reflexivity].
  rewrite (hmapM_same _ _ H), hbind_hret. unfold restoreSequence_exit.
  rewrite H0. reflexivity.
Qed.



(** ** [restoreSequence]: where the hoisted expressions land *)

Lemma restore_expr_comma_free (e : expr) (key : string) :
  commas_expr e = 0 -> restore_expr key e = hret e.
Proof. intros H. apply restore_same. exact H. Qed.

Lemma hmapM_comma_free (key : string) (l : list expr) :
  Forall (fun e => commas_expr e = 0) l ->
  hmapM (restore_expr key) l = hret l.
Proof.
  intros H. apply hmapM_same. eapply List.Forall_impl; [|exact H].
  intros e He. apply restore_expr_comma_free. exact He.
Qed.





(** ** [transformForLoop] (utils/ast.ts) *)

(** [node.name]: an identifier has a name, on another node the property is
    [undefined]. *)
Definition name_of (e : expr) : option string :=
  match e with
  | Identifier n => Some n
  | _ => None
  end.

(** [===] on two such values. *)
Definition same_name (a b : option string) : bool :=
  match a, b with
  | Some x, Some y => String.eqb x y
  | None, None => true
  | _, _ => false
  end.

(** [Array.prototype.includes] on the names pushed: [undefined] is found
    where [undefined] was pushed. *)
Definition includes_name (l : list (option string)) (x : option string)
  : bool :=
  existsb (same_name x) l.

(** [toRemoveVariableDeclarators] after the [forEach]: a name for every
    assignment of the [init]. *)
Definition toRemoveVariableDeclarators (expressions : list expr)
  : list (option string) :=
  flat_map
    (fun expression =>
       match expression with
       | AssignmentExpression _ l _ => [name_of l]
       | _ => []
       end)
    expressions.

(** [declarations] after the [forEach]: a [var] for every assignment to an
    identifier. *)
Definition transformForLoop_declarations (expressions : list expr)
  : list stmt :=
  flat_map
    (fun expression =>
       match expression with
       | AssignmentExpression _ (Identifier n) r =>
           [VariableDeclaration "var"
              [VariableDeclarator (Identifier n) (Some r)]]
       | _ => []
       end)
    expressions.

(** The [filter] on the expressions of the [init]. *)
Definition transformForLoop_filter (names : list (option string))
  (expressions : list expr) : list expr :=
  List.filter
    (fun e =>
       match e with
       | AssignmentExpression _ l _ => negb (includes_name names (name_of l))
       | _ => true
       end)
    expressions.

Section TransformForLoop.

(** [path.traverse({ VariableDeclarator(p) {...} })] below the [for]: what
    the removal of the declarators without initializer, named in the list,
    leaves of an expression and of a statement. *)
Variable removed_expr : list (option string) -> expr -> expr.
Variable removed_stmt : list (option string) -> stmt -> stmt.

(** The [ForStatement] handler: [None] where it does nothing, else the
    declarations it inserts before the [for] and the [for] it leaves. *)
Definition transformForLoop_ForStatement
  (init : option forInit) (test update : option expr) (body : stmt)
  : option (list stmt * stmt) :=
  match init with
  | Some (ForInitExpression (SequenceExpression expressions)) =>
      let names := toRemoveVariableDeclarators expressions in
      Some
        (transformForLoop_declarations expressions,
         ForStatement
           (Some
              (ForInitExpression
                 (SequenceExpression
                    (map (removed_expr names)
                       (transformForLoop_filter names expressions)))))
           (option_map (removed_expr names) test)
           (option_map (removed_expr names) update)
           (removed_stmt names body))
  | _ => None
  end.

End TransformForLoop.

Definition isAssignmentExpression (e : expr) : bool :=
  match e with
  | AssignmentExpression _ _ _ => true
  | _ => false
  end.

Lemma same_name_refl (x : option string) : same_name x x = true.
Proof. destruct x as [s|]; [apply String.eqb_refl|reflexivity]. Qed.

Lemma includes_name_app (l l' : list (option string)) (x : option string) :
  includes_name (l ++ l') x = includes_name l x || includes_name l' x.
Proof. unfold includes_name. apply existsb_app. Qed.

Lemma transformForLoop_filter_all (before expressions : list expr) :
  transformForLoop_filter
    (toRemoveVariableDeclarators (before ++ expressions)) expressions
  = List.filter (fun e => negb (isAssignmentExpression e)) expressions.
Proof.
  revert before. induction expressions as [|e es IH]; intros before.
  - reflexivity.
  - unfold transformForLoop_filter in *. cbn [List.filter].
    replace (before ++ e :: es) with ((before ++ [e]) ++ es)
      by (rewrite <- app_assoc; reflexivity).
    rewrite (IH (before ++ [e])).
    destruct e; try reflexivity.
    cbn [isAssignmentExpression negb].
    unfold toRemoveVariableDeclarators.
    rewrite !flat_map_app, !includes_name_app. cbn [flat_map app].
    unfold includes_name at 2. cbn [existsb].
    rewrite same_name_refl, orb_true_r. reflexivity.
Qed.

(** X21.  The [ForStatement] handler of [transformForLoop] takes every
    assignment out of the comma expression in the [init], whatever its
    target and its operator, and no other expression; a [var] declaration
    is made only where the target is an identifier.  So an assignment to a
    member, [o.p = r], is dropped: nothing is inserted for it and it is no
    longer in the [init]. *)
Theorem transformForLoop_assignments
  (removed_expr : list (option string) -> expr -> expr)
  (removed_stmt : list (option string) -> stmt -> stmt)
  (expressions : list expr) (test update : option expr) (body : stmt) :
  transformForLoop_ForStatement removed_expr removed_stmt
    (Some (ForInitExpression (SequenceExpression expressions)))
    test update body
  = Some
      (transformForLoop_declarations expressions,
       ForStatement
         (Some
            (ForInitExpression
               (SequenceExpression
                  (map
                     (removed_expr (toRemoveVariableDeclarators expressions))
                     (List.filter (fun e => negb (isAssignmentExpression e))
                        expressions)))))
         (option_map
            (removed_expr (toRemoveVariableDeclarators expressions)) test)
         (option_map
            (removed_expr (toRemoveVariableDeclarators expressions)) update)
         (removed_stmt (toRemoveVariableDeclarators expressions) body))
  /\ forall operator object property computed r,
      transformForLoop_ForStatement removed_expr removed_stmt
        (Some
           (ForInitExpression
              (SequenceExpression
                 [AssignmentExpression operator
                    (MemberExpression object property computed) r])))
        test update body
      = Some
          ([],
           ForStatement (Some (ForInitExpression (SequenceExpression [])))
             (option_map (removed_expr [None]) test)
             (option_map (removed_expr [None]) update)
             (removed_stmt [None] body)).
Proof.
  split.
  - unfold transformForLoop_ForStatement.
    pose proof (transformForLoop_filter_all [] expressions) as E.
    cbn [app] in E. rewrite E. reflexivity.
  - intros. reflexivity.
Qed.
